(** * Markdown table aligner: a shallow embedding of
      [docs-site/utils/align_markdown_tables.py] and its properties.

    Strings are lists of characters ([list ascii], one [ascii] per code
    point below 256); a document is a list of lines.  Python exceptions
    ([ValueError] of [max] on an empty sequence, [IndexError] of an index
    out of range) are modelled by [None]. *)

From Equations Require Import Equations.
From Stdlib Require Import String.
From Stdlib Require Import List Arith Lia Bool Ascii.
Import ListNotations.

Local Open Scope list_scope.
Local Open Scope char_scope.
Local Open Scope nat_scope.

#[local] Arguments Ascii.eqb : simpl never.

(** ** Strings *)

Definition str := list ascii.

(** A string literal as a list of characters. *)
Definition lit (x : String.string) : str := String.list_ascii_of_string x.

Definition str_eqb (a b : str) : bool :=
  if list_eq_dec ascii_dec a b then true else false.

(** The characters [str.strip()] removes: Python's [str.isspace] on the
    code points below 256 (tab .. carriage return, file .. unit separator,
    space, NEL, no-break space). *)
Definition is_space (c : ascii) : bool :=
  let n := nat_of_ascii c in
  ((9 <=? n) && (n <=? 13)) || ((28 <=? n) && (n <=? 32))
  || (n =? 133) || (n =? 160).

Fixpoint lstrip (s : str) : str :=
  match s with
  | c :: r => if is_space c then lstrip r else s
  | [] => []
  end.

Definition rstrip (s : str) : str := rev (lstrip (rev s)).

Definition strip (s : str) : str := rstrip (lstrip s).

(** [p in s] for a one-character [p]. *)
Definition contains (c : ascii) (s : str) : bool := existsb (Ascii.eqb c) s.

(** [s.startswith(p)] *)
Fixpoint startswith (p s : str) : bool :=
  match p, s with
  | [], _ => true
  | a :: p', b :: s' => Ascii.eqb a b && startswith p' s'
  | _ :: _, [] => false
  end.

(** [s.endswith(p)] *)
Definition endswith (p s : str) : bool := startswith (rev p) (rev s).

(** [s[1:]] and [s[:-1]] *)
Definition drop_first (s : str) : str := tl s.
Definition drop_last (s : str) : str := removelast s.

(** [s.ljust(w)]: pad with spaces on the right up to width [w]. *)
Definition ljust (w : nat) (s : str) : str := s ++ repeat " " (w - length s).

(** [sep.join(parts)] *)
Fixpoint join (sep : str) (parts : list str) : str :=
  match parts with
  | [] => []
  | [p] => p
  | p :: ps => p ++ sep ++ join sep ps
  end.

(** ** Facts about stripping *)

Lemma lstrip_spaces (ws s : str) :
  forallb is_space ws = true -> lstrip (ws ++ s) = lstrip s.
Proof.
  induction ws as [|c ws IH]; simpl; intros H; [reflexivity|].
  apply andb_prop in H. destruct H as [Hc Hws]. rewrite Hc. auto.
Qed.

Lemma lstrip_split (s : str) :
  exists ws, forallb is_space ws = true /\ s = ws ++ lstrip s.
Proof.
  induction s as [|c s IH]; simpl.
  - exists []. auto.
  - destruct (is_space c) eqn:Hc.
    + destruct IH as [ws [Hws Heq]]. exists (c :: ws). simpl.
      rewrite Hc, Hws. split; [reflexivity|]. congruence.
    + exists []. auto.
Qed.

Lemma lstrip_head (s : str) (c : ascii) (r : str) :
  lstrip s = c :: r -> is_space c = false.
Proof.
  induction s as [|a s IH]; simpl; [discriminate|].
  destruct (is_space a) eqn:Ha; [exact IH|].
  intros H. injection H as -> _. exact Ha.
Qed.

Lemma lstrip_fix (c : ascii) (r : str) :
  is_space c = false -> lstrip (c :: r) = c :: r.
Proof. intros H. simpl. rewrite H. reflexivity. Qed.

Lemma lstrip_idem (s : str) : lstrip (lstrip s) = lstrip s.
Proof.
  destruct (lstrip s) as [|c r] eqn:E; [reflexivity|].
  apply lstrip_fix. eapply lstrip_head; eauto.
Qed.

Lemma lstrip_nil_iff (s : str) : lstrip s = [] <-> forallb is_space s = true.
Proof.
  induction s as [|c s IH]; simpl; [tauto|].
  destruct (is_space c); simpl; [exact IH|]. split; discriminate.
Qed.

Lemma lstrip_app_fix (s x : str) :
  lstrip s = s -> s <> [] -> lstrip (s ++ x) = s ++ x.
Proof.
  destruct s as [|c r]; [congruence|]. intros H _.
  pose proof (lstrip_head _ _ _ H) as Hc. simpl. rewrite Hc. reflexivity.
Qed.

Lemma rstrip_spaces (s ws : str) :
  forallb is_space ws = true -> rstrip (s ++ ws) = rstrip s.
Proof.
  intros H. unfold rstrip. rewrite rev_app_distr, lstrip_spaces; [reflexivity|].
  rewrite forallb_forall in *. intros x Hx. apply H. now apply in_rev.
Qed.

Lemma rstrip_split (s : str) :
  exists ws, forallb is_space ws = true /\ s = rstrip s ++ ws.
Proof.
  destruct (lstrip_split (rev s)) as [ws [Hws Heq]].
  exists (rev ws). split.
  - rewrite forallb_forall in *. intros x Hx. apply Hws. now apply in_rev.
  - unfold rstrip. rewrite <- rev_app_distr, <- Heq, rev_involutive. reflexivity.
Qed.

Lemma rstrip_nil_iff (s : str) : rstrip s = [] <-> forallb is_space s = true.
Proof.
  unfold rstrip. split; intros H.
  - assert (lstrip (rev s) = []) as H'.
    { destruct (lstrip (rev s)); [reflexivity|].
      apply (f_equal (@length _)) in H. rewrite length_rev in H. discriminate. }
    apply lstrip_nil_iff in H'. rewrite forallb_forall in *.
    intros x Hx. apply H'. now apply -> in_rev.
  - assert (lstrip (rev s) = []) as ->; [|reflexivity].
    apply lstrip_nil_iff. rewrite forallb_forall in *.
    intros x Hx. apply H. now apply in_rev.
Qed.

Lemma rstrip_snoc_fix (r : str) (c : ascii) :
  is_space c = false -> rstrip (r ++ [c]) = r ++ [c].
Proof.
  intros H. unfold rstrip. rewrite rev_app_distr. simpl. rewrite H.
  simpl. rewrite rev_involutive. reflexivity.
Qed.

Lemma rstrip_last (s r : str) (c : ascii) :
  rstrip s = r ++ [c] -> is_space c = false.
Proof.
  unfold rstrip. intros H.
  apply (f_equal (@rev _)) in H. rewrite rev_involutive, rev_app_distr in H.
  simpl in H. eapply lstrip_head; eauto.
Qed.

Lemma rstrip_idem (s : str) : rstrip (rstrip s) = rstrip s.
Proof.
  unfold rstrip. rewrite rev_involutive, lstrip_idem. reflexivity.
Qed.

Lemma rstrip_app_fix (x s : str) :
  rstrip s = s -> s <> [] -> rstrip (x ++ s) = x ++ s.
Proof.
  intros H Hne. destruct (exists_last Hne) as [r [c ->]].
  pose proof (rstrip_last _ _ _ H) as Hc.
  rewrite app_assoc. apply rstrip_snoc_fix. exact Hc.
Qed.

Lemma rstrip_cons_nonspace (c : ascii) (s : str) :
  is_space c = false -> rstrip (c :: s) = c :: rstrip s.
Proof.
  intros Hc. destruct (rstrip_split s) as [ws [Hws Heq]].
  rewrite Heq at 1. rewrite app_comm_cons, rstrip_spaces by exact Hws.
  destruct (rstrip s) as [|a r] eqn:E.
  - apply (rstrip_snoc_fix [] c Hc).
  - apply (rstrip_app_fix [c] (a :: r)); [|discriminate].
    rewrite <- E. apply rstrip_idem.
Qed.

Lemma lstrip_rstrip_comm (s : str) : lstrip (rstrip s) = rstrip (lstrip s).
Proof.
  induction s as [|c s IH]; [reflexivity|].
  simpl lstrip at 2. destruct (is_space c) eqn:Hc.
  - rewrite <- IH.
    destruct (forallb is_space s) eqn:Hs.
    + assert (rstrip (c :: s) = []) as ->.
      { apply rstrip_nil_iff. simpl. now rewrite Hc, Hs. }
      assert (rstrip s = []) as -> by now apply rstrip_nil_iff.
      reflexivity.
    + destruct (rstrip_split s) as [ws [Hws Heq]].
      assert (rstrip s <> []) as Hne.
      { intros E. apply rstrip_nil_iff in E. congruence. }
      assert (rstrip (c :: s) = c :: rstrip s) as ->.
      { rewrite Heq at 1. rewrite app_comm_cons, rstrip_spaces by exact Hws.
        apply (rstrip_app_fix [c]); [apply rstrip_idem | exact Hne]. }
      simpl. rewrite Hc. reflexivity.
  - rewrite rstrip_cons_nonspace by exact Hc. simpl. rewrite Hc. reflexivity.
Qed.

Lemma strip_idem (s : str) : strip (strip s) = strip s.
Proof.
  unfold strip.
  rewrite (lstrip_rstrip_comm (lstrip s)), lstrip_idem, rstrip_idem.
  reflexivity.
Qed.

Lemma strip_nil : strip [] = [].
Proof. reflexivity. Qed.

Lemma strip_spaces_l (ws s : str) :
  forallb is_space ws = true -> strip (ws ++ s) = strip s.
Proof. intros H. unfold strip. now rewrite lstrip_spaces. Qed.

Lemma strip_spaces_r (s ws : str) :
  forallb is_space ws = true -> strip (s ++ ws) = strip s.
Proof.
  intros H. unfold strip.
  rewrite <- !lstrip_rstrip_comm, rstrip_spaces by exact H. reflexivity.
Qed.

Lemma strip_split (s : str) :
  exists ws1 ws2, forallb is_space ws1 = true /\ forallb is_space ws2 = true
                  /\ s = ws1 ++ strip s ++ ws2.
Proof.
  destruct (lstrip_split s) as [ws1 [H1 E1]].
  destruct (rstrip_split (lstrip s)) as [ws2 [H2 E2]].
  exists ws1, ws2. repeat split; auto. unfold strip. congruence.
Qed.

(** A string is trimmed when stripping leaves it as it is. *)
Definition trimmed (s : str) : Prop := strip s = s.

Lemma trimmed_strip (s : str) : trimmed (strip s).
Proof. apply strip_idem. Qed.

Lemma trimmed_lstrip (s : str) : trimmed s -> lstrip s = s.
Proof.
  unfold trimmed. intros H. rewrite <- H at 1.
  unfold strip. rewrite lstrip_rstrip_comm, lstrip_idem. exact H.
Qed.

Lemma trimmed_rstrip (s : str) : trimmed s -> rstrip s = s.
Proof.
  unfold trimmed. intros H. rewrite <- H at 1.
  unfold strip. rewrite rstrip_idem. exact H.
Qed.

Lemma strip_nonspace_ends (c d : ascii) (m : str) :
  is_space c = false -> is_space d = false ->
  strip (c :: m ++ [d]) = c :: m ++ [d].
Proof.
  intros Hc Hd. unfold strip. rewrite lstrip_fix by exact Hc.
  apply (rstrip_snoc_fix (c :: m) d Hd).
Qed.

Lemma contains_app (c : ascii) (a b : str) :
  contains c (a ++ b) = contains c a || contains c b.
Proof. unfold contains. apply existsb_app. Qed.

Lemma contains_spaces (c : ascii) (ws : str) :
  is_space c = false -> forallb is_space ws = true -> contains c ws = false.
Proof.
  intros Hc Hws. unfold contains.
  destruct (existsb (Ascii.eqb c) ws) eqn:E; [|reflexivity].
  apply existsb_exists in E. destruct E as [x [Hx Hcx]].
  apply Ascii.eqb_eq in Hcx. subst x.
  rewrite forallb_forall in Hws. rewrite (Hws _ Hx) in Hc. discriminate.
Qed.

Lemma contains_strip (c : ascii) (s : str) :
  is_space c = false -> contains c (strip s) = contains c s.
Proof.
  intros Hc. destruct (strip_split s) as [ws1 [ws2 [H1 [H2 E]]]].
  rewrite E at 2. rewrite !contains_app.
  rewrite (contains_spaces c ws1 Hc H1), (contains_spaces c ws2 Hc H2).
  simpl. now rewrite orb_false_r.
Qed.

(** ** [split_row] *)

(** The loop variables of [split_row]: the finished cells, the buffer of
    the cell being read ([buf], kept joined), and the code-span state. *)
Record ScanState := mkScan {
  cells : list str;
  buf : str;
  in_code : bool;
  code_tick_len : option nat
}.

Definition scan_init : ScanState := mkScan [] [] false None.

(** The inner loop [while j < len(s) and s[j] == "`"]: the length of the
    backtick run at the head of [s]. *)
Fixpoint tick_run (s : str) : nat :=
  match s with
  | c :: r => if Ascii.eqb c "`" then S (tick_run r) else 0
  | [] => 0
  end.

Lemma skipn_tick_run_length (s : str) : length (skipn (tick_run s) s) <= length s.
Proof. rewrite length_skipn. lia. Qed.

(** State after a backtick run of length [n] has been appended. *)
Definition on_ticks (st : ScanState) (n : nat) : ScanState :=
  let b := buf st ++ repeat "`" n in
  if negb (in_code st) then mkScan (cells st) b true (Some n)
  else match code_tick_len st with
       | Some m => if m =? n then mkScan (cells st) b false None
                   else mkScan (cells st) b (in_code st) (code_tick_len st)
       | None => mkScan (cells st) b (in_code st) (code_tick_len st)
       end.

(** [buf.append(x)] *)
Definition push (st : ScanState) (x : str) : ScanState :=
  mkScan (cells st) (buf st ++ x) (in_code st) (code_tick_len st).

(** [cells.append("".join(buf).strip()); buf = []] *)
Definition emit (st : ScanState) : ScanState :=
  mkScan (cells st ++ [strip (buf st)]) [] (in_code st) (code_tick_len st).

(** One iteration of the main loop of [split_row] at character [ch],
    [rest] being the characters after it: the new loop variables and the
    characters left to scan. *)
Definition scan_iter (st : ScanState) (ch : ascii) (rest : str)
  : ScanState * str :=
  if Ascii.eqb ch "\" && startswith ["|"] rest then
    (* Escaped pipe *)
    (push st ["\"; "|"], tl rest)
  else if Ascii.eqb ch "`" then
    (* Inline code span handling *)
    (on_ticks st (S (tick_run rest)), skipn (tick_run rest) rest)
  else if Ascii.eqb ch "|" && negb (in_code st) then
    (* Column separator (only when not inside code) *)
    (emit st, rest)
  else
    (push st [ch], rest).

Lemma scan_iter_decreases (st : ScanState) (ch : ascii) (rest : str) :
  length (snd (scan_iter st ch rest)) <= length rest.
Proof.
  unfold scan_iter.
  destruct (Ascii.eqb ch "\" && startswith ["|"] rest).
  - destruct rest; simpl; lia.
  - destruct (Ascii.eqb ch "`"); [apply skipn_tick_run_length|].
    destruct (Ascii.eqb ch "|" && negb (in_code st)); simpl; lia.
Qed.

(** The main loop of [split_row], on the part of [s] from index [i] on;
    the result is the state when the loop ends. *)
Equations? scan_loop (st : ScanState) (s : str) : ScanState
  by wf (length s) lt :=
  scan_loop st [] := st;
  scan_loop st (ch :: rest) :=
    scan_loop (fst (scan_iter st ch rest)) (snd (scan_iter st ch rest)).
Proof.
  pose proof (scan_iter_decreases st ch rest). simpl. lia.
Qed.

(** The string [split_row] scans: the line stripped, without one leading
    and one trailing pipe. *)
Definition row_body (line : str) : str :=
  let s := strip line in
  let s := if startswith ["|"] s then drop_first s else s in
  let s := if endswith ["|"] s then drop_last s else s in
  s.

Definition split_row (line : str) : list str :=
  cells (emit (scan_loop scan_init (row_body line))).

(** ** Delimiter rows *)

Definition is_delimiter_cell (cell : str) : bool :=
  match cell with
  | [] => false
  | _ =>
    let c := strip cell in
    let left := startswith [":"] c in
    let right := endswith [":"] c in
    let core :=
      if left && right then drop_last (drop_first c)
      else if left then drop_first c
      else if right then drop_last c
      else c in
    let core := strip core in
    (3 <=? length core) && forallb (fun ch => Ascii.eqb ch "-") core
  end.

Definition is_delimiter_row (line : str) : bool :=
  if negb (contains "|" line) then false
  else
    let cs := split_row line in
    (2 <=? length cs) && forallb is_delimiter_cell cs.

Example split_row_ex1 :
  split_row (lit "| a | `x|y` | b \| c |") = [lit "a"; lit "`x|y`"; lit "b \| c"].
Proof. vm_compute. reflexivity. Qed.

Example is_delimiter_row_ex1 : is_delimiter_row (lit "|:---|---:|") = true.
Proof. vm_compute. reflexivity. Qed.

(** ** [find_tables] *)

Record Table := mkTable {
  start : nat;
  end_ : nat;   (* inclusive *)
  rows : list (list str)   (* includes header + delimiter + body rows *)
}.

(** The two variables [in_fence] and [fence_marker] that [toggle_fence]
    updates. *)
Record FenceState := mkFence {
  in_fence : bool;
  fence_marker : option str
}.

Definition fence_init : FenceState := mkFence false None.

Definition marker_eqb (m : option str) (marker : str) : bool :=
  match m with
  | Some x => str_eqb x marker
  | None => false
  end.

Definition toggle_fence (st : FenceState) (line : str) : FenceState :=
  let stripped := lstrip line in
  let toggle marker :=
    if negb (in_fence st) then mkFence true (Some marker)
    else if marker_eqb (fence_marker st) marker then mkFence false None
    else st in
  if startswith (lit "```") stripped then toggle (lit "```")
  else if startswith (lit "~~~") stripped then toggle (lit "~~~")
  else st.

(** The three tests of the inner loop of [find_tables] on [lines[j]]:
    not blank, contains a pipe, does not start a code fence. *)
Definition starts_fence (line : str) : bool :=
  startswith (lit "```") (lstrip line) || startswith (lit "~~~") (lstrip line).

Definition absorbable (line : str) : bool :=
  match strip line with
  | [] => false
  | _ => contains "|" line && negb (starts_fence line)
  end.

(** The number of lines the inner loop consumes from [lines[i:]]
    ([j - i] when it stops). *)
Fixpoint absorb (ls : list str) : nat :=
  match ls with
  | l :: r => if absorbable l then S (absorb r) else 0
  | [] => 0
  end.

(** [i + 1 < len(lines) and is_delimiter_row(lines[i + 1])] on the lines
    after [lines[i]]. *)
Definition next_is_delimiter (after : list str) : bool :=
  match after with
  | nxt :: _ => is_delimiter_row nxt
  | [] => false
  end.

Definition inspect {A} (a : A) : {b : A | a = b} := exist _ a eq_refl.

Lemma contains_strip_nonempty (c : ascii) (line : str) :
  is_space c = false -> contains c line = true -> strip line <> [].
Proof.
  intros Hc H E. rewrite <- (contains_strip c line Hc), E in H. discriminate.
Qed.

Lemma toggle_fence_closes (st : FenceState) (line : str) :
  starts_fence line = true ->
  in_fence (toggle_fence st line) = false -> in_fence st = true.
Proof.
  unfold starts_fence, toggle_fence. intros Hs Hf.
  destruct (in_fence st); [reflexivity|].
  destruct (startswith (lit "```") (lstrip line)); simpl in *; [discriminate|].
  rewrite Hs in Hf. discriminate.
Qed.

Lemma absorb_zero_closes (st : FenceState) (line : str) (after : list str) :
  in_fence (toggle_fence st line) = false ->
  contains "|" line = true ->
  absorb (line :: after) = 0 -> in_fence st = true.
Proof.
  intros Hf Hp Ha. simpl in Ha. unfold absorbable in Ha.
  pose proof (contains_strip_nonempty "|" line eq_refl Hp) as Hne.
  destruct (strip line); [congruence|].
  rewrite Hp in Ha. simpl in Ha.
  destruct (starts_fence line) eqn:Hs; simpl in Ha; [|discriminate].
  eapply toggle_fence_closes; eauto.
Qed.

(** The outer loop of [find_tables] at index [i], [rest] being
    [lines[i:]]; the result lists the tables appended from there on. *)
Equations? find_tables_loop (i : nat) (rest : list str) (st : FenceState)
  : list Table
  by wf (2 * length rest + (if in_fence st then 1 else 0)) lt :=
  find_tables_loop i [] st := [];
  find_tables_loop i (line :: after) st
    with inspect (in_fence (toggle_fence st line)) := {
    | exist _ true _ :=
        find_tables_loop (S i) after (toggle_fence st line);
    | exist _ false Hf
        with inspect (contains "|" line && next_is_delimiter after) := {
        | exist _ true Ht :=
            let j := i + absorb (line :: after) in
            let end_ := j - 1 in
            let raw_rows :=
              map split_row (firstn (absorb (line :: after)) (line :: after)) in
            mkTable i end_ raw_rows
            :: find_tables_loop (end_ + 1)
                 (skipn (absorb (line :: after)) (line :: after))
                 (toggle_fence st line);
        | exist _ false _ :=
            find_tables_loop (S i) after (toggle_fence st line) } }.
Proof.
  - destruct (in_fence (toggle_fence st line)), (in_fence st); lia.
  - apply andb_prop in Ht. destruct Ht as [Hp _].
    pose proof (absorb_zero_closes st line after Hf Hp) as Hz.
    simpl absorb in Hz. rewrite Hf.
    destruct (absorbable line).
    + simpl skipn. rewrite length_skipn. destruct (in_fence st); lia.
    + rewrite (Hz eq_refl). simpl. lia.
  - destruct (in_fence (toggle_fence st line)), (in_fence st); lia.
Qed.

Definition find_tables (lines : list str) : list Table :=
  find_tables_loop 0 lines fence_init.

Example find_tables_ex1 :
  find_tables [lit "x"; lit "|a|b|"; lit "|---|---|"; lit "|1|2|"; lit ""; lit "y"]
  = [mkTable 1 3 [[lit "a"; lit "b"]; [lit "---"; lit "---"]; [lit "1"; lit "2"]]].
Proof. vm_compute. reflexivity. Qed.

Example find_tables_ex2 :
  find_tables [lit "```"; lit "``` |"; lit "|---|---|"; lit "|a|b|"; lit "|---|---|"]
  = [mkTable 1 0 []].
Proof. vm_compute. reflexivity. Qed.

(** ** [align_table] *)

(** A small error monad for the operations that can raise. *)
Definition bind {A B} (m : option A) (f : A -> option B) : option B :=
  match m with
  | Some a => f a
  | None => None
  end.

Notation "x <- m ;; k" := (bind m (fun x => k))
  (at level 61, m at next level, right associativity).

Fixpoint mapM {A B} (f : A -> option B) (l : list A) : option (list B) :=
  match l with
  | [] => Some []
  | a :: r => b <- f a ;; bs <- mapM f r ;; Some (b :: bs)
  end.

(** [max(xs)]; [ValueError] on an empty sequence. *)
Definition max_of (xs : list nat) : option nat :=
  match xs with
  | [] => None
  | x :: r => Some (fold_left Nat.max r x)
  end.

(** [l[i] = v] for [i] in range. *)
Fixpoint set_nth {A} (l : list A) (i : nat) (v : A) : list A :=
  match l, i with
  | [], _ => []
  | _ :: r, 0 => v :: r
  | a :: r, S i' => a :: set_nth r i' v
  end.

(** [r + [""] * (ncols - len(r))] *)
Definition pad_row (ncols : nat) (r : list str) : list str :=
  r ++ repeat [] (ncols - length r).

(** [(left, right)] of one delimiter cell. *)
Definition align_of (c : str) : bool * bool :=
  let cs := strip c in
  (startswith [":"] cs, endswith [":"] cs).

(** [for cidx, cell in enumerate(r): widths[cidx] = max(widths[cidx], len(cell))],
    from column [cidx] on. *)
Fixpoint widen (cidx : nat) (r : list str) (widths : list nat)
  : option (list nat) :=
  match r with
  | [] => Some widths
  | cell :: r' =>
      w <- nth_error widths cidx ;;
      widen (S cidx) r' (set_nth widths cidx (Nat.max w (length cell)))
  end.

(** The loop over [enumerate(rows)] that computes the widths, from row
    [ridx] on; row 1 is skipped. *)
Fixpoint widths_loop (ridx : nat) (rs : list (list str)) (widths : list nat)
  : option (list nat) :=
  match rs with
  | [] => Some widths
  | r :: rs' =>
      if ridx =? 1 then widths_loop (S ridx) rs' widths
      else widths' <- widen 0 r widths ;; widths_loop (S ridx) rs' widths'
  end.

(** One cell of the re-synthesised delimiter row. *)
Definition delimiter_core (left right : bool) (core_len : nat) : str :=
  let core := repeat "-" core_len in
  let core := if left then ":" :: drop_first core else core in
  let core := if right then drop_last core ++ [":"] else core in
  core.

(** ["| " + " | ".join(parts) + " |"] *)
Definition render (parts : list str) : str :=
  lit "| " ++ join (lit " | ") parts ++ lit " |".

Definition delimiter_parts (ncols : nat) (aligns : list (bool * bool))
  (widths : list nat) : option (list str) :=
  mapM (fun cidx =>
          a <- nth_error aligns cidx ;;
          core_len <- nth_error widths cidx ;;
          Some (delimiter_core (fst a) (snd a) core_len))
       (seq 0 ncols).

Definition row_parts (ncols : nat) (r : list str) (widths : list nat)
  : option (list str) :=
  mapM (fun cidx =>
          cell <- nth_error r cidx ;;
          w <- nth_error widths cidx ;;
          Some (ljust w cell))
       (seq 0 ncols).

(** The loop over [enumerate(rows)] that renders the lines, from row
    [ridx] on. *)
Fixpoint render_loop (ridx : nat) (rs : list (list str)) (ncols : nat)
  (aligns : list (bool * bool)) (widths : list nat) : option (list str) :=
  match rs with
  | [] => Some []
  | r :: rs' =>
      parts <- (if ridx =? 1 then delimiter_parts ncols aligns widths
                else row_parts ncols r widths) ;;
      out <- render_loop (S ridx) rs' ncols aligns widths ;;
      Some (render parts :: out)
  end.

Definition align_table (t : Table) : option (list str) :=
  ncols <- max_of (map (@length str) (rows t)) ;;
  let rows' := map (pad_row ncols) (rows t) in
  delim <- nth_error rows' 1 ;;
  let aligns := map align_of delim in
  widths <- widths_loop 0 rows' (repeat 0 ncols) ;;
  let widths := map (fun w => Nat.max w 3) widths in
  render_loop 0 rows' ncols aligns widths.

(** ** [process_file] *)

(** [lines[a:b]] *)
Definition slice {A} (lines : list A) (a b : nat) : list A :=
  firstn (b - a) (skipn a lines).

(** [lines[a:b] = new] *)
Definition splice {A} (lines : list A) (a b : nat) (new : list A) : list A :=
  firstn a lines ++ new ++ skipn (Nat.max a b) lines.

Definition lines_eqb (a b : list str) : bool :=
  if list_eq_dec (list_eq_dec ascii_dec) a b then true else false.

(** The body of the loop [for t in reversed(tables)], on the current
    [lines] and [changed]. *)
Definition process_table (acc : list str * bool) (t : Table)
  : option (list str * bool) :=
  let (lines, changed) := acc in
  if length (rows t) <? 2 then Some acc
  else
    ncols <- max_of (map (@length str) (rows t)) ;;
    if ncols <? 2 then Some acc
    else
      second <- nth_error lines (start t + 1) ;;
      if negb (is_delimiter_row second) then Some acc
      else
        aligned <- align_table t ;;
        if negb (lines_eqb (slice lines (start t) (end_ t + 1)) aligned)
        then Some (splice lines (start t) (end_ t + 1) aligned, true)
        else Some acc.

Fixpoint process_tables (ts : list Table) (acc : list str * bool)
  : option (list str * bool) :=
  match ts with
  | [] => Some acc
  | t :: ts' => acc' <- process_table acc t ;; process_tables ts' acc'
  end.

(** The part of [process_file] between reading and writing: the final
    [lines] and [changed]. *)
Definition align_document (original : list str) : option (list str * bool) :=
  let lines := original in
  let tables := find_tables lines in
  match tables with
  | [] => Some (lines, false)
  | _ => process_tables (rev tables) (lines, false)
  end.

(** What [process_file] does to a file that holds [original] (already
    split into lines): the text written back, if any, and the value
    returned. *)
Definition process_file (original : list str) : option (option str * bool) :=
  r <- align_document original ;;
  let (lines, changed) := r in
  if changed then Some (Some (join ["010"] lines ++ ["010"]), true)
  else Some (None, false).

Example align_document_ex1 :
  align_document [lit "|a|bb|"; lit "|---|:---:|"; lit "|1|22|"; lit "x|"]
  = Some ([lit "| a   | bb  |"; lit "| --- | :-: |"; lit "| 1   | 22  |";
           lit "| x   |     |"], true).
Proof. vm_compute. reflexivity. Qed.

(** ** The delimiter rule in the words of the specification *)

(** [core] is [c] after stripping one optional leading colon and one
    optional trailing colon. *)
Definition colon_stripped (c core : str) : Prop :=
  exists l r : bool,
    c = (if l then [":"] else []) ++ core ++ (if r then [":"] else []).

(** "three or more [-] characters with nothing else" *)
Definition dashes_only (core : str) : Prop :=
  exists n, 3 <= n /\ core = repeat "-" n.

(** The cell rule as stated: the colon-stripped cell is a dash run. *)
Definition spec_delimiter_cell (c : str) : Prop :=
  exists core, colon_stripped c core /\ dashes_only core.

(** The cell rule with the whitespace around the dash run ignored, as
    [is_delimiter_cell] does with [core.strip()]. *)
Definition lenient_delimiter_cell (c : str) : Prop :=
  exists core, colon_stripped c core /\ dashes_only (strip core).


(** ** Backtick runs *)

(** The lengths of the maximal backtick runs of [s], left to right. *)
Fixpoint tick_runs (s : str) : list nat :=
  match s with
  | [] => []
  | c :: r =>
      if Ascii.eqb c "`" then
        if startswith ["`"] r then
          match tick_runs r with
          | n :: ns => S n :: ns
          | [] => [1]
          end
        else 1 :: tick_runs r
      else tick_runs r
  end.


(** * Properties *)

(** ** One iteration of the loops *)

Lemma scan_loop_escape (st : ScanState) (rest : str) :
  scan_loop st ("\" :: "|" :: rest) = scan_loop (push st ["\"; "|"]) rest.
Proof. rewrite scan_loop_equation_2. reflexivity. Qed.

Lemma scan_loop_ticks (st : ScanState) (rest : str) :
  scan_loop st ("`" :: rest)
  = scan_loop (on_ticks st (S (tick_run rest))) (skipn (tick_run rest) rest).
Proof. rewrite scan_loop_equation_2. reflexivity. Qed.

Lemma scan_loop_pipe (st : ScanState) (rest : str) :
  scan_loop st ("|" :: rest)
  = if in_code st then scan_loop (push st ["|"]) rest
    else scan_loop (emit st) rest.
Proof.
  rewrite scan_loop_equation_2. unfold scan_iter.
  change (Ascii.eqb "|" "\") with false. change (Ascii.eqb "|" "`") with false.
  change (Ascii.eqb "|" "|") with true. cbn [andb].
  destruct (in_code st); reflexivity.
Qed.

Lemma scan_loop_other (st : ScanState) (ch : ascii) (rest : str) :
  Ascii.eqb ch "`" = false -> Ascii.eqb ch "|" = false ->
  Ascii.eqb ch "\" && startswith ["|"] rest = false ->
  scan_loop st (ch :: rest) = scan_loop (push st [ch]) rest.
Proof.
  intros H1 H2 H3. rewrite scan_loop_equation_2. unfold scan_iter.
  rewrite H3, H1, H2. reflexivity.
Qed.

Lemma find_tables_loop_cons (i : nat) (line : str) (after : list str)
  (st : FenceState) :
  find_tables_loop i (line :: after) st =
  if in_fence (toggle_fence st line) then
    find_tables_loop (S i) after (toggle_fence st line)
  else if contains "|" line && next_is_delimiter after then
    mkTable i (i + absorb (line :: after) - 1)
      (map split_row (firstn (absorb (line :: after)) (line :: after)))
    :: find_tables_loop (i + absorb (line :: after) - 1 + 1)
         (skipn (absorb (line :: after)) (line :: after))
         (toggle_fence st line)
  else find_tables_loop (S i) after (toggle_fence st line).
Proof.
  rewrite find_tables_loop_equation_2. unfold inspect.
  assert (forall b (e : in_fence (toggle_fence st line) = b),
    find_tables_loop_unfold_clause_2 i line after st (exist _ b e)
    = if b then find_tables_loop (S i) after (toggle_fence st line)
      else if contains "|" line && next_is_delimiter after then
        mkTable i (i + absorb (line :: after) - 1)
          (map split_row (firstn (absorb (line :: after)) (line :: after)))
        :: find_tables_loop (i + absorb (line :: after) - 1 + 1)
             (skipn (absorb (line :: after)) (line :: after))
             (toggle_fence st line)
      else find_tables_loop (S i) after (toggle_fence st line)) as H.
  { intros [] e; [reflexivity|]. simpl. unfold inspect.
    assert (forall b' (e' : contains "|" line && next_is_delimiter after = b'),
      find_tables_loop_unfold_clause_2_clause_2 i line after (exist _ b' e') st e
      = if b' then
          mkTable i (i + absorb (line :: after) - 1)
            (map split_row (firstn (absorb (line :: after)) (line :: after)))
          :: find_tables_loop (i + absorb (line :: after) - 1 + 1)
               (skipn (absorb (line :: after)) (line :: after))
               (toggle_fence st line)
        else find_tables_loop (S i) after (toggle_fence st line)) as H'.
    { intros [] e'; reflexivity. }
    apply H'. }
  apply H.
Qed.

(** ** The tokens of a row

    [lex] cuts a string into the units one iteration of [scan_loop]
    consumes: an escaped pipe, a maximal backtick run, a pipe, or any
    other character.  It is a proof device: [scan_loop_lex] shows that the
    loop is a left fold of [tok_step] over these tokens. *)

Inductive token :=
| TEsc
| TTicks (n : nat)
| TPipe
| TChar (c : ascii).

Definition lex_cons (c : ascii) (ts : list token) : list token :=
  if Ascii.eqb c "`" then
    match ts with
    | TTicks n :: ts' => TTicks (S n) :: ts'
    | _ => TTicks 1 :: ts
    end
  else if Ascii.eqb c "|" then TPipe :: ts
  else if Ascii.eqb c "\" then
    match ts with
    | TPipe :: ts' => TEsc :: ts'
    | _ => TChar c :: ts
    end
  else TChar c :: ts.

Fixpoint lex (s : str) : list token :=
  match s with
  | [] => []
  | c :: r => lex_cons c (lex r)
  end.

Definition tok_text (t : token) : str :=
  match t with
  | TEsc => ["\"; "|"]
  | TTicks n => repeat "`" n
  | TPipe => ["|"]
  | TChar c => [c]
  end.

Definition flatten (ts : list token) : str := concat (map tok_text ts).

Definition tok_step (st : ScanState) (t : token) : ScanState :=
  match t with
  | TEsc => push st ["\"; "|"]
  | TTicks n => on_ticks st n
  | TPipe => if in_code st then push st ["|"] else emit st
  | TChar c => push st [c]
  end.

Lemma lex_pipe_head (r : str) :
  startswith ["|"] r = true -> lex r = TPipe :: lex (tl r).
Proof.
  destruct r as [|c r]; simpl; [discriminate|].
  rewrite andb_true_r. intros H. apply Ascii.eqb_eq in H. subst c. reflexivity.
Qed.

Lemma lex_not_pipe_head (r : str) :
  startswith ["|"] r = false ->
  match lex r with TPipe :: _ => False | _ => True end.
Proof.
  destruct r as [|c r]; simpl; [trivial|].
  rewrite andb_true_r. intros H.
  rewrite Ascii.eqb_sym in H. unfold lex_cons.
  destruct (Ascii.eqb c "`").
  - destruct (lex r) as [|[] ?]; trivial.
  - rewrite H. destruct (Ascii.eqb c "\"); [|trivial].
    destruct (lex r) as [|[] ?]; trivial.
Qed.

Lemma lex_not_tick_head (r : str) :
  startswith ["`"] r = false ->
  match lex r with TTicks _ :: _ => False | _ => True end.
Proof.
  destruct r as [|c r]; simpl; [trivial|].
  rewrite andb_true_r. intros H.
  rewrite Ascii.eqb_sym in H. unfold lex_cons. rewrite H.
  destruct (Ascii.eqb c "|"); [trivial|].
  destruct (Ascii.eqb c "\"); [|trivial].
  destruct (lex r) as [|[] ?]; trivial.
Qed.

Lemma tick_run_zero (r : str) : startswith ["`"] r = false -> tick_run r = 0.
Proof.
  destruct r as [|c r]; simpl; [reflexivity|].
  rewrite andb_true_r, Ascii.eqb_sym. intros ->. reflexivity.
Qed.

Lemma startswith_skipn_tick_run (r : str) :
  startswith ["`"] (skipn (tick_run r) r) = false.
Proof.
  induction r as [|c r IH]; simpl; [reflexivity|].
  destruct (Ascii.eqb c "`") eqn:E; simpl; [exact IH|].
  rewrite andb_true_r, Ascii.eqb_sym. exact E.
Qed.

Lemma lex_ticks (rest : str) :
  lex ("`" :: rest)
  = TTicks (S (tick_run rest)) :: lex (skipn (tick_run rest) rest).
Proof.
  induction rest as [|d r IH].
  - reflexivity.
  - change (lex ("`" :: d :: r))
      with (match lex (d :: r) with
            | TTicks n :: ts => TTicks (S n) :: ts
            | _ => TTicks 1 :: lex (d :: r)
            end).
    simpl tick_run. destruct (Ascii.eqb d "`") eqn:E.
    + apply Ascii.eqb_eq in E. subst d. rewrite IH. reflexivity.
    + simpl skipn.
      assert (startswith ["`"] (d :: r) = false) as Hs.
      { simpl. rewrite andb_true_r, Ascii.eqb_sym. exact E. }
      pose proof (lex_not_tick_head _ Hs) as Hh.
      destruct (lex (d :: r)) as [|[] ?]; try reflexivity. contradiction.
Qed.

Lemma lex_other (c : ascii) (rest : str) :
  Ascii.eqb c "`" = false -> Ascii.eqb c "|" = false ->
  Ascii.eqb c "\" && startswith ["|"] rest = false ->
  lex (c :: rest) = TChar c :: lex rest.
Proof.
  intros H1 H2 H3. simpl. unfold lex_cons. rewrite H1, H2.
  destruct (Ascii.eqb c "\"); [|reflexivity].
  simpl in H3. pose proof (lex_not_pipe_head _ H3) as Hh.
  destruct (lex rest) as [|[] ?]; try reflexivity. contradiction.
Qed.

(** An induction principle that follows the four branches of the loop of
    [split_row]. *)
Lemma scan_ind (P : str -> Prop) :
  P [] ->
  (forall r, P r -> P ("\" :: "|" :: r)) ->
  (forall rest, P (skipn (tick_run rest) rest) -> P ("`" :: rest)) ->
  (forall r, P r -> P ("|" :: r)) ->
  (forall c r, Ascii.eqb c "`" = false -> Ascii.eqb c "|" = false ->
               Ascii.eqb c "\" && startswith ["|"] r = false ->
               P r -> P (c :: r)) ->
  forall s, P s.
Proof.
  intros Hnil Hesc Htick Hpipe Hother s.
  induction s as [s IH] using (well_founded_induction
                                 (Wf_nat.well_founded_ltof _ (@length ascii))).
  unfold Wf_nat.ltof in IH.
  destruct s as [|c r]; [exact Hnil|].
  destruct (Ascii.eqb c "\" && startswith ["|"] r) eqn:E1.
  - apply andb_prop in E1. destruct E1 as [Ec Er].
    apply Ascii.eqb_eq in Ec. subst c.
    destruct r as [|d r]; [discriminate|].
    simpl in Er. rewrite andb_true_r in Er. apply Ascii.eqb_eq in Er. subst d.
    apply Hesc. apply IH. simpl. lia.
  - destruct (Ascii.eqb c "`") eqn:E2.
    + apply Ascii.eqb_eq in E2. subst c. apply Htick. apply IH.
      pose proof (skipn_tick_run_length r). simpl. lia.
    + destruct (Ascii.eqb c "|") eqn:E3.
      * apply Ascii.eqb_eq in E3. subst c. apply Hpipe. apply IH. simpl. lia.
      * apply Hother; auto.
Qed.

Lemma scan_loop_lex (s : str) :
  forall st, scan_loop st s = fold_left tok_step (lex s) st.
Proof.
  induction s as [|r IH|rest IH|r IH|c r H1 H2 H3 IH] using scan_ind; intros st.
  - rewrite scan_loop_equation_1. reflexivity.
  - rewrite scan_loop_escape, IH. reflexivity.
  - rewrite scan_loop_ticks, IH, lex_ticks. reflexivity.
  - rewrite scan_loop_pipe. simpl. destruct (in_code st); apply IH.
  - rewrite scan_loop_other, IH, lex_other by assumption. reflexivity.
Qed.

Lemma flatten_app (a b : list token) : flatten (a ++ b) = flatten a ++ flatten b.
Proof. unfold flatten. rewrite map_app, concat_app. reflexivity. Qed.

Lemma firstn_tick_run (r : str) : firstn (tick_run r) r = repeat "`" (tick_run r).
Proof.
  induction r as [|c r IH]; simpl; [reflexivity|].
  destruct (Ascii.eqb c "`") eqn:E; simpl; [|reflexivity].
  apply Ascii.eqb_eq in E. subst c. now rewrite IH.
Qed.

Lemma flatten_lex (s : str) : flatten (lex s) = s.
Proof.
  induction s as [|r IH|rest IH|r IH|c r H1 H2 H3 IH] using scan_ind.
  - reflexivity.
  - change (lex ("\" :: "|" :: r)) with (TEsc :: lex r).
    unfold flatten in *. simpl. now rewrite IH.
  - rewrite lex_ticks. unfold flatten in *. simpl. rewrite IH.
    rewrite <- firstn_tick_run. f_equal. apply firstn_skipn.
  - unfold flatten in *. simpl. now rewrite IH.
  - rewrite lex_other by assumption. unfold flatten in *. simpl. now rewrite IH.
Qed.

(** ** Cells are trimmed; a row without pipes has one cell *)

Lemma tok_step_cells_trimmed (st : ScanState) (t : token) :
  Forall trimmed (cells st) -> Forall trimmed (cells (tok_step st t)).
Proof.
  intros H. destruct t; simpl; try exact H.
  - unfold on_ticks. destruct (negb (in_code st)); [exact H|].
    destruct (code_tick_len st) as [m|]; [|exact H].
    destruct (m =? n); exact H.
  - destruct (in_code st); [exact H|]. simpl.
    apply Forall_app. split; [exact H|].
    constructor; [apply trimmed_strip | constructor].
Qed.

Lemma fold_tok_step_cells_trimmed (ts : list token) :
  forall st, Forall trimmed (cells st) ->
             Forall trimmed (cells (fold_left tok_step ts st)).
Proof.
  induction ts as [|t ts IH]; intros st H; [exact H|].
  simpl. apply IH. now apply tok_step_cells_trimmed.
Qed.

Lemma split_row_trimmed (line : str) : Forall trimmed (split_row line).
Proof.
  unfold split_row. simpl. apply Forall_app. split.
  - rewrite scan_loop_lex. apply fold_tok_step_cells_trimmed. constructor.
  - constructor; [apply trimmed_strip | constructor].
Qed.

Lemma scan_loop_no_pipe (s : str) :
  forall st, contains "|" s = false -> cells (scan_loop st s) = cells st.
Proof.
  induction s as [|r IH|rest IH|r IH|c r H1 H2 H3 IH] using scan_ind;
    intros st Hc.
  - rewrite scan_loop_equation_1. reflexivity.
  - discriminate.
  - rewrite scan_loop_ticks, IH.
    + unfold on_ticks. destruct (negb (in_code st)); [reflexivity|].
      destruct (code_tick_len st) as [m|]; [|reflexivity].
      destruct (m =? S (tick_run rest)); reflexivity.
    + rewrite <- (firstn_skipn (tick_run rest) rest) in Hc.
      simpl in Hc. rewrite contains_app in Hc.
      apply orb_false_elim in Hc. apply Hc.
  - discriminate.
  - rewrite scan_loop_other by assumption. rewrite IH; [reflexivity|].
    simpl in Hc. apply orb_false_elim in Hc. apply Hc.
Qed.

Lemma contains_tl (c : ascii) (s : str) :
  contains c (tl s) = true -> contains c s = true.
Proof.
  destruct s as [|a s]; simpl; [trivial|]. intros ->. apply orb_true_r.
Qed.

Lemma contains_removelast (c : ascii) (s : str) :
  contains c (removelast s) = true -> contains c s = true.
Proof.
  induction s as [|a s IH]; [trivial|].
  destruct s as [|b s]; [discriminate|].
  change (removelast (a :: b :: s)) with (a :: removelast (b :: s)).
  change (contains c (a :: removelast (b :: s)))
    with (Ascii.eqb c a || contains c (removelast (b :: s))).
  change (contains c (a :: b :: s))
    with (Ascii.eqb c a || contains c (b :: s)).
  destruct (Ascii.eqb c a); [trivial|]. exact IH.
Qed.

Lemma contains_row_body (line : str) :
  contains "|" (row_body line) = true -> contains "|" line = true.
Proof.
  unfold row_body, drop_first, drop_last. intros H.
  rewrite <- (contains_strip "|" line eq_refl).
  destruct (startswith ["|"] (strip line));
    match type of H with
    | context [if ?b then _ else _] => destruct b
    end;
    repeat (first [apply contains_removelast in H | apply contains_tl in H]);
    exact H.
Qed.

Lemma split_row_length_pos (line : str) : 1 <= length (split_row line).
Proof. unfold split_row. simpl. rewrite length_app. simpl. lia. Qed.

Lemma split_row_two_cells_pipe (line : str) :
  2 <= length (split_row line) -> contains "|" line = true.
Proof.
  intros H. apply contains_row_body.
  destruct (contains "|" (row_body line)) eqn:E; [reflexivity|].
  unfold split_row in H. simpl in H.
  rewrite length_app, (scan_loop_no_pipe _ scan_init E) in H. simpl in H. lia.
Qed.

(** ** Delimiter cells *)

Lemma startswith_one (a : ascii) (s : str) :
  startswith [a] s = true <-> exists r, s = a :: r.
Proof.
  destruct s as [|b s]; simpl.
  - split; [discriminate | intros [r H]; discriminate].
  - rewrite andb_true_r. split.
    + intros H. apply Ascii.eqb_eq in H. subst b. eauto.
    + intros [r H]. injection H as -> _. apply Ascii.eqb_refl.
Qed.

Lemma endswith_snoc (a b : ascii) (x : str) :
  endswith [a] (x ++ [b]) = Ascii.eqb a b.
Proof.
  unfold endswith. rewrite rev_app_distr. simpl. apply andb_true_r.
Qed.

Lemma endswith_one (a : ascii) (s : str) :
  endswith [a] s = true <-> exists r, s = r ++ [a].
Proof.
  destruct (list_eq_dec ascii_dec s []) as [->|Hne].
  - split; [discriminate | intros [r H]; destruct r; discriminate].
  - destruct (exists_last Hne) as [x [b ->]]. rewrite endswith_snoc. split.
    + intros H. apply Ascii.eqb_eq in H. subst b. eauto.
    + intros [r H]. apply app_inj_tail in H. destruct H as [_ ->].
      apply Ascii.eqb_refl.
Qed.

Lemma forallb_eqb_repeat (a : ascii) (s : str) :
  forallb (fun ch => Ascii.eqb ch a) s = true -> s = repeat a (length s).
Proof.
  induction s as [|c s IH]; simpl; [reflexivity|]. intros H.
  apply andb_prop in H. destruct H as [Hc Hs].
  apply Ascii.eqb_eq in Hc. subst c. f_equal. auto.
Qed.

Lemma forallb_repeat_eqb (a : ascii) (n : nat) :
  forallb (fun ch => Ascii.eqb ch a) (repeat a n) = true.
Proof. induction n; simpl; [reflexivity|]. now rewrite Ascii.eqb_refl. Qed.

Lemma trimmed_no_trailing (x ws : str) :
  trimmed (x ++ ws) -> forallb is_space ws = true -> ws = [].
Proof.
  intros Ht Hws. pose proof (trimmed_rstrip _ Ht) as H.
  rewrite rstrip_spaces in H by exact Hws.
  destruct (rstrip_split x) as [ws' [_ E]].
  apply (f_equal (@length _)) in H, E. rewrite length_app in H, E.
  destruct ws; [reflexivity|]. simpl in H. lia.
Qed.

Lemma trimmed_no_leading (ws x : str) :
  trimmed (ws ++ x) -> forallb is_space ws = true -> ws = [].
Proof.
  intros Ht Hws. pose proof (trimmed_lstrip _ Ht) as H.
  rewrite lstrip_spaces in H by exact Hws.
  destruct (lstrip_split x) as [ws' [_ E]].
  apply (f_equal (@length _)) in H, E. rewrite length_app in H, E.
  destruct ws; [reflexivity|]. simpl in H. lia.
Qed.

Lemma is_delimiter_cell_unfold (c : str) :
  c <> [] ->
  is_delimiter_cell c =
  let c := strip c in
  let core :=
    if startswith [":"] c && endswith [":"] c then drop_last (drop_first c)
    else if startswith [":"] c then drop_first c
    else if endswith [":"] c then drop_last c
    else c in
  (3 <=? length (strip core))
  && forallb (fun ch => Ascii.eqb ch "-") (strip core).
Proof. destruct c; [congruence | reflexivity]. Qed.

Lemma is_delimiter_cell_lenient (c : str) :
  trimmed c -> is_delimiter_cell c = true -> lenient_delimiter_cell c.
Proof.
  intros Ht. destruct (list_eq_dec ascii_dec c []) as [->|Hne]; [discriminate|].
  rewrite (is_delimiter_cell_unfold c Hne). cbv zeta. rewrite Ht.
  intros H. apply andb_prop in H. destruct H as [Hlen Hall].
  apply Nat.leb_le in Hlen. apply forallb_eqb_repeat in Hall.
  match type of Hall with strip ?k = _ => set (core := k) in * end.
  exists core. split; [|exists (length (strip core)); auto].
  subst core.
  destruct (startswith [":"] c) eqn:El; destruct (endswith [":"] c) eqn:Er;
    cbn [andb] in *.
  - apply startswith_one in El. destruct El as [r El].
    apply endswith_one in Er. destruct Er as [r' Er].
    rewrite El in *. unfold drop_first, drop_last in *. simpl tl in *.
    destruct r' as [|b r'].
    + injection Er as Hr0. subst r. simpl in Hlen. lia.
    + injection Er as Hb Hr0. subst b r. rewrite removelast_last in *.
      exists true, true. reflexivity.
  - apply startswith_one in El. destruct El as [r El]. rewrite El.
    exists true, false. simpl. now rewrite app_nil_r.
  - apply endswith_one in Er. destruct Er as [r' Er]. rewrite Er.
    unfold drop_last. rewrite removelast_last. exists false, true. reflexivity.
  - exists false, false. simpl. now rewrite app_nil_r.
Qed.

Lemma lenient_is_delimiter_cell (c : str) :
  trimmed c -> lenient_delimiter_cell c -> is_delimiter_cell c = true.
Proof.
  intros Ht [core [[l [r Hc]] [n [Hn Hcore]]]].
  destruct (strip_split core) as [ws1 [ws2 [H1 [H2 Esplit]]]].
  rewrite Hcore in Esplit.
  destruct n as [|n]; [lia|].
  assert (c <> []) as Hne.
  { rewrite Hc, Esplit. destruct l; [discriminate|].
    destruct ws1; discriminate. }
  assert (startswith [":"] c = l) as Hl.
  { destruct l.
    - rewrite Hc. reflexivity.
    - rewrite Hc, Esplit in Ht. simpl in Ht. rewrite <- app_assoc in Ht.
      apply trimmed_no_leading in Ht; [|exact H1]. subst ws1.
      rewrite Hc, Esplit. reflexivity. }
  assert (endswith [":"] c = r) as Hr.
  { destruct r.
    - rewrite Hc, app_assoc. rewrite endswith_snoc. reflexivity.
    - rewrite Hc, Esplit, app_nil_r in Ht. rewrite !app_assoc in Ht.
      apply trimmed_no_trailing in Ht; [|exact H2]. subst ws2.
      rewrite Hc, Esplit, !app_nil_r. simpl repeat. rewrite repeat_cons.
      rewrite !app_assoc. rewrite endswith_snoc. reflexivity. }
  rewrite (is_delimiter_cell_unfold c Hne). cbv zeta.
  rewrite Ht, Hl, Hr.
  assert ((if l && r then drop_last (drop_first c)
           else if l then drop_first c
                else if r then drop_last c else c) = core) as ->.
  { rewrite Hc. unfold drop_last, drop_first.
    destruct l, r; simpl.
    - apply removelast_last.
    - apply app_nil_r.
    - apply removelast_last.
    - apply app_nil_r. }
  rewrite Hcore, repeat_length, forallb_repeat_eqb, andb_true_r.
  apply Nat.leb_le. exact Hn.
Qed.

Lemma is_delimiter_cell_iff (c : str) :
  trimmed c -> (is_delimiter_cell c = true <-> lenient_delimiter_cell c).
Proof.
  intros Ht. split.
  - now apply is_delimiter_cell_lenient.
  - now apply lenient_is_delimiter_cell.
Qed.

(** C3, as amended.  A line is classified as a delimiter row if and only
    if its tokenized row has at least 2 cells and every cell, after
    stripping one optional leading colon and one optional trailing colon
    and then the whitespace around what is left, consists of three or more
    [-] characters and nothing else. *)
Theorem delimiter_row_iff_lenient (line : str) :
  is_delimiter_row line = true <->
  2 <= length (split_row line)
  /\ Forall lenient_delimiter_cell (split_row line).
Proof.
  unfold is_delimiter_row. split.
  - destruct (negb (contains "|" line)); [discriminate|].
    intros H. apply andb_prop in H. destruct H as [Hlen Hall].
    apply Nat.leb_le in Hlen. split; [exact Hlen|].
    rewrite forallb_forall in Hall. apply Forall_forall. intros c Hin.
    apply is_delimiter_cell_iff; [|now apply Hall].
    pose proof (split_row_trimmed line) as Htr.
    rewrite Forall_forall in Htr. now apply Htr.
  - intros [Hlen Hall].
    rewrite (split_row_two_cells_pipe line Hlen). cbn [negb].
    apply andb_true_intro. split; [now apply Nat.leb_le|].
    apply forallb_forall. intros c Hin.
    apply is_delimiter_cell_iff.
    + pose proof (split_row_trimmed line) as Htr.
      rewrite Forall_forall in Htr. now apply Htr.
    + rewrite Forall_forall in Hall. now apply Hall.
Qed.

(** C3, counterexample.  The row [|: --- :|---|] is classified as a
    delimiter row although its first cell has whitespace between the
    colons and the dash run. *)
Lemma delimiter_row_interior_space :
  is_delimiter_row (lit "|: --- :|---|") = true
  /\ ~ (2 <= length (split_row (lit "|: --- :|---|"))
        /\ Forall spec_delimiter_cell (split_row (lit "|: --- :|---|"))).
Proof.
  split; [vm_compute; reflexivity|].
  intros [_ H]. vm_compute in H. inversion H as [|? ? Hc _]. subst.
  destruct Hc as [core [[l [r Hc]] [n [Hn Hcore]]]]. subst core.
  destruct n as [|[|[|n]]]; try lia.
  destruct l, r; simpl in Hc; discriminate.
Qed.

(** ** The scenario of the specification *)

(** C2, counterexample.  On the three lines [|a|bb|], [|-|-|], [|1|22|]
    the aligner does not produce the three aligned lines. *)
Lemma scenario_single_dash_not_aligned :
  align_document [lit "|a|bb|"; lit "|-|-|"; lit "|1|22|"]
  <> Some ([lit "| a   | bb  |"; lit "| --- | --- |"; lit "| 1   | 22  |"],
           true).
Proof. vm_compute. discriminate. Qed.

(** C2, as amended.  The second line [|-|-|] is not a delimiter row (its
    cells have fewer than three dashes), so no table is found and the
    three lines are returned unchanged; with the delimiter line
    [|---|---|] the aligner produces exactly [| a   | bb  |],
    [| --- | --- |], [| 1   | 22  |]. *)
Theorem scenario_three_dashes_aligned :
  is_delimiter_row (lit "|-|-|") = false
  /\ find_tables [lit "|a|bb|"; lit "|-|-|"; lit "|1|22|"] = []
  /\ align_document [lit "|a|bb|"; lit "|-|-|"; lit "|1|22|"]
     = Some ([lit "|a|bb|"; lit "|-|-|"; lit "|1|22|"], false)
  /\ align_document [lit "|a|bb|"; lit "|---|---|"; lit "|1|22|"]
     = Some ([lit "| a   | bb  |"; lit "| --- | --- |"; lit "| 1   | 22  |"],
             true).
Proof. repeat split; vm_compute; reflexivity. Qed.

(** ** Escaped pipes *)

(** C6, the failing input.  A row that ends in an escaped pipe loses it:
    [split_row] strips the final [|] as the closing pipe of the row before
    the scan sees the backslash, and the aligned line has [\ ] followed by
    a pipe where the input had the escape. *)
Theorem trailing_escaped_pipe_lost :
  split_row (lit "|a|b\|") = [lit "a"; lit "b\"]
  /\ align_document [lit "|a|b\|"; lit "|---|---|"]
     = Some ([lit "| a   | b\  |"; lit "| --- | --- |"], true).
Proof. split; vm_compute; reflexivity. Qed.

(** ** Scanning a concatenation *)

(** [a ++ b] is scanned as [a] and then [b] unless a token straddles the
    seam: a backslash before a pipe, or a backtick run on both sides. *)
Definition boundary_ok (a b : str) : bool :=
  negb (endswith ["\"] a && startswith ["|"] b)
  && negb (endswith ["`"] a && startswith ["`"] b).

Lemma endswith_cons (p : ascii) (c d : ascii) (a : str) :
  endswith [p] (c :: d :: a) = endswith [p] (d :: a).
Proof.
  destruct (exists_last (l := d :: a)) as [x [e E]]; [discriminate|].
  rewrite E. rewrite app_comm_cons. now rewrite !endswith_snoc.
Qed.

Lemma boundary_ok_cons (c d : ascii) (a b : str) :
  boundary_ok (c :: d :: a) b = boundary_ok (d :: a) b.
Proof. unfold boundary_ok. now rewrite !endswith_cons. Qed.

Lemma boundary_ok_nil_l (b : str) : boundary_ok [] b = true.
Proof. reflexivity. Qed.

Lemma lex_nonempty (c : ascii) (r : str) : lex (c :: r) <> [].
Proof.
  simpl. unfold lex_cons. destruct (Ascii.eqb c "`").
  - destruct (lex r) as [|[] ?]; discriminate.
  - destruct (Ascii.eqb c "|"); [discriminate|].
    destruct (Ascii.eqb c "\"); [|discriminate].
    destruct (lex r) as [|[] ?]; discriminate.
Qed.

Lemma lex_app (a b : str) :
  boundary_ok a b = true -> lex (a ++ b) = lex a ++ lex b.
Proof.
  induction a as [|c a IH]; intros Hb; [reflexivity|].
  destruct a as [|d a].
  - unfold boundary_ok in Hb. change ([c] ++ b) with (c :: b).
    change (endswith ["\"] [c]) with (Ascii.eqb "\" c && true) in Hb.
    change (endswith ["`"] [c]) with (Ascii.eqb "`" c && true) in Hb.
    rewrite !andb_true_r in Hb. rewrite !(Ascii.eqb_sym _ c) in Hb.
    apply andb_prop in Hb. destruct Hb as [Hb1 Hb2].
    apply negb_true_iff in Hb1, Hb2.
    destruct (Ascii.eqb c "`") eqn:Et.
    + apply Ascii.eqb_eq in Et. subst c. simpl in Hb2.
      rewrite lex_ticks, (tick_run_zero b Hb2). reflexivity.
    + destruct (Ascii.eqb c "|") eqn:Ep.
      * apply Ascii.eqb_eq in Ep. subst c. reflexivity.
      * rewrite (lex_other c b Et Ep Hb1).
        rewrite (lex_other c [] Et Ep); [reflexivity|].
        apply andb_false_r.
  - rewrite boundary_ok_cons in Hb. specialize (IH Hb).
    change ((c :: d :: a) ++ b) with (c :: (d :: a) ++ b).
    pose proof (lex_nonempty d a) as Hne.
    change (lex (c :: (d :: a) ++ b)) with (lex_cons c (lex ((d :: a) ++ b))).
    change (lex (c :: d :: a)) with (lex_cons c (lex (d :: a))).
    rewrite IH. unfold lex_cons.
    destruct (lex (d :: a)) as [|t ts]; [congruence|].
    destruct (Ascii.eqb c "`"); [destruct t; reflexivity|].
    destruct (Ascii.eqb c "|"); [reflexivity|].
    destruct (Ascii.eqb c "\"); [destruct t; reflexivity | reflexivity].
Qed.

Lemma scan_loop_app (a b : str) (st : ScanState) :
  boundary_ok a b = true ->
  scan_loop st (a ++ b) = scan_loop (scan_loop st a) b.
Proof.
  intros Hb. rewrite !scan_loop_lex, (lex_app a b Hb). apply fold_left_app.
Qed.

Lemma push_push (st : ScanState) (a b : str) :
  push (push st a) b = push st (a ++ b).
Proof. unfold push. simpl. now rewrite app_assoc. Qed.

Lemma push_nil (st : ScanState) : push st [] = st.
Proof. destruct st. unfold push. simpl. now rewrite app_nil_r. Qed.

Lemma tick_runs_ticks (rest : str) :
  tick_runs ("`" :: rest)
  = S (tick_run rest) :: tick_runs (skipn (tick_run rest) rest).
Proof.
  induction rest as [|d r IH]; [reflexivity|].
  change (tick_runs ("`" :: d :: r))
    with (if startswith ["`"] (d :: r)
          then match tick_runs (d :: r) with
               | n :: ns => S n :: ns
               | [] => [1]
               end
          else 1 :: tick_runs (d :: r)).
  simpl startswith. rewrite andb_true_r, Ascii.eqb_sym.
  simpl tick_run. destruct (Ascii.eqb d "`") eqn:E.
  - apply Ascii.eqb_eq in E. subst d. rewrite IH. reflexivity.
  - reflexivity.
Qed.

Lemma tick_runs_other (c : ascii) (r : str) :
  Ascii.eqb c "`" = false -> tick_runs (c :: r) = tick_runs r.
Proof. intros H. simpl. now rewrite H. Qed.

Lemma ticks_split (rest : str) :
  "`" :: rest
  = repeat "`" (S (tick_run rest)) ++ skipn (tick_run rest) rest.
Proof.
  simpl. f_equal. rewrite <- firstn_tick_run. symmetry. apply firstn_skipn.
Qed.

(** A span that is never closed swallows the rest of the row. *)
Lemma scan_loop_unterminated (s : str) :
  forall st m,
    in_code st = true -> code_tick_len st = Some m ->
    ~ In m (tick_runs s) ->
    scan_loop st s = push st s.
Proof.
  induction s as [|r IH|rest IH|r IH|c r H1 H2 H3 IH] using scan_ind;
    intros st m Hin Hm Hruns.
  - rewrite scan_loop_equation_1, push_nil. reflexivity.
  - rewrite scan_loop_escape.
    rewrite (IH _ m); try assumption. apply (push_push st ["\"; "|"] r).
  - rewrite tick_runs_ticks in Hruns.
    assert (on_ticks st (S (tick_run rest))
            = push st (repeat "`" (S (tick_run rest)))) as E.
    { unfold on_ticks, push. rewrite Hin, Hm. simpl negb. cbv iota.
      destruct (m =? S (tick_run rest)) eqn:Em; [|reflexivity].
      apply Nat.eqb_eq in Em. exfalso. apply Hruns. left. auto. }
    rewrite scan_loop_ticks, E.
    rewrite (IH _ m); try assumption.
    + rewrite push_push, <- ticks_split. reflexivity.
    + intros Hx. apply Hruns. right. exact Hx.
  - rewrite scan_loop_pipe, Hin.
    rewrite (IH _ m); try assumption. apply (push_push st ["|"] r).
  - rewrite scan_loop_other by assumption.
    rewrite (tick_runs_other c r H1) in Hruns.
    rewrite (IH _ m); try assumption. apply (push_push st [c] r).
Qed.

(** ** What [align_table] computes

    The loops of [align_table] index into lists that all have [ncols]
    elements, so no index is out of range and the result is given by the
    list functions below. *)

Definition ncols_of (rs : list (list str)) : nat :=
  match rs with
  | [] => 0
  | r :: rs' => fold_left Nat.max (map (@length str) rs') (length r)
  end.

Fixpoint widen_pure (widths : list nat) (r : list str) : list nat :=
  match widths, r with
  | w :: ws, cell :: r' => Nat.max w (length cell) :: widen_pure ws r'
  | ws, _ => ws
  end.

Fixpoint widths_pure (ridx : nat) (rs : list (list str)) (widths : list nat)
  : list nat :=
  match rs with
  | [] => widths
  | r :: rs' =>
      if ridx =? 1 then widths_pure (S ridx) rs' widths
      else widths_pure (S ridx) rs' (widen_pure widths r)
  end.

Definition delimiter_cells (aligns : list (bool * bool)) (widths : list nat)
  : list str :=
  map (fun p => delimiter_core (fst (fst p)) (snd (fst p)) (snd p))
      (combine aligns widths).

Definition padded_cells (r : list str) (widths : list nat) : list str :=
  map (fun p => ljust (snd p) (fst p)) (combine r widths).

Fixpoint render_pure (ridx : nat) (rs : list (list str))
  (aligns : list (bool * bool)) (widths : list nat) : list str :=
  match rs with
  | [] => []
  | r :: rs' =>
      render (if ridx =? 1 then delimiter_cells aligns widths
              else padded_cells r widths)
      :: render_pure (S ridx) rs' aligns widths
  end.

Definition table_widths (rs : list (list str)) : list nat :=
  let ncols := ncols_of rs in
  map (fun w => Nat.max w 3)
      (widths_pure 0 (map (pad_row ncols) rs) (repeat 0 ncols)).

Definition table_aligns (rs : list (list str)) : list (bool * bool) :=
  map align_of (nth 1 (map (pad_row (ncols_of rs)) rs) []).

Definition aligned_lines (rs : list (list str)) : list str :=
  render_pure 0 (map (pad_row (ncols_of rs)) rs)
    (table_aligns rs) (table_widths rs).

Lemma mapM_ext {A B} (f g : A -> option B) (l : list A) :
  (forall a, In a l -> f a = g a) -> mapM f l = mapM g l.
Proof.
  induction l as [|a l IH]; intros H; [reflexivity|].
  simpl. rewrite (H a (or_introl eq_refl)), IH; [reflexivity|].
  intros x Hx. apply H. now right.
Qed.

Lemma mapM_map {A B C} (f : B -> option C) (g : A -> B) (l : list A) :
  mapM f (map g l) = mapM (fun a => f (g a)) l.
Proof. induction l as [|a l IH]; simpl; [reflexivity|]. now rewrite IH. Qed.

Lemma mapM_seq_combine {A B C} (f : A -> B -> C) (l1 : list A) :
  forall (l2 : list B) (n : nat),
    length l1 = n -> length l2 = n ->
    mapM (fun i => a <- nth_error l1 i ;; b <- nth_error l2 i ;; Some (f a b))
         (seq 0 n)
    = Some (map (fun p => f (fst p) (snd p)) (combine l1 l2)).
Proof.
  induction l1 as [|a l1 IH]; intros l2 n H1 H2.
  - simpl in H1. subst n. reflexivity.
  - destruct l2 as [|b l2]; simpl in H1, H2; [subst n; discriminate|].
    destruct n as [|n]; [discriminate|].
    injection H1 as H1. injection H2 as H2.
    simpl seq. rewrite <- seq_shift. simpl mapM.
    rewrite mapM_map. simpl. rewrite (IH l2 n H1 H2). reflexivity.
Qed.

Lemma length_pad_row (ncols : nat) (r : list str) :
  length r <= ncols -> length (pad_row ncols r) = ncols.
Proof. intros H. unfold pad_row. rewrite length_app, repeat_length. lia. Qed.

Lemma fold_left_max_le (l : list nat) :
  forall a, a <= fold_left Nat.max l a
            /\ Forall (fun x => x <= fold_left Nat.max l a) l.
Proof.
  induction l as [|x l IH]; intros a; simpl.
  - split; [lia | constructor].
  - destruct (IH (Nat.max a x)) as [H1 H2]. split; [lia|].
    constructor; [lia | exact H2].
Qed.

Lemma ncols_of_le (rs : list (list str)) (r : list str) :
  In r rs -> length r <= ncols_of rs.
Proof.
  destruct rs as [|r0 rs]; [contradiction|]. simpl.
  destruct (fold_left_max_le (map (@length str) rs) (length r0)) as [H1 H2].
  intros [<-|Hin]; [exact H1|].
  rewrite Forall_forall in H2. apply H2. now apply in_map.
Qed.

Lemma max_of_ncols (rs : list (list str)) :
  rs <> [] -> max_of (map (@length str) rs) = Some (ncols_of rs).
Proof. destruct rs; [congruence | reflexivity]. Qed.

Lemma padded_rows_length (rs : list (list str)) :
  Forall (fun r => length r = ncols_of rs) (map (pad_row (ncols_of rs)) rs).
Proof.
  apply Forall_forall. intros r Hin. apply in_map_iff in Hin.
  destruct Hin as [r0 [<- Hin]]. apply length_pad_row. now apply ncols_of_le.
Qed.

Lemma length_set_nth {A} (l : list A) (i : nat) (v : A) :
  length (set_nth l i v) = length l.
Proof.
  revert i. induction l as [|a l IH]; intros [|i]; simpl; auto.
Qed.

Lemma widen_eq (r : list str) :
  forall (pre widths : list nat),
    length r <= length widths ->
    widen (length pre) r (pre ++ widths) = Some (pre ++ widen_pure widths r).
Proof.
  induction r as [|cell r IH]; intros pre widths H.
  - simpl. destruct widths; reflexivity.
  - destruct widths as [|w ws]; simpl in H; [lia|].
    simpl widen. rewrite nth_error_app2 by lia. rewrite Nat.sub_diag. simpl.
    assert (set_nth (pre ++ w :: ws) (length pre) (Nat.max w (length cell))
            = (pre ++ [Nat.max w (length cell)]) ++ ws) as ->.
    { clear. induction pre as [|p pre IHp]; simpl; [reflexivity|].
      now rewrite IHp. }
    replace (S (length pre)) with (length (pre ++ [Nat.max w (length cell)]))
      by (rewrite length_app; simpl; lia).
    rewrite IH by lia. now rewrite <- app_assoc.
Qed.

Lemma length_widen_pure (r : list str) :
  forall widths, length (widen_pure widths r) = length widths.
Proof.
  induction r as [|cell r IH]; intros [|w ws]; simpl; auto.
Qed.

Lemma widths_loop_eq (rs : list (list str)) :
  forall ridx widths,
    Forall (fun r => length r <= length widths) rs ->
    widths_loop ridx rs widths = Some (widths_pure ridx rs widths).
Proof.
  induction rs as [|r rs IH]; intros ridx widths H; [reflexivity|].
  inversion H as [|? ? Hr Hrs]; subst. simpl.
  destruct (ridx =? 1); [now apply IH|].
  pose proof (widen_eq r [] widths Hr) as Hw. simpl in Hw. rewrite Hw.
  simpl. apply IH.
  rewrite length_widen_pure. exact Hrs.
Qed.

Lemma length_widths_pure (rs : list (list str)) :
  forall ridx widths, length (widths_pure ridx rs widths) = length widths.
Proof.
  induction rs as [|r rs IH]; intros ridx widths; simpl; [reflexivity|].
  destruct (ridx =? 1); rewrite IH; [reflexivity|]. apply length_widen_pure.
Qed.

Lemma length_table_widths (rs : list (list str)) :
  length (table_widths rs) = ncols_of rs.
Proof.
  unfold table_widths. rewrite length_map, length_widths_pure.
  apply repeat_length.
Qed.

Lemma render_loop_eq (rs : list (list str)) (ncols : nat)
  (aligns : list (bool * bool)) (widths : list nat) :
  length aligns = ncols -> length widths = ncols ->
  Forall (fun r => length r = ncols) rs ->
  forall ridx,
    render_loop ridx rs ncols aligns widths
    = Some (render_pure ridx rs aligns widths).
Proof.
  intros Ha Hw. induction rs as [|r rs IH]; intros Hrs ridx; [reflexivity|].
  apply Forall_cons_iff in Hrs. destruct Hrs as [Hr Hrs']. simpl.
  rewrite (IH Hrs').
  destruct (ridx =? 1).
  - unfold delimiter_parts.
    rewrite (mapM_seq_combine
               (fun a core_len => delimiter_core (fst a) (snd a) core_len)
               aligns widths ncols Ha Hw).
    reflexivity.
  - unfold row_parts.
    rewrite (mapM_seq_combine (fun cell w => ljust w cell)
               r widths ncols Hr Hw).
    reflexivity.
Qed.

Lemma align_table_eq (t : Table) :
  2 <= length (rows t) -> align_table t = Some (aligned_lines (rows t)).
Proof.
  intros H. unfold align_table.
  assert (rows t <> []) as Hne by (destruct (rows t); simpl in H; [lia|discriminate]).
  rewrite (max_of_ncols _ Hne). cbn [bind].
  pose proof (padded_rows_length (rows t)) as Hpad.
  set (n := ncols_of (rows t)) in *.
  set (rows' := map (pad_row n) (rows t)) in *.
  destruct (nth_error rows' 1) as [delim|] eqn:Ed.
  2:{ apply nth_error_None in Ed. unfold rows' in Ed.
      rewrite length_map in Ed. lia. }
  cbn [bind].
  rewrite (widths_loop_eq rows' 0 (repeat 0 n)).
  2:{ eapply Forall_impl; [|exact Hpad]. intros r Hr. simpl in Hr.
      rewrite repeat_length. lia. }
  cbn [bind].
  assert (nth 1 rows' [] = delim) as Hd by now apply nth_error_nth.
  rewrite render_loop_eq with (ncols := n).
  - unfold aligned_lines, table_aligns, table_widths. fold n. fold rows'.
    now rewrite Hd.
  - rewrite length_map. rewrite Forall_forall in Hpad. apply Hpad.
    eapply nth_error_In; eauto.
  - rewrite length_map, length_widths_pure. apply repeat_length.
  - exact Hpad.
Qed.

Lemma align_table_some (t : Table) (out : list str) :
  align_table t = Some out ->
  2 <= length (rows t) /\ out = aligned_lines (rows t).
Proof.
  intros H.
  assert (2 <= length (rows t)) as Hlen.
  { unfold align_table in H. destruct (rows t) as [|r0 [|r1 rs]] eqn:E.
    - discriminate.
    - simpl in H. discriminate.
    - simpl. lia. }
  split; [exact Hlen|]. rewrite (align_table_eq t Hlen) in H. congruence.
Qed.

Lemma length_render_pure (rs : list (list str)) aligns widths :
  forall ridx, length (render_pure ridx rs aligns widths) = length rs.
Proof. induction rs as [|r rs IH]; intros ridx; simpl; auto. Qed.

Lemma length_aligned_lines (rs : list (list str)) :
  length (aligned_lines rs) = length rs.
Proof.
  unfold aligned_lines. now rewrite length_render_pure, length_map.
Qed.

(** ** A delimiter row never starts a fence *)

Lemma tok_step_cells_prefix (st : ScanState) (t : token) :
  exists more, cells (tok_step st t) = cells st ++ more.
Proof.
  destruct t; simpl.
  - exists []. now rewrite app_nil_r.
  - exists []. rewrite app_nil_r. unfold on_ticks.
    destruct (negb (in_code st)); [reflexivity|].
    destruct (code_tick_len st) as [m|]; [|reflexivity].
    destruct (m =? n); reflexivity.
  - destruct (in_code st); simpl; [exists []; now rewrite app_nil_r|].
    eexists. reflexivity.
  - exists []. now rewrite app_nil_r.
Qed.

Lemma scan_loop_cells_prefix (s : str) (st : ScanState) :
  exists more, cells (scan_loop st s) = cells st ++ more.
Proof.
  rewrite scan_loop_lex. revert st.
  induction (lex s) as [|t ts IH]; intros st; simpl.
  - exists []. now rewrite app_nil_r.
  - destruct (IH (tok_step st t)) as [m1 E1].
    destruct (tok_step_cells_prefix st t) as [m2 E2].
    exists (m2 ++ m1). now rewrite E1, E2, app_assoc.
Qed.

Lemma strip_cons_nonspace (c : ascii) (b : str) :
  is_space c = false -> exists x, strip (c :: b) = c :: x.
Proof.
  intros Hc. unfold strip. rewrite (lstrip_fix c b Hc).
  rewrite (rstrip_cons_nonspace c b Hc). eauto.
Qed.

(** Once the buffer starts with a character that is not a space, the
    next cell to be finished starts with it. *)
Lemma scan_first_cell_head (c : ascii) (s : str) :
  is_space c = false ->
  forall st b, cells st = [] -> buf st = c :: b ->
    exists x more, cells (emit (scan_loop st s)) = (c :: x) :: more.
Proof.
  intros Hc.
  assert (forall st b, cells st = [] -> buf st = c :: b ->
            exists x more, cells (emit st) = (c :: x) :: more) as Hemit.
  { intros st b Hcs Hb. simpl. rewrite Hcs, Hb.
    destruct (strip_cons_nonspace c b Hc) as [x ->]. simpl. eauto. }
  assert (forall st b s', cells st = [] -> buf st = c :: b ->
            exists x more, cells (emit (scan_loop (emit st) s'))
                           = (c :: x) :: more) as Hafter.
  { intros st b s' Hcs Hb.
    destruct (Hemit st b Hcs Hb) as [x [more E]].
    destruct (scan_loop_cells_prefix s' (emit st)) as [m Em].
    simpl cells at 1. rewrite Em, E. simpl. eauto. }
  induction s as [|r IH|rest IH|r IH|d r H1 H2 H3 IH] using scan_ind;
    intros st b Hcs Hb.
  - rewrite scan_loop_equation_1. eapply Hemit; eauto.
  - rewrite scan_loop_escape. apply (IH _ (b ++ ["\"; "|"])); simpl; auto.
    now rewrite Hb.
  - rewrite scan_loop_ticks.
    apply (IH _ (b ++ repeat "`" (S (tick_run rest)))).
    + unfold on_ticks. destruct (negb (in_code st)); [exact Hcs|].
      destruct (code_tick_len st) as [m|]; [|exact Hcs].
      destruct (m =? S (tick_run rest)); exact Hcs.
    + unfold on_ticks. destruct (negb (in_code st)); [simpl; now rewrite Hb|].
      destruct (code_tick_len st) as [m|]; [|simpl; now rewrite Hb].
      destruct (m =? S (tick_run rest)); simpl; now rewrite Hb.
  - rewrite scan_loop_pipe. destruct (in_code st).
    + apply (IH _ (b ++ ["|"])); simpl; auto. now rewrite Hb.
    + eapply Hafter; eauto.
  - rewrite scan_loop_other by assumption.
    apply (IH _ (b ++ [d])); simpl; auto. now rewrite Hb.
Qed.

Lemma split_row_head (c : ascii) (r : str) (line : str) :
  row_body line = c :: r -> is_space c = false -> Ascii.eqb c "|" = false ->
  exists x more, split_row line = (c :: x) :: more.
Proof.
  intros Hbody Hc Hp. unfold split_row. rewrite Hbody.
  rewrite scan_loop_equation_2. unfold scan_iter.
  destruct (Ascii.eqb c "\" && startswith ["|"] r) eqn:Ee.
  - apply andb_prop in Ee. destruct Ee as [Ee _].
    apply Ascii.eqb_eq in Ee. subst c.
    apply (scan_first_cell_head "\" _ Hc _ ["|"]); reflexivity.
  - destruct (Ascii.eqb c "`") eqn:Et.
    + apply Ascii.eqb_eq in Et. subst c.
      apply (scan_first_cell_head "`" _ Hc _ (repeat "`" (tick_run r)));
        reflexivity.
    + rewrite Hp. cbn [andb].
      apply (scan_first_cell_head c _ Hc _ []); reflexivity.
Qed.

Lemma is_delimiter_cell_head (c : ascii) (x : str) :
  trimmed (c :: x) -> is_delimiter_cell (c :: x) = true ->
  c = ":" \/ c = "-".
Proof.
  intros Ht H.
  apply (is_delimiter_cell_lenient _ Ht) in H.
  destruct H as [core [[l [r Hc]] [n [Hn Hcore]]]].
  destruct l; [left; simpl in Hc; congruence|]. right.
  destruct (strip_split core) as [ws1 [ws2 [H1 [H2 E]]]].
  rewrite Hcore in E. rewrite E in Hc. simpl in Hc.
  rewrite Hc in Ht. rewrite <- !app_assoc in Ht.
  apply trimmed_no_leading in Ht; [|exact H1]. subst ws1.
  destruct n; [lia|]. simpl in Hc. congruence.
Qed.

Lemma startswith_app (p s : str) (c : ascii) (r : str) :
  startswith (c :: p) s = true -> exists s', s = c :: s'.
Proof.
  destruct s as [|d s]; simpl; [discriminate|].
  intros H. apply andb_prop in H. destruct H as [H _].
  apply Ascii.eqb_eq in H. subst d. eauto.
Qed.

Lemma row_body_head (c : ascii) (line : str) :
  Ascii.eqb c "|" = false -> is_space c = false ->
  (exists l', lstrip line = c :: c :: c :: l') ->
  exists r, row_body line = c :: r.
Proof.
  intros Hp Hc [l' Hl]. unfold row_body, strip. rewrite Hl.
  rewrite !(rstrip_cons_nonspace c) by exact Hc.
  assert (startswith ["|"] (c :: c :: c :: rstrip l') = false) as ->.
  { simpl. rewrite Ascii.eqb_sym, Hp. reflexivity. }
  destruct (endswith ["|"] (c :: c :: c :: rstrip l')); [|eauto].
  unfold drop_last. simpl. eauto.
Qed.

Lemma delimiter_row_not_fence (line : str) :
  is_delimiter_row line = true -> starts_fence line = false.
Proof.
  intros H. unfold is_delimiter_row in H.
  destruct (negb (contains "|" line)); [discriminate|].
  apply andb_prop in H. destruct H as [_ Hall].
  destruct (starts_fence line) eqn:Hs; [|reflexivity]. exfalso.
  unfold starts_fence in Hs. apply orb_prop in Hs.
  assert (exists c l', (c = "`" \/ c = "~") /\ lstrip line = c :: c :: c :: l')
    as [c [l' [Hc Hl]]].
  { destruct Hs as [Hs|Hs]; unfold lit in Hs; simpl in Hs;
      destruct (lstrip line) as [|a [|b [|d l']]]; simpl in Hs;
        try discriminate;
      rewrite ?andb_false_r in Hs; try discriminate;
      rewrite andb_true_r in Hs;
      apply andb_prop in Hs; destruct Hs as [Ha Hs];
      apply andb_prop in Hs; destruct Hs as [Hb Hd];
      apply Ascii.eqb_eq in Ha, Hb, Hd; subst a b d; eauto. }
  assert (Ascii.eqb c "|" = false /\ is_space c = false
          /\ c <> ":" /\ c <> "-") as [Hp [Hsp [Hn1 Hn2]]].
  { destruct Hc; subst c; repeat split; try reflexivity; discriminate. }
  destruct (row_body_head c line Hp Hsp (ex_intro _ l' Hl)) as [r Hbody].
  destruct (split_row_head c r line Hbody Hsp Hp) as [x [more E]].
  pose proof (split_row_trimmed line) as Htr.
  rewrite E in Hall, Htr. simpl in Hall.
  apply andb_prop in Hall. destruct Hall as [Hcell _].
  inversion Htr as [|? ? Ht _]; subst.
  destruct (is_delimiter_cell_head c x Ht Hcell); contradiction.
Qed.

Lemma delimiter_row_absorbable (line : str) :
  is_delimiter_row line = true -> absorbable line = true.
Proof.
  intros H. pose proof (delimiter_row_not_fence line H) as Hf.
  unfold is_delimiter_row in H.
  destruct (contains "|" line) eqn:Hp; [|discriminate].
  unfold absorbable.
  pose proof (contains_strip_nonempty "|" line eq_refl Hp) as Hne.
  destruct (strip line); [congruence|]. now rewrite Hp, Hf.
Qed.

(** ** The tables [find_tables] returns *)

Lemma absorb_le (ls : list str) : absorb ls <= length ls.
Proof.
  induction ls as [|l ls IH]; simpl; [lia|].
  destruct (absorbable l); simpl; lia.
Qed.

Lemma absorb_firstn (ls : list str) :
  Forall (fun l => absorbable l = true) (firstn (absorb ls) ls).
Proof.
  induction ls as [|l ls IH]; simpl; [constructor|].
  destruct (absorbable l) eqn:E; simpl; [|constructor].
  constructor; assumption.
Qed.

(** An induction principle that follows the branches of the loop of
    [find_tables]. *)
Lemma find_tables_loop_ind
  (P : nat -> list str -> FenceState -> list Table -> Prop) :
  (forall i st, P i [] st []) ->
  (forall i line after st,
     in_fence (toggle_fence st line) = true ->
     P (S i) after (toggle_fence st line)
       (find_tables_loop (S i) after (toggle_fence st line)) ->
     P i (line :: after) st
       (find_tables_loop (S i) after (toggle_fence st line))) ->
  (forall i line after st,
     in_fence (toggle_fence st line) = false ->
     contains "|" line && next_is_delimiter after = true ->
     P (i + absorb (line :: after) - 1 + 1)
       (skipn (absorb (line :: after)) (line :: after))
       (toggle_fence st line)
       (find_tables_loop (i + absorb (line :: after) - 1 + 1)
          (skipn (absorb (line :: after)) (line :: after))
          (toggle_fence st line)) ->
     P i (line :: after) st
       (mkTable i (i + absorb (line :: after) - 1)
          (map split_row (firstn (absorb (line :: after)) (line :: after)))
        :: find_tables_loop (i + absorb (line :: after) - 1 + 1)
             (skipn (absorb (line :: after)) (line :: after))
             (toggle_fence st line))) ->
  (forall i line after st,
     in_fence (toggle_fence st line) = false ->
     contains "|" line && next_is_delimiter after = false ->
     P (S i) after (toggle_fence st line)
       (find_tables_loop (S i) after (toggle_fence st line)) ->
     P i (line :: after) st
       (find_tables_loop (S i) after (toggle_fence st line))) ->
  forall i rest st, P i rest st (find_tables_loop i rest st).
Proof.
  intros Hnil Hfence Htable Hskip i rest st.
  remember (2 * length rest + (if in_fence st then 1 else 0)) as m eqn:Em.
  revert i rest st Em.
  induction m as [m IH] using lt_wf_ind. intros i rest st Em.
  destruct rest as [|line after].
  - rewrite find_tables_loop_equation_1. apply Hnil.
  - rewrite find_tables_loop_cons.
    destruct (in_fence (toggle_fence st line)) eqn:Hf.
    + apply Hfence; [exact Hf|].
      eapply IH; [|reflexivity]. subst m. rewrite Hf. simpl.
      destruct (in_fence st); lia.
    + destruct (contains "|" line && next_is_delimiter after) eqn:Ht.
      * apply Htable; [exact Hf | exact Ht |].
        eapply IH; [|reflexivity]. subst m. rewrite Hf.
        apply andb_prop in Ht. destruct Ht as [Hp _].
        pose proof (absorb_zero_closes st line after Hf Hp) as Hz.
        simpl absorb in *. destruct (absorbable line).
        -- simpl skipn. rewrite length_skipn. simpl.
           destruct (in_fence st); lia.
        -- rewrite (Hz eq_refl). simpl. lia.
      * apply Hskip; [exact Hf | exact Ht |].
        eapply IH; [|reflexivity]. subst m. rewrite Hf. simpl.
        destruct (in_fence st); lia.
Qed.

(** What holds of every table that [find_tables lines] returns. *)
Record table_ok (lines : list str) (t : Table) : Prop := {
  ok_end : end_ t + 1 = start t + length (rows t);
  ok_bound : start t + length (rows t) <= length lines;
  ok_rows : rows t = map split_row (slice lines (start t) (end_ t + 1));
  ok_absorbable :
    Forall (fun l => absorbable l = true)
           (slice lines (start t) (end_ t + 1));
  ok_shape :
    rows t = [] \/
    (2 <= length (rows t)
     /\ exists header second,
         nth_error lines (start t) = Some header
         /\ contains "|" header = true
         /\ nth_error lines (start t + 1) = Some second
         /\ is_delimiter_row second = true)
}.

(** The tables come in document order and do not overlap. *)
Inductive chain (lines : list str) : nat -> list Table -> Prop :=
| chain_nil i : chain lines i []
| chain_cons i t ts :
    i <= start t -> table_ok lines t -> chain lines (end_ t + 1) ts ->
    chain lines i (t :: ts).

Lemma slice_app_skip {A} (pre rest : list A) (n : nat) :
  slice (pre ++ rest) (length pre) (length pre + n) = firstn n rest.
Proof.
  unfold slice. rewrite skipn_app, Nat.sub_diag, skipn_all. simpl.
  f_equal. lia.
Qed.

Lemma find_tables_loop_chain (i : nat) (rest : list str) (st : FenceState) :
  forall pre, length pre = i -> (in_fence st = true -> 1 <= i) ->
              chain (pre ++ rest) i (find_tables_loop i rest st).
Proof.
  apply (find_tables_loop_ind
           (fun i rest st ts =>
              forall pre, length pre = i -> (in_fence st = true -> 1 <= i) ->
                          chain (pre ++ rest) i ts)); clear i rest st.
  - intros i st pre Hlen Hi. constructor.
  - intros i line after st Hf IH pre Hlen Hi.
    specialize (IH (pre ++ [line])). rewrite <- app_assoc in IH. simpl in IH.
    assert (chain (pre ++ line :: after) (S i)
              (find_tables_loop (S i) after (toggle_fence st line))) as Hc.
    { apply IH; [rewrite length_app; simpl; lia | lia]. }
    inversion Hc; subst; constructor; auto; lia.
  - intros i line after st Hf Ht IH pre Hlen Hi.
    apply andb_prop in Ht. destruct Ht as [Hp Hd].
    destruct after as [|nxt after']; [discriminate|]. simpl in Hd.
    set (n := absorb (line :: nxt :: after')) in *.
    pose proof (absorb_le (line :: nxt :: after')) as Hn. fold n in Hn.
    pose proof (absorb_firstn (line :: nxt :: after')) as Hab. fold n in Hab.
    assert (i + n - 1 + 1 = i + n) as Eend.
    { destruct n as [|n'] eqn:En; [|lia].
      pose proof (absorb_zero_closes st line (nxt :: after') Hf Hp En).
      specialize (Hi H). lia. }
    assert (slice (pre ++ line :: nxt :: after') i (i + n - 1 + 1)
            = firstn n (line :: nxt :: after')) as Esl.
    { rewrite Eend. subst i. apply slice_app_skip. }
    constructor.
    + simpl. lia.
    + constructor; simpl.
      * rewrite length_map, length_firstn. lia.
      * rewrite length_map, length_firstn, length_app. lia.
      * now rewrite Esl.
      * now rewrite Esl.
      * destruct n as [|n'] eqn:En; [left; reflexivity|]. right.
        assert (2 <= S n') as H2.
        { unfold n in En. simpl in En.
          destruct (absorbable line); [|discriminate].
          rewrite (delimiter_row_absorbable nxt Hd) in En. lia. }
        split.
        -- rewrite length_map, length_firstn. lia.
        -- exists line, nxt. repeat split; auto.
           ++ rewrite nth_error_app2 by lia.
              replace (i - length pre) with 0 by lia. reflexivity.
           ++ rewrite nth_error_app2 by lia.
              replace (i + 1 - length pre) with 1 by lia. reflexivity.
    + simpl end_. rewrite Eend.
      specialize (IH (pre ++ firstn n (line :: nxt :: after'))).
      rewrite <- app_assoc, firstn_skipn in IH. rewrite Eend in IH.
      apply IH; [|lia].
      rewrite length_app, length_firstn. lia.
  - intros i line after st Hf Ht IH pre Hlen Hi.
    specialize (IH (pre ++ [line])). rewrite <- app_assoc in IH. simpl in IH.
    assert (chain (pre ++ line :: after) (S i)
              (find_tables_loop (S i) after (toggle_fence st line))) as Hc.
    { apply IH; [rewrite length_app; simpl; lia | lia]. }
    inversion Hc; subst; constructor; auto; lia.
Qed.

Lemma find_tables_chain (lines : list str) :
  chain lines 0 (find_tables lines).
Proof.
  apply (find_tables_loop_chain 0 lines fence_init []); [reflexivity|].
  discriminate.
Qed.

Lemma chain_In (lines : list str) (i : nat) (ts : list Table) (t : Table) :
  chain lines i ts -> In t ts -> table_ok lines t /\ i <= start t.
Proof.
  induction 1 as [|i t0 ts Hi Hok Hc IH]; intros Hin; [contradiction|].
  destruct Hin as [<-|Hin]; [auto|].
  destruct (IH Hin) as [H1 H2]. split; [exact H1|].
  pose proof (ok_end _ _ Hok). lia.
Qed.

Lemma find_tables_ok (lines : list str) (t : Table) :
  In t (find_tables lines) -> table_ok lines t.
Proof.
  intros Hin. eapply chain_In; [apply find_tables_chain | exact Hin].
Qed.

Lemma nth_error_slice {A} (lines : list A) (a b k : nat) :
  a <= k -> k < b -> nth_error (slice lines a b) (k - a) = nth_error lines k.
Proof.
  intros Ha Hb. unfold slice.
  rewrite nth_error_firstn.
  assert ((k - a <? b - a) = true) as -> by (apply Nat.ltb_lt; lia).
  rewrite nth_error_skipn. f_equal. lia.
Qed.

Lemma absorbable_not_fence (l : str) :
  absorbable l = true -> starts_fence l = false.
Proof.
  unfold absorbable. destruct (strip l); [discriminate|].
  intros H. apply andb_prop in H. destruct H as [_ H].
  now apply negb_true_iff in H.
Qed.

(** ** Fences *)

(** X21.  The lines of a table are never fence lines: no line between
    the start and the end of a table that [find_tables] returns starts,
    after leading whitespace, with three backticks or three tildes (the
    inner loop stops at such a line). *)
Theorem table_span_no_fence (lines : list str) (t : Table) (k : nat)
  (l : str) :
  In t (find_tables lines) ->
  start t <= k -> k <= end_ t -> nth_error lines k = Some l ->
  starts_fence l = false.
Proof.
  intros Hin Hk1 Hk2 Hl.
  pose proof (find_tables_ok lines t Hin) as Hok.
  pose proof (ok_absorbable _ _ Hok) as Hab.
  apply absorbable_not_fence.
  rewrite Forall_forall in Hab. apply Hab.
  apply (nth_error_In _ (k - start t)).
  rewrite nth_error_slice by lia. exact Hl.
Qed.

Lemma table_span_no_fence_witness : starts_fence (lit "|---|---|") = false.
Proof.
  apply (table_span_no_fence
           [lit "x"; lit "|a|b|"; lit "|---|---|"; lit "|1|2|"]
           (mkTable 1 3 [[lit "a"; lit "b"]; [lit "---"; lit "---"];
                         [lit "1"; lit "2"]])
           2 (lit "|---|---|")).
  - vm_compute. left. reflexivity.
  - simpl. lia.
  - simpl. lia.
  - reflexivity.
Defined.

(** C4.  A line that closes a fence is taken as the header of a table.
    In this document line 0 opens a fence and line 2 closes it; line 2
    contains a pipe and line 3 is a delimiter row.  [find_tables] toggles
    the fence before it tests [in_fence], examines line 2 as a line
    outside fences and records a table that starts on it, with no row,
    since the inner loop stops at once on a fence line.  The outer loop
    then resumes at line 2 and toggles it again: the fence is open again
    and the table of lines 5 to 7, which is found when those lines stand
    alone, is not found.  The document is returned as it is. *)
Theorem closing_fence_line_recorded_as_table :
  find_tables [lit "```"; lit "code"; lit "``` |"; lit "|---|---|"; [];
               lit "|a|b|"; lit "|---|---|"; lit "|1|2|"]
  = [mkTable 2 1 []]
  /\ starts_fence (lit "``` |") = true
  /\ in_fence (toggle_fence (toggle_fence fence_init (lit "```"))
                            (lit "``` |")) = false
  /\ in_fence (toggle_fence
                 (toggle_fence (toggle_fence fence_init (lit "```"))
                               (lit "``` |"))
                 (lit "``` |")) = true
  /\ find_tables [lit "|a|b|"; lit "|---|---|"; lit "|1|2|"]
     = [mkTable 0 2 [[lit "a"; lit "b"]; [lit "---"; lit "---"];
                     [lit "1"; lit "2"]]]
  /\ align_document [lit "```"; lit "code"; lit "``` |"; lit "|---|---|"; [];
                     lit "|a|b|"; lit "|---|---|"; lit "|1|2|"]
     = Some ([lit "```"; lit "code"; lit "``` |"; lit "|---|---|"; [];
              lit "|a|b|"; lit "|---|---|"; lit "|1|2|"], false).
Proof. repeat split; vm_compute; reflexivity. Qed.

(** ** What [process_file] does with the tables *)

(** The document after the loop body for [t], and whether the body sets
    [changed]. *)
Definition apply_table (lines : list str) (t : Table) : list str :=
  if length (rows t) <? 2 then lines
  else splice lines (start t) (end_ t + 1) (aligned_lines (rows t)).

Definition table_differs (lines : list str) (t : Table) : bool :=
  (2 <=? length (rows t))
  && negb (lines_eqb (slice lines (start t) (end_ t + 1))
                     (aligned_lines (rows t))).

Lemma lines_eqb_eq (a b : list str) : lines_eqb a b = true <-> a = b.
Proof.
  unfold lines_eqb.
  destruct (list_eq_dec (list_eq_dec ascii_dec) a b); split; congruence.
Qed.

Lemma slice_firstn {A} (l : list A) (a b n : nat) :
  b <= n -> slice (firstn n l) a b = slice l a b.
Proof.
  intros H. unfold slice. rewrite skipn_firstn_comm, firstn_firstn.
  f_equal. lia.
Qed.

Lemma splice_slice {A} (l : list A) (a b : nat) :
  a <= b -> splice l a b (slice l a b) = l.
Proof.
  intros H. unfold splice, slice. rewrite Nat.max_r by lia.
  rewrite <- (firstn_skipn a l) at 4.
  f_equal.
  rewrite <- (firstn_skipn (b - a) (skipn a l)) at 2.
  f_equal. rewrite skipn_skipn. f_equal. lia.
Qed.

Lemma length_splice {A} (l new : list A) (a b : nat) :
  a <= b -> b <= length l -> length new = b - a ->
  length (splice l a b new) = length l.
Proof.
  intros H1 H2 H3. unfold splice.
  rewrite !length_app, length_firstn, length_skipn. lia.
Qed.

Lemma firstn_splice {A} (l new : list A) (a b i : nat) :
  i <= a -> a <= length l -> firstn i (splice l a b new) = firstn i l.
Proof.
  intros H1 H2. unfold splice.
  rewrite firstn_app, length_firstn.
  replace (i - Nat.min a (length l)) with 0 by lia.
  simpl. rewrite app_nil_r, firstn_firstn. f_equal. lia.
Qed.

Lemma nth_error_firstn_lt {A} (l : list A) (n k : nat) :
  k < n -> nth_error (firstn n l) k = nth_error l k.
Proof.
  intros H. rewrite nth_error_firstn.
  now assert ((k <? n) = true) as -> by now apply Nat.ltb_lt.
Qed.

Lemma table_second_row (lines : list str) (t : Table) :
  table_ok lines t -> 2 <= length (rows t) ->
  exists second,
    nth_error lines (start t + 1) = Some second
    /\ is_delimiter_row second = true
    /\ nth_error (rows t) 1 = Some (split_row second).
Proof.
  intros Hok H2. destruct (ok_shape _ _ Hok) as [E|[_ [h [second Hs]]]].
  - rewrite E in H2. simpl in H2. lia.
  - destruct Hs as [_ [_ [Hsec Hd]]]. exists second. repeat split; auto.
    rewrite (ok_rows _ _ Hok). rewrite nth_error_map.
    pose proof (ok_end _ _ Hok) as He.
    replace 1 with (start t + 1 - start t) by lia.
    rewrite nth_error_slice by lia. rewrite Hsec. reflexivity.
Qed.

Lemma table_ncols (lines : list str) (t : Table) :
  table_ok lines t -> 2 <= length (rows t) -> 2 <= ncols_of (rows t).
Proof.
  intros Hok H2.
  destruct (table_second_row lines t Hok H2) as [second [_ [Hd Hr]]].
  apply nth_error_In in Hr. apply ncols_of_le in Hr.
  unfold is_delimiter_row in Hd.
  destruct (negb (contains "|" second)); [discriminate|].
  apply andb_prop in Hd. destruct Hd as [Hd _]. apply Nat.leb_le in Hd. lia.
Qed.

Lemma process_table_spec (lines0 lines : list str) (ch : bool) (t : Table) :
  table_ok lines0 t ->
  firstn (end_ t + 1) lines = firstn (end_ t + 1) lines0 ->
  process_table (lines, ch) t
  = Some (apply_table lines t, ch || table_differs lines0 t).
Proof.
  intros Hok Hpre. unfold process_table, apply_table, table_differs.
  destruct (length (rows t) <? 2) eqn:El.
  - apply Nat.ltb_lt in El.
    assert ((2 <=? length (rows t)) = false) as -> by (apply Nat.leb_gt; lia).
    simpl. now rewrite orb_false_r.
  - apply Nat.ltb_ge in El.
    assert ((2 <=? length (rows t)) = true) as -> by now apply Nat.leb_le.
    assert (rows t <> []) as Hne
        by (destruct (rows t); simpl in El; [lia|discriminate]).
    rewrite (max_of_ncols _ Hne). cbn [bind].
    pose proof (table_ncols lines0 t Hok El) as Hn.
    assert ((ncols_of (rows t) <? 2) = false) as -> by (apply Nat.ltb_ge; lia).
    destruct (table_second_row lines0 t Hok El) as [second [Hsec [Hd _]]].
    pose proof (ok_end _ _ Hok) as He.
    assert (nth_error lines (start t + 1) = Some second) as ->.
    { rewrite <- (nth_error_firstn_lt lines (end_ t + 1)) by lia.
      rewrite Hpre, nth_error_firstn_lt by lia. exact Hsec. }
    cbn [bind]. rewrite Hd. cbn [negb].
    rewrite (align_table_eq t El). cbn [bind andb].
    assert (slice lines (start t) (end_ t + 1)
            = slice lines0 (start t) (end_ t + 1)) as Hs.
    { rewrite <- (slice_firstn lines _ _ (end_ t + 1)) by lia.
      rewrite Hpre. apply slice_firstn. lia. }
    rewrite Hs.
    destruct (lines_eqb (slice lines0 (start t) (end_ t + 1))
                        (aligned_lines (rows t))) eqn:Eq; cbn [negb].
    + rewrite orb_false_r. apply lines_eqb_eq in Eq. rewrite <- Eq, <- Hs.
      rewrite splice_slice by lia. reflexivity.
    + now rewrite orb_true_r.
Qed.

Lemma apply_table_length (lines0 lines : list str) (t : Table) :
  table_ok lines0 t -> length lines = length lines0 ->
  length (apply_table lines t) = length lines.
Proof.
  intros Hok Hlen. unfold apply_table.
  destruct (length (rows t) <? 2); [reflexivity|].
  pose proof (ok_end _ _ Hok). pose proof (ok_bound _ _ Hok).
  apply length_splice; try lia. rewrite length_aligned_lines. lia.
Qed.

Lemma apply_table_firstn (lines0 lines : list str) (t : Table) (i : nat) :
  table_ok lines0 t -> length lines = length lines0 -> i <= start t ->
  firstn i (apply_table lines t) = firstn i lines.
Proof.
  intros Hok Hlen Hi. unfold apply_table.
  destruct (length (rows t) <? 2); [reflexivity|].
  pose proof (ok_bound _ _ Hok).
  apply firstn_splice; lia.
Qed.

Lemma process_tables_app (a b : list Table) (acc : list str * bool) :
  process_tables (a ++ b) acc
  = acc' <- process_tables a acc ;; process_tables b acc'.
Proof.
  revert acc. induction a as [|t a IH]; intros acc; simpl; [reflexivity|].
  destruct (process_table acc t); simpl; [apply IH | reflexivity].
Qed.

Lemma firstn_le_eq {A} (l1 l2 : list A) (i j : nat) :
  i <= j -> firstn j l1 = firstn j l2 -> firstn i l1 = firstn i l2.
Proof.
  intros H E.
  assert (forall l : list A, firstn i l = firstn i (firstn j l)) as Hf.
  { intros l. rewrite firstn_firstn, Nat.min_l by lia. reflexivity. }
  now rewrite (Hf l1), (Hf l2), E.
Qed.

Lemma process_tables_spec (lines0 : list str) (i : nat) (ts : list Table) :
  chain lines0 i ts ->
  forall ch,
    process_tables (rev ts) (lines0, ch)
    = Some (fold_right (fun t l => apply_table l t) lines0 ts,
            ch || existsb (table_differs lines0) ts)
    /\ length (fold_right (fun t l => apply_table l t) lines0 ts)
       = length lines0
    /\ firstn i (fold_right (fun t l => apply_table l t) lines0 ts)
       = firstn i lines0.
Proof.
  induction 1 as [i|i t ts Hi Hok Hc IH]; intros ch.
  - simpl. now rewrite orb_false_r.
  - destruct (IH ch) as [IH1 [IH2 IH3]].
    simpl rev. rewrite process_tables_app, IH1. cbn [bind process_tables].
    rewrite (process_table_spec lines0 _ _ t Hok IH3). cbn [bind].
    cbn [fold_right existsb].
    split; [|split].
    + f_equal. f_equal.
      destruct ch, (table_differs lines0 t),
        (existsb (table_differs lines0) ts); reflexivity.
    + rewrite (apply_table_length lines0); auto.
    + rewrite (apply_table_firstn lines0) by auto.
      pose proof (ok_end _ _ Hok).
      apply (firstn_le_eq _ _ i (end_ t + 1)); [lia | exact IH3].
Qed.

(** [align_document] never raises, and what it returns. *)
Lemma align_document_spec (lines : list str) :
  align_document lines
  = Some (fold_right (fun t l => apply_table l t) lines (find_tables lines),
          existsb (table_differs lines) (find_tables lines)).
Proof.
  unfold align_document.
  destruct (find_tables lines) as [|t ts] eqn:E; [reflexivity|].
  rewrite <- E.
  destruct (process_tables_spec lines 0 _ (find_tables_chain lines) false)
    as [H _].
  exact H.
Qed.

Lemma align_document_length (lines : list str) :
  length (fold_right (fun t l => apply_table l t) lines (find_tables lines))
  = length lines.
Proof.
  now destruct (process_tables_spec lines 0 _ (find_tables_chain lines) false)
    as [_ [H _]].
Qed.

Lemma fold_left_max_lub (l : list nat) (b : nat) :
  forall a, a <= b -> Forall (fun x => x <= b) l -> fold_left Nat.max l a <= b.
Proof.
  induction l as [|x l IH]; intros a Ha Hl; simpl; [exact Ha|].
  inversion Hl; subst. apply IH; [lia | assumption].
Qed.

(** ** Discarded tables *)

(** C5, counterexample.  The third row of this table has one column, yet
    the table is not discarded: the row is padded and the span rewritten. *)
Lemma ragged_table_rewritten :
  find_tables [lit "|a|b|"; lit "|---|---|"; lit "x|"]
  = [mkTable 0 2 [[lit "a"; lit "b"]; [lit "---"; lit "---"]; [lit "x"]]]
  /\ length [lit "x"] < 2
  /\ align_document [lit "|a|b|"; lit "|---|---|"; lit "x|"]
     = Some ([lit "| a   | b   |"; lit "| --- | --- |"; lit "| x   |     |"],
             true).
Proof. repeat split; vm_compute; auto. Qed.

(** C5, as amended.  The loop body of [process_file] leaves the document
    and [changed] as they are, without raising, whenever the table has
    fewer than 2 rows, or every one of its rows has fewer than 2 columns,
    or the line after its start fails [is_delimiter_row] when it is
    checked again. *)
Theorem table_discarded (lines : list str) (changed : bool) (t : Table) :
  length (rows t) < 2
  \/ Forall (fun r => length r < 2) (rows t)
  \/ (exists second, nth_error lines (start t + 1) = Some second
                     /\ is_delimiter_row second = false) ->
  process_table (lines, changed) t = Some (lines, changed).
Proof.
  intros H. unfold process_table.
  destruct (length (rows t) <? 2) eqn:El; [reflexivity|].
  apply Nat.ltb_ge in El.
  destruct H as [H|[H|[second [Hs Hd]]]]; [lia| |].
  - destruct (rows t) as [|r rs] eqn:E; [simpl in El; lia|].
    simpl max_of. cbn [bind].
    assert (fold_left Nat.max (map (@length str) rs) (length r) <= 1) as Hm.
    { inversion H; subst. apply fold_left_max_lub; [lia|].
      apply Forall_map. eapply Forall_impl; [|eassumption].
      simpl. intros; lia. }
    assert ((fold_left Nat.max (map (@length str) rs) (length r) <? 2) = true)
      as -> by (apply Nat.ltb_lt; lia).
    reflexivity.
  - destruct (max_of (map (@length str) (rows t))) as [n|] eqn:Em.
    + cbn [bind]. destruct (n <? 2); [reflexivity|].
      rewrite Hs. cbn [bind]. rewrite Hd. reflexivity.
    + destruct (rows t); [simpl in El; lia | discriminate].
Qed.

Lemma table_discarded_witness :
  process_table ([lit "```"; lit "``` |"; lit "|---|---|"], false)
                (mkTable 1 0 [])
  = Some ([lit "```"; lit "``` |"; lit "|---|---|"], false).
Proof. apply table_discarded. left. simpl. lia. Defined.

(** ** The number of lines *)

(** C10.  Every table [find_tables] returns has [end - start + 1] rows;
    the aligner returns exactly as many lines as the table has rows, and
    it returns for every table that has rows (the others have none and
    are skipped before it is called), so a splice of its result over
    [start .. end] keeps the length of the document; [align_document]
    always returns, and the document it returns has as many lines as its
    input. *)
Theorem line_count_preserved (lines : list str) :
  (forall t, In t (find_tables lines) ->
     length (rows t) = end_ t + 1 - start t
     /\ start t <= end_ t + 1 <= length lines
     /\ (forall out, align_table t = Some out ->
           length out = length (rows t)
           /\ forall doc, length doc = length lines ->
                length (splice doc (start t) (end_ t + 1) out) = length doc)
     /\ (rows t <> [] -> exists out, align_table t = Some out))
  /\ exists new changed,
       align_document lines = Some (new, changed)
       /\ length new = length lines.
Proof.
  split.
  - intros t Hin. pose proof (find_tables_ok lines t Hin) as Hok.
    pose proof (ok_end _ _ Hok) as He. pose proof (ok_bound _ _ Hok) as Hb.
    repeat split; try lia.
    + apply align_table_some in H. destruct H as [_ ->].
      apply length_aligned_lines.
    + intros doc Hdoc. apply align_table_some in H. destruct H as [_ ->].
      apply length_splice; try lia. rewrite length_aligned_lines. lia.
    + intros Hne. exists (aligned_lines (rows t)). apply align_table_eq.
      destruct (ok_shape _ _ Hok) as [E|[H2 _]]; [contradiction | exact H2].
  - eexists. eexists. split; [apply align_document_spec|].
    apply align_document_length.
Qed.

(** ** The changed flag *)

Lemma table_differs_iff (lines : list str) (t : Table) :
  table_differs lines t = true <->
  exists out, align_table t = Some out
              /\ out <> slice lines (start t) (end_ t + 1).
Proof.
  unfold table_differs. split.
  - intros H. apply andb_prop in H. destruct H as [H2 Hd].
    apply Nat.leb_le in H2. exists (aligned_lines (rows t)).
    split; [now apply align_table_eq|].
    intros E. apply negb_true_iff in Hd.
    rewrite E in Hd.
    assert (lines_eqb (slice lines (start t) (end_ t + 1))
                      (slice lines (start t) (end_ t + 1)) = true) as Ht
        by now apply lines_eqb_eq.
    congruence.
  - intros [out [Ha Hne]]. apply align_table_some in Ha.
    destruct Ha as [H2 ->]. apply andb_true_intro. split.
    + now apply Nat.leb_le.
    + apply negb_true_iff.
      destruct (lines_eqb (slice lines (start t) (end_ t + 1))
                          (aligned_lines (rows t))) eqn:E; [|reflexivity].
      apply lines_eqb_eq in E. congruence.
Qed.

(** No line with a pipe is followed by a delimiter row. *)
Definition no_table_start (lines : list str) : Prop :=
  forall k header second,
    nth_error lines k = Some header ->
    nth_error lines (S k) = Some second ->
    contains "|" header && is_delimiter_row second = false.

Lemma no_table_start_tl (line : str) (after : list str) :
  no_table_start (line :: after) -> no_table_start after.
Proof. intros H k h s Hh Hs. apply (H (S k) h s); assumption. Qed.

Lemma find_tables_loop_none (i : nat) (rest : list str) (st : FenceState) :
  no_table_start rest -> find_tables_loop i rest st = [].
Proof.
  apply (find_tables_loop_ind
           (fun i rest st ts => no_table_start rest -> ts = []));
    clear i rest st.
  - reflexivity.
  - intros i line after st _ IH H. apply IH. eapply no_table_start_tl; eauto.
  - intros i line after st _ Ht _ H. exfalso.
    destruct after as [|nxt after']; [now rewrite andb_false_r in Ht|].
    simpl in Ht. rewrite (H 0 line nxt eq_refl eq_refl) in Ht. discriminate.
  - intros i line after st _ _ IH H. apply IH. eapply no_table_start_tl; eauto.
Qed.

(** C9.  [align_document] returns a document and a flag; the flag is true
    if and only if for some table of [find_tables] the lines the aligner
    returns differ from the lines of the input between its start and its
    end; when no line with a pipe is followed by a delimiter row the
    document returned is the input and the flag is false; and
    [process_file] writes the document back exactly when the flag is
    true. *)
Theorem changed_iff_table_differs (lines : list str) :
  exists new changed,
    align_document lines = Some (new, changed)
    /\ (changed = true <->
        exists t out,
          In t (find_tables lines)
          /\ align_table t = Some out
          /\ out <> slice lines (start t) (end_ t + 1))
    /\ (no_table_start lines -> new = lines /\ changed = false)
    /\ process_file lines
       = Some (if changed then Some (join ["010"] new ++ ["010"]) else None,
               changed).
Proof.
  eexists. eexists. split; [apply align_document_spec|]. split; [|split].
  - rewrite existsb_exists. split.
    + intros [t [Hin Hd]]. apply table_differs_iff in Hd.
      destruct Hd as [out [Ha Hne]]. exists t, out. auto.
    + intros [t [out [Hin [Ha Hne]]]]. exists t. split; [exact Hin|].
      apply table_differs_iff. eauto.
  - intros H. unfold find_tables.
    rewrite (find_tables_loop_none 0 lines fence_init H). auto.
  - unfold process_file. rewrite align_document_spec. cbn [bind].
    destruct (existsb (table_differs lines) (find_tables lines)); reflexivity.
Qed.

(** ** Code spans *)

Lemma tick_run_repeat (n : nat) (r : str) :
  startswith ["`"] r = false ->
  tick_run (repeat "`" n ++ r) = n /\ skipn n (repeat "`" n ++ r) = r.
Proof.
  intros H. induction n as [|n [IH1 IH2]]; simpl.
  - split; [now apply tick_run_zero | reflexivity].
  - split; [now rewrite IH1 | exact IH2].
Qed.

Lemma startswith_app_nonempty (p : ascii) (a b : str) :
  a <> [] -> startswith [p] (a ++ b) = startswith [p] a.
Proof. destruct a; [congruence | reflexivity]. Qed.

(** A span that is opened by a run of [S n] backticks and closed by the
    next run of the same length goes into the buffer as it is, pipes
    included, and the scan goes on outside code. *)
Lemma scan_loop_span (st : ScanState) (n : nat) (content rest : str) :
  in_code st = false ->
  content <> [] ->
  startswith ["`"] content = false ->
  endswith ["`"] content = false ->
  ~ In (S n) (tick_runs content) ->
  startswith ["`"] rest = false ->
  scan_loop st (repeat "`" (S n) ++ content ++ repeat "`" (S n) ++ rest)
  = scan_loop
      (mkScan (cells st)
              (buf st ++ repeat "`" (S n) ++ content ++ repeat "`" (S n))
              false None)
      rest.
Proof.
  intros Hin Hne Hs He Hruns Hrest.
  change (repeat "`" (S n) ++ content ++ repeat "`" (S n) ++ rest)
    with ("`" :: repeat "`" n ++ content ++ repeat "`" (S n) ++ rest).
  rewrite scan_loop_ticks.
  assert (startswith ["`"] (content ++ repeat "`" (S n) ++ rest) = false) as Hs'.
  { now rewrite startswith_app_nonempty. }
  destruct (tick_run_repeat n _ Hs') as [-> ->].
  assert (boundary_ok content (repeat "`" (S n) ++ rest) = true) as Hb.
  { unfold boundary_ok. rewrite He. simpl. now rewrite andb_false_r. }
  rewrite (scan_loop_app _ _ _ Hb).
  rewrite (scan_loop_unterminated content _ (S n)); try assumption.
  2:{ unfold on_ticks. now rewrite Hin. }
  2:{ unfold on_ticks. now rewrite Hin. }
  change (repeat "`" (S n) ++ rest) with ("`" :: repeat "`" n ++ rest).
  rewrite scan_loop_ticks.
  destruct (tick_run_repeat n _ Hrest) as [-> ->].
  f_equal. unfold on_ticks, push. rewrite Hin. simpl.
  rewrite Nat.eqb_refl. f_equal. now rewrite <- !app_assoc.
Qed.

Lemma buffer_in_cell (s : str) :
  forall st, exists y,
    In (strip (buf st ++ y)) (cells (emit (scan_loop st s))).
Proof.
  induction s as [|r IH|rest IH|r IH|c r H1 H2 H3 IH] using scan_ind;
    intros st.
  - exists []. rewrite scan_loop_equation_1, app_nil_r. simpl.
    apply in_or_app. right. now left.
  - rewrite scan_loop_escape. destruct (IH (push st ["\"; "|"])) as [y Hy].
    simpl in Hy. rewrite <- app_assoc in Hy. eauto.
  - rewrite scan_loop_ticks.
    destruct (IH (on_ticks st (S (tick_run rest)))) as [y Hy].
    assert (buf (on_ticks st (S (tick_run rest)))
            = buf st ++ repeat "`" (S (tick_run rest))) as E.
    { unfold on_ticks. destruct (negb (in_code st)); [reflexivity|].
      destruct (code_tick_len st) as [m|]; [|reflexivity].
      destruct (m =? S (tick_run rest)); reflexivity. }
    rewrite E, <- app_assoc in Hy. eauto.
  - rewrite scan_loop_pipe. destruct (in_code st).
    + destruct (IH (push st ["|"])) as [y Hy].
      simpl in Hy. rewrite <- app_assoc in Hy. eauto.
    + exists []. rewrite app_nil_r.
      destruct (scan_loop_cells_prefix r (emit st)) as [more E].
      simpl cells at 1. rewrite E. simpl.
      rewrite <- !app_assoc. apply in_or_app. right.
      simpl. now left.
  - rewrite scan_loop_other by assumption.
    destruct (IH (push st [c])) as [y Hy].
    simpl in Hy. rewrite <- app_assoc in Hy. eauto.
Qed.

Lemma lstrip_app_keep (x m y : str) :
  m <> [] -> lstrip m = m -> lstrip (x ++ m ++ y) = lstrip x ++ m ++ y.
Proof.
  intros Hne Hm. destruct (lstrip_split x) as [ws [Hws E]].
  rewrite E at 1. rewrite <- app_assoc, lstrip_spaces by exact Hws.
  destruct (lstrip x) as [|c r] eqn:El.
  - simpl. now apply lstrip_app_fix.
  - apply lstrip_fix. eapply lstrip_head; eauto.
Qed.

Lemma rstrip_app_keep (x m y : str) :
  m <> [] -> rstrip m = m -> rstrip (x ++ m ++ y) = x ++ m ++ rstrip y.
Proof.
  intros Hne Hm. destruct (rstrip_split y) as [ws [Hws E]].
  rewrite E at 1. rewrite !app_assoc, rstrip_spaces by exact Hws.
  destruct (list_eq_dec ascii_dec (rstrip y) []) as [Ey|Ey].
  - rewrite Ey, !app_nil_r. now apply rstrip_app_fix.
  - rewrite (rstrip_app_fix (x ++ m) (rstrip y) (rstrip_idem y) Ey).
    now rewrite <- app_assoc.
Qed.

Lemma strip_app_keep (x m y : str) :
  m <> [] -> lstrip m = m -> rstrip m = m ->
  strip (x ++ m ++ y) = lstrip x ++ m ++ rstrip y.
Proof.
  intros Hne Hl Hr. unfold strip.
  rewrite lstrip_app_keep by assumption. now apply rstrip_app_keep.
Qed.

Lemma span_trimmed_ends (n : nat) (content : str) :
  let span := repeat "`" (S n) ++ content ++ repeat "`" (S n) in
  span <> [] /\ lstrip span = span /\ rstrip span = span.
Proof.
  simpl. split; [discriminate|]. split; [reflexivity|].
  rewrite repeat_cons, app_comm_cons, !app_assoc.
  apply rstrip_snoc_fix. reflexivity.
Qed.

Lemma join_contains (sep : str) (parts : list str) (p : str) :
  In p parts -> exists a b, join sep parts = a ++ p ++ b.
Proof.
  induction parts as [|q parts IH]; intros Hin; [contradiction|].
  destruct Hin as [->|Hin].
  - destruct parts as [|q' parts'].
    + exists [], []. simpl. now rewrite app_nil_r.
    + exists [], (sep ++ join sep (q' :: parts')). reflexivity.
  - destruct (IH Hin) as [a [b E]].
    destruct parts as [|q' parts']; [contradiction|].
    exists (q ++ sep ++ a), b.
    change (join sep (q :: q' :: parts'))
      with (q ++ sep ++ join sep (q' :: parts')).
    rewrite E. now rewrite <- !app_assoc.
Qed.

Lemma render_contains (parts : list str) (p : str) :
  In p parts -> exists a b, render parts = a ++ p ++ b.
Proof.
  intros Hin. destruct (join_contains (lit " | ") parts p Hin) as [a [b E]].
  unfold render. rewrite E. exists (lit "| " ++ a), (b ++ lit " |").
  now rewrite <- !app_assoc.
Qed.

Lemma padded_cells_contains (r : list str) :
  forall (widths : list nat) (c : str),
    In c r -> length r <= length widths ->
    exists pad, In (c ++ pad) (padded_cells r widths).
Proof.
  induction r as [|c0 r IH]; intros widths c Hin Hlen; [contradiction|].
  destruct widths as [|w ws]; simpl in Hlen; [lia|].
  destruct Hin as [->|Hin].
  - exists (repeat " " (w - length c)). left. reflexivity.
  - destruct (IH ws c Hin) as [pad Hp]; [lia|]. exists pad. right. exact Hp.
Qed.

Lemma nth_error_render_pure (rs : list (list str)) aligns widths :
  forall ridx k r,
    nth_error rs k = Some r ->
    nth_error (render_pure ridx rs aligns widths) k
    = Some (render (if ridx + k =? 1 then delimiter_cells aligns widths
                    else padded_cells r widths)).
Proof.
  induction rs as [|r0 rs IH]; intros ridx k r Hk; [destruct k; discriminate|].
  destruct k as [|k]; simpl in *.
  - injection Hk as ->. now rewrite Nat.add_0_r.
  - rewrite (IH (S ridx) k r Hk).
    now replace (S ridx + k) with (ridx + S k) by lia.
Qed.

(** The line the aligner returns for row [k] of a detected table. *)
Lemma aligned_line_of_row (lines : list str) (t : Table) (out : list str)
  (k : nat) (line : str) :
  In t (find_tables lines) -> align_table t = Some out ->
  start t + k <= end_ t -> nth_error lines (start t + k) = Some line ->
  nth_error (rows t) k = Some (split_row line)
  /\ nth_error out k
     = Some (render
               (if k =? 1
                then delimiter_cells (table_aligns (rows t))
                                     (table_widths (rows t))
                else padded_cells
                       (pad_row (ncols_of (rows t)) (split_row line))
                       (table_widths (rows t)))).
Proof.
  intros Hin Ha Hk Hl.
  pose proof (find_tables_ok lines t Hin) as Hok.
  apply align_table_some in Ha. destruct Ha as [_ ->].
  assert (nth_error (rows t) k = Some (split_row line)) as Hr.
  { rewrite (ok_rows _ _ Hok), nth_error_map.
    replace k with (start t + k - start t) at 1 by lia.
    rewrite nth_error_slice by lia. now rewrite Hl. }
  split; [exact Hr|].
  unfold aligned_lines.
  rewrite (nth_error_render_pure _ _ _ 0 k
             (pad_row (ncols_of (rows t)) (split_row line))).
  - reflexivity.
  - rewrite nth_error_map, Hr. reflexivity.
Qed.

Lemma span_in_cell (line pre content post : str) (n : nat) :
  row_body line
  = pre ++ repeat "`" (S n) ++ content ++ repeat "`" (S n) ++ post ->
  in_code (scan_loop scan_init pre) = false ->
  endswith ["`"] pre = false ->
  content <> [] ->
  startswith ["`"] content = false ->
  endswith ["`"] content = false ->
  ~ In (S n) (tick_runs content) ->
  startswith ["`"] post = false ->
  exists a b,
    In (a ++ repeat "`" (S n) ++ content ++ repeat "`" (S n) ++ b)
       (split_row line).
Proof.
  intros Hbody Hpre Hpe Hne Hcs Hce Hruns Hpost.
  unfold split_row. rewrite Hbody.
  rewrite scan_loop_app.
  2:{ unfold boundary_ok. rewrite Hpe. simpl. now rewrite andb_false_r. }
  rewrite (scan_loop_span _ n content post) by assumption.
  match goal with
  | |- context [scan_loop ?st post] =>
      destruct (buffer_in_cell post st) as [y Hy]
  end.
  cbn [buf] in Hy.
  destruct (span_trimmed_ends n content) as [Hsne [Hsl Hsr]].
  rewrite <- (app_assoc (buf (scan_loop scan_init pre))) in Hy.
  rewrite strip_app_keep in Hy by assumption.
  rewrite <- !app_assoc in Hy. eauto.
Qed.

Lemma contains_repeat_other (c d : ascii) (n : nat) :
  Ascii.eqb c d = false -> contains c (repeat d n) = false.
Proof.
  intros H. induction n as [|n IH]; simpl; [reflexivity|].
  now rewrite H, IH.
Qed.

Lemma delimiter_cell_no_tick (c : str) :
  trimmed c -> is_delimiter_cell c = true -> contains "`" c = false.
Proof.
  intros Ht H. apply (is_delimiter_cell_lenient c Ht) in H.
  destruct H as [core [[l [r Hc]] [n [Hn Hcore]]]].
  destruct (strip_split core) as [ws1 [ws2 [H1 [H2 E]]]].
  rewrite Hcore in E. rewrite Hc, E, !contains_app.
  rewrite (contains_spaces "`" ws1 eq_refl H1).
  rewrite (contains_spaces "`" ws2 eq_refl H2).
  rewrite (contains_repeat_other "`" "-" n eq_refl).
  destruct l, r; reflexivity.
Qed.

Lemma span_in_output (lines : list str) (t : Table) (out : list str)
  (k : nat) (line pre content post : str) (n : nat) :
  In t (find_tables lines) -> align_table t = Some out ->
  start t + k <= end_ t -> nth_error lines (start t + k) = Some line ->
  row_body line
  = pre ++ repeat "`" (S n) ++ content ++ repeat "`" (S n) ++ post ->
  in_code (scan_loop scan_init pre) = false ->
  endswith ["`"] pre = false ->
  content <> [] ->
  startswith ["`"] content = false ->
  endswith ["`"] content = false ->
  ~ In (S n) (tick_runs content) ->
  startswith ["`"] post = false ->
  exists a b,
    nth_error out k
    = Some (a ++ repeat "`" (S n) ++ content ++ repeat "`" (S n) ++ b).
Proof.
  intros Hin Ha Hk Hl Hbody Hpre Hpe Hne Hcs Hce Hruns Hpost.
  destruct (span_in_cell line pre content post n) as [a [b Hc]];
    try assumption.
  destruct (aligned_line_of_row lines t out k line Hin Ha Hk Hl) as [Hr Ho].
  pose proof (find_tables_ok lines t Hin) as Hok.
  destruct (Nat.eqb_spec k 1) as [->|Hk1].
  - exfalso.
    assert (2 <= length (rows t)) as H2.
    { apply align_table_some in Ha. tauto. }
    destruct (table_second_row lines t Hok H2) as [second [Hs [Hd _]]].
    rewrite Hl in Hs. injection Hs as <-.
    unfold is_delimiter_row in Hd.
    destruct (negb (contains "|" line)); [discriminate|].
    apply andb_prop in Hd. destruct Hd as [_ Hall].
    rewrite forallb_forall in Hall. specialize (Hall _ Hc).
    pose proof (split_row_trimmed line) as Htr.
    rewrite Forall_forall in Htr. specialize (Htr _ Hc).
    pose proof (delimiter_cell_no_tick _ Htr Hall) as Hno.
    rewrite !contains_app in Hno. simpl in Hno.
    rewrite orb_true_r in Hno. discriminate.
  - rewrite Ho.
    assert (In (a ++ repeat "`" (S n) ++ content ++ repeat "`" (S n) ++ b)
               (pad_row (ncols_of (rows t)) (split_row line))) as Hp.
    { unfold pad_row. apply in_or_app. now left. }
    destruct (padded_cells_contains _ (table_widths (rows t)) _ Hp)
      as [pad Hpad].
    { rewrite length_table_widths, length_pad_row; [lia|].
      apply ncols_of_le. eapply nth_error_In; eauto. }
    destruct (render_contains _ _ Hpad) as [x [y E]].
    rewrite E. exists (x ++ a), (b ++ pad ++ y).
    f_equal. now rewrite <- !app_assoc.
Qed.

(** ** The tokenizer as the specification describes it *)

(** The span that is open after a backtick run of length [n]: outside a
    span the run opens one and its length is kept; inside a span a run of
    the kept length closes it, and a run of another length is content. *)
Definition span_step (open : option nat) (n : nat) : option nat :=
  match open with
  | None => Some n
  | Some m => if m =? n then None else Some m
  end.

(** The cells of a row, read off the specification, on the tokens of the
    row (an escaped pipe, a maximal backtick run, a pipe, any other
    character): a pipe ends the cell when no span is open and is content
    otherwise; every other token is content; the end of the row ends the
    last cell; cells are stripped. *)
Fixpoint spec_split (open : option nat) (cur : str) (ts : list token)
  : list str :=
  match ts with
  | [] => [strip cur]
  | TPipe :: r =>
      match open with
      | None => strip cur :: spec_split None [] r
      | Some _ => spec_split open (cur ++ ["|"]) r
      end
  | TTicks n :: r => spec_split (span_step open n) (cur ++ repeat "`" n) r
  | TEsc :: r => spec_split open (cur ++ ["\"; "|"]) r
  | TChar c :: r => spec_split open (cur ++ [c]) r
  end.

(** The loop variables [in_code] and [code_tick_len] say that the span
    [open] is open. *)
Definition span_of (st : ScanState) (open : option nat) : Prop :=
  match open with
  | None => in_code st = false /\ code_tick_len st = None
  | Some m => in_code st = true /\ code_tick_len st = Some m
  end.

Lemma buf_on_ticks (st : ScanState) (n : nat) :
  buf (on_ticks st n) = buf st ++ repeat "`" n.
Proof.
  unfold on_ticks. destruct (negb (in_code st)); [reflexivity|].
  destruct (code_tick_len st) as [m|]; [|reflexivity].
  destruct (m =? n); reflexivity.
Qed.

Lemma cells_on_ticks (st : ScanState) (n : nat) :
  cells (on_ticks st n) = cells st.
Proof.
  unfold on_ticks. destruct (negb (in_code st)); [reflexivity|].
  destruct (code_tick_len st) as [m|]; [|reflexivity].
  destruct (m =? n); reflexivity.
Qed.

Lemma span_of_on_ticks (st : ScanState) (open : option nat) (n : nat) :
  span_of st open -> span_of (on_ticks st n) (span_step open n).
Proof.
  unfold on_ticks. destruct open as [m|]; simpl; intros [H1 H2];
    rewrite H1; simpl.
  - rewrite H2. destruct (m =? n); simpl; auto.
  - auto.
Qed.

Lemma span_of_push (st : ScanState) (open : option nat) (x : str) :
  span_of st open -> span_of (push st x) open.
Proof. destruct open; exact (fun H => H). Qed.

Lemma span_of_emit (st : ScanState) (open : option nat) :
  span_of st open -> span_of (emit st) open.
Proof. destruct open; exact (fun H => H). Qed.

Lemma tok_step_spec_split (ts : list token) :
  forall st open,
    span_of st open ->
    cells (emit (fold_left tok_step ts st))
    = cells st ++ spec_split open (buf st) ts.
Proof.
  induction ts as [|t ts IH]; intros st open Hs; [reflexivity|].
  cbn [fold_left]. destruct t as [|n| |c]; cbn [tok_step spec_split].
  - rewrite (IH _ open) by now apply span_of_push. reflexivity.
  - rewrite (IH _ (span_step open n)) by now apply span_of_on_ticks.
    now rewrite buf_on_ticks, cells_on_ticks.
  - destruct open as [m|]; destruct Hs as [H1 H2]; rewrite H1.
    + rewrite (IH _ (Some m)) by (split; assumption). reflexivity.
    + rewrite (IH _ None) by (split; assumption).
      cbn [emit cells buf]. now rewrite <- app_assoc.
  - rewrite (IH _ open) by now apply span_of_push. reflexivity.
Qed.

(** The span that is open when the loop has read [s]: the one the
    backtick runs of [s] leave open. *)
Lemma scan_loop_span_of (s : str) :
  forall st open,
    span_of st open ->
    span_of (scan_loop st s) (fold_left span_step (tick_runs s) open).
Proof.
  induction s as [|r IH|rest IH|r IH|c r H1 H2 H3 IH] using scan_ind;
    intros st open Hs.
  - rewrite scan_loop_equation_1. exact Hs.
  - rewrite scan_loop_escape. apply IH. now apply span_of_push.
  - rewrite scan_loop_ticks, tick_runs_ticks. cbn [fold_left].
    apply IH. now apply span_of_on_ticks.
  - rewrite scan_loop_pipe.
    change (tick_runs ("|" :: r)) with (tick_runs r).
    destruct (in_code st); apply IH;
      [now apply span_of_push | now apply span_of_emit].
  - rewrite scan_loop_other by assumption.
    assert (tick_runs (c :: r) = tick_runs r) as ->
        by (cbn [tick_runs]; now rewrite H1).
    apply IH. now apply span_of_push.
Qed.

Lemma boundary_ok_pipe (pre post : str) :
  endswith ["\"] pre = false -> boundary_ok pre ("|" :: post) = true.
Proof.
  intros H. unfold boundary_ok. rewrite H.
  destruct (endswith ["`"] pre); reflexivity.
Qed.

(** C7, counterexample.  A pipe outside every code span that is no
    separator (it follows a backslash), and a pipe after a span that is
    never closed that is in no cell (it ends the line and is removed
    before the row is scanned). *)
Lemma pipes_escaped_or_stripped :
  split_row (lit "|a\|b|c|") = [lit "a\|b"; lit "c"]
  /\ tick_runs (lit "|a\|b|c|") = []
  /\ split_row (lit "|x|`y|") = [lit "x"; lit "`y"]
  /\ in_code (scan_loop scan_init (lit "x|`y")) = true
  /\ Forall (fun c => contains "|" c = false) (split_row (lit "|x|`y|")).
Proof. repeat split; vm_compute; repeat constructor. Qed.

(** C7, as amended.  [split_row] scans the row body, the stripped line
    without one leading and one trailing pipe.  (1) Its cells are those
    of the specification on the tokens of the body: a pipe that does not
    follow a backslash ends the cell exactly when no code span is open.
    (2) The span that is open when the loop has read a string is the one
    its backtick runs leave open: outside a span a run opens one, inside
    a span only a run of the same length closes it.  (3) A pipe that does
    not follow a backslash ends the current cell when no span is open
    where the loop reaches it, and is appended to the buffer otherwise;
    when it ends the cell, the cells of the row are the cells of the part
    before the pipe followed by the cells of the part after it.  (4) A
    span that no later run of its length closes takes the whole rest of
    the body, pipes included, into the last cell.  (5) For a span with
    matching runs in a row of a detected table, the opening run, the
    content and the closing run are found as they are in the line the
    aligner returns for that row. *)
Theorem code_span_tokenization :
  (forall line,
      split_row line = spec_split None [] (lex (row_body line)))
  /\ (forall s,
        span_of (scan_loop scan_init s)
                (fold_left span_step (tick_runs s) None))
  /\ (forall pre post,
        endswith ["\"] pre = false ->
        scan_loop scan_init (pre ++ "|" :: post)
        = scan_loop (if in_code (scan_loop scan_init pre)
                     then push (scan_loop scan_init pre) ["|"]
                     else emit (scan_loop scan_init pre))
                    post)
  /\ (forall pre post,
        endswith ["\"] pre = false ->
        in_code (scan_loop scan_init pre) = false ->
        cells (emit (scan_loop scan_init (pre ++ "|" :: post)))
        = cells (emit (scan_loop scan_init pre))
          ++ cells (emit (scan_loop scan_init post)))
  /\ (forall pre rest m,
        boundary_ok pre rest = true ->
        in_code (scan_loop scan_init pre) = true ->
        code_tick_len (scan_loop scan_init pre) = Some m ->
        ~ In m (tick_runs rest) ->
        cells (emit (scan_loop scan_init (pre ++ rest)))
        = cells (scan_loop scan_init pre)
          ++ [strip (buf (scan_loop scan_init pre) ++ rest)])
  /\ (forall lines t out k line pre content post n,
        In t (find_tables lines) -> align_table t = Some out ->
        start t + k <= end_ t -> nth_error lines (start t + k) = Some line ->
        row_body line
        = pre ++ repeat "`" (S n) ++ content ++ repeat "`" (S n) ++ post ->
        in_code (scan_loop scan_init pre) = false ->
        endswith ["`"] pre = false ->
        content <> [] ->
        startswith ["`"] content = false ->
        endswith ["`"] content = false ->
        ~ In (S n) (tick_runs content) ->
        startswith ["`"] post = false ->
        exists a b,
          nth_error out k
          = Some (a ++ repeat "`" (S n) ++ content ++ repeat "`" (S n) ++ b)).
Proof.
  assert (forall pre post,
            endswith ["\"] pre = false ->
            scan_loop scan_init (pre ++ "|" :: post)
            = scan_loop (if in_code (scan_loop scan_init pre)
                         then push (scan_loop scan_init pre) ["|"]
                         else emit (scan_loop scan_init pre))
                        post) as Hpipe.
  { intros pre post H.
    rewrite (scan_loop_app pre ("|" :: post)) by now apply boundary_ok_pipe.
    rewrite scan_loop_pipe. destruct (in_code (scan_loop scan_init pre));
      reflexivity. }
  split; [|split; [|split; [|split; [|split]]]].
  - intros line. unfold split_row. rewrite scan_loop_lex.
    now rewrite (tok_step_spec_split _ scan_init None) by (split; reflexivity).
  - intros s. apply scan_loop_span_of. split; reflexivity.
  - exact Hpipe.
  - intros pre post He Hc. rewrite (Hpipe pre post He), Hc.
    set (st' := scan_loop scan_init pre) in *.
    assert (span_of (emit st') None) as Hs.
    { pose proof (scan_loop_span_of pre scan_init None
                    (conj eq_refl eq_refl)) as H.
      fold st' in H.
      destruct (fold_left span_step (tick_runs pre) None);
        destruct H as [H1 H2]; [congruence | split; assumption]. }
    rewrite !scan_loop_lex.
    rewrite (tok_step_spec_split _ (emit st') None Hs).
    rewrite (tok_step_spec_split _ scan_init None) by (split; reflexivity).
    reflexivity.
  - intros pre rest m Hb Hc Hm Hr.
    rewrite (scan_loop_app pre rest scan_init Hb).
    now rewrite (scan_loop_unterminated rest _ m Hc Hm Hr).
  - intros lines t out k line pre content post n.
    apply (span_in_output lines t out k line pre content post n).
Qed.

Lemma code_span_tokenization_witness :
  cells (emit (scan_loop scan_init (lit "a|`b" ++ lit "|c``d|e")))
  = cells (scan_loop scan_init (lit "a|`b"))
    ++ [strip (buf (scan_loop scan_init (lit "a|`b")) ++ lit "|c``d|e")]
  /\ exists a b,
       nth_error [lit "| a   | `x|y` |"; lit "| --- | ----- |"] 0
       = Some (a ++ repeat "`" 1 ++ lit "x|y" ++ repeat "`" 1 ++ b).
Proof.
  split.
  - apply (proj1 (proj2 (proj2 (proj2 (proj2 code_span_tokenization))))
             (lit "a|`b") (lit "|c``d|e") 1);
      [reflexivity | reflexivity | reflexivity |].
    vm_compute. intros [H|[]]. discriminate.
  - apply (proj2 (proj2 (proj2 (proj2 (proj2 code_span_tokenization))))
             [lit "|a|`x|y`|"; lit "|---|---|"]
             (mkTable 0 1 [[lit "a"; lit "`x|y`"]; [lit "---"; lit "---"]])
             [lit "| a   | `x|y` |"; lit "| --- | ----- |"]
             0 (lit "|a|`x|y`|") (lit "a|") (lit "x|y") [] 0).
    + vm_compute. left. reflexivity.
    + vm_compute. reflexivity.
    + simpl. lia.
    + reflexivity.
    + vm_compute. reflexivity.
    + vm_compute. reflexivity.
    + vm_compute. reflexivity.
    + discriminate.
    + vm_compute. reflexivity.
    + vm_compute. reflexivity.
    + vm_compute. intros [].
    + reflexivity.
Defined.

(** ** Scanning a cell again

    The code-span state after a string, when no pipe of the string is a
    separator. *)

Definition code := (bool * option nat)%type.

Definition code_of (st : ScanState) : code := (in_code st, code_tick_len st).

Definition code_init : code := (false, None).

Definition code_ticks (q : code) (n : nat) : code :=
  if negb (fst q) then (true, Some n)
  else match snd q with
       | Some m => if m =? n then (false, None) else q
       | None => q
       end.

Definition code_step (q : code) (t : token) : code :=
  match t with
  | TTicks n => code_ticks q n
  | _ => q
  end.

(** [Some q'] when the tokens are scanned from [q] without finishing a
    cell, [q'] being the state after them. *)
Fixpoint quiet_run (q : code) (ts : list token) : option code :=
  match ts with
  | [] => Some q
  | TPipe :: r => if fst q then quiet_run q r else None
  | t :: r => quiet_run (code_step q t) r
  end.

Definition quiet (q : code) (s : str) : option code := quiet_run q (lex s).

(** Outside a span no length is recorded. *)
Definition code_wf (q : code) : Prop := fst q = false -> snd q = None.

Lemma code_of_on_ticks (st : ScanState) (n : nat) :
  code_of (on_ticks st n) = code_ticks (code_of st) n.
Proof.
  unfold on_ticks, code_ticks, code_of. simpl.
  destruct (in_code st); simpl; [|reflexivity].
  destruct (code_tick_len st) as [m|]; [|reflexivity].
  destruct (m =? n); reflexivity.
Qed.

Lemma code_ticks_wf (q : code) (n : nat) : code_wf q -> code_wf (code_ticks q n).
Proof.
  unfold code_wf, code_ticks. intros H. destruct q as [[] tl]; simpl in *.
  - destruct tl as [m|]; simpl; [|discriminate].
    destruct (m =? n); simpl; [reflexivity | discriminate].
  - discriminate.
Qed.

Lemma code_step_wf (q : code) (t : token) : code_wf q -> code_wf (code_step q t).
Proof. destruct t; simpl; auto. apply code_ticks_wf. Qed.

Lemma quiet_run_wf (ts : list token) :
  forall q q', code_wf q -> quiet_run q ts = Some q' -> code_wf q'.
Proof.
  induction ts as [|t ts IH]; intros q q' Hq H; simpl in H.
  - now injection H as <-.
  - destruct t; try (eapply IH; [|exact H]; now apply code_step_wf).
    destruct (fst q); [eapply IH; eauto | discriminate].
Qed.

Lemma quiet_run_app (a b : list token) :
  forall q, quiet_run q (a ++ b)
            = match quiet_run q a with
              | Some q' => quiet_run q' b
              | None => None
              end.
Proof.
  induction a as [|t a IH]; intros q; simpl; [reflexivity|].
  destruct t; try apply IH.
  destruct (fst q); [apply IH | reflexivity].
Qed.

Lemma fold_quiet (ts : list token) :
  forall st q',
    quiet_run (code_of st) ts = Some q' ->
    fold_left tok_step ts st
    = mkScan (cells st) (buf st ++ flatten ts) (fst q') (snd q').
Proof.
  induction ts as [|t ts IH]; intros st q' H; simpl in H.
  - injection H as <-. destruct st. unfold flatten. simpl.
    now rewrite app_nil_r.
  - assert (forall st1, cells st1 = cells st ->
              buf st1 = buf st ++ tok_text t ->
              quiet_run (code_of st1) ts = Some q' ->
              fold_left tok_step ts st1
              = mkScan (cells st) (buf st ++ flatten (t :: ts))
                       (fst q') (snd q')) as Hstep.
    { intros st1 Hc Hb Hq. rewrite (IH st1 q' Hq), Hc, Hb.
      unfold flatten. simpl. now rewrite <- app_assoc. }
    destruct t; cbn [fold_left tok_step].
    + apply Hstep; auto.
    + apply Hstep.
      * unfold on_ticks. destruct (negb (in_code st)); [reflexivity|].
        destruct (code_tick_len st) as [m|]; [|reflexivity].
        destruct (m =? n); reflexivity.
      * unfold on_ticks. destruct (negb (in_code st)); [reflexivity|].
        destruct (code_tick_len st) as [m|]; [|reflexivity].
        destruct (m =? n); reflexivity.
      * rewrite code_of_on_ticks. exact H.
    + unfold code_of in H. simpl fst in H.
      destruct (in_code st) eqn:Hin; [|discriminate].
      apply Hstep; auto.
      unfold code_of. simpl. now rewrite Hin.
    + apply Hstep; auto.
Qed.

(** A string that is scanned without finishing a cell goes into the
    buffer as it is. *)
Lemma scan_loop_quiet (s : str) (st : ScanState) (q' : code) :
  quiet (code_of st) s = Some q' ->
  scan_loop st s = mkScan (cells st) (buf st ++ s) (fst q') (snd q').
Proof.
  intros H. rewrite scan_loop_lex, (fold_quiet _ _ _ H), flatten_lex.
  reflexivity.
Qed.

Lemma lex_spaces (ws : str) :
  forallb is_space ws = true -> lex ws = map TChar ws.
Proof.
  induction ws as [|c ws IH]; simpl; intros H; [reflexivity|].
  apply andb_prop in H. destruct H as [Hc Hws]. rewrite (IH Hws).
  unfold lex_cons.
  assert (Ascii.eqb c "`" = false) as ->.
  { destruct (Ascii.eqb_spec c "`"); [subst; discriminate | reflexivity]. }
  assert (Ascii.eqb c "|" = false) as ->.
  { destruct (Ascii.eqb_spec c "|"); [subst; discriminate | reflexivity]. }
  assert (Ascii.eqb c "\" = false) as ->.
  { destruct (Ascii.eqb_spec c "\"); [subst; discriminate | reflexivity]. }
  reflexivity.
Qed.

Lemma quiet_run_chars (cs : str) (q : code) :
  quiet_run q (map TChar cs) = Some q.
Proof. induction cs as [|c cs IH]; simpl; auto. Qed.

Lemma boundary_ok_spaces_l (ws b : str) :
  forallb is_space ws = true -> boundary_ok ws b = true.
Proof.
  intros H. destruct (list_eq_dec ascii_dec ws []) as [->|Hne]; [reflexivity|].
  destruct (exists_last Hne) as [x [c ->]].
  unfold boundary_ok. rewrite !endswith_snoc.
  rewrite forallb_app in H. apply andb_prop in H. destruct H as [_ H].
  simpl in H. rewrite andb_true_r in H.
  destruct (Ascii.eqb_spec "\" c); [subst; discriminate|].
  destruct (Ascii.eqb_spec "`" c); [subst; discriminate|].
  reflexivity.
Qed.

Lemma boundary_ok_spaces_r (a ws : str) :
  forallb is_space ws = true -> boundary_ok a ws = true.
Proof.
  intros H. unfold boundary_ok. destruct ws as [|c ws].
  - simpl. now rewrite !andb_false_r.
  - simpl in H. apply andb_prop in H. destruct H as [Hc _]. simpl.
    rewrite !andb_true_r.
    destruct (Ascii.eqb_spec "|" c); [subst; discriminate|].
    destruct (Ascii.eqb_spec "`" c); [subst; discriminate|].
    now rewrite !andb_false_r.
Qed.

Lemma quiet_spaces_l (ws s : str) (q : code) :
  forallb is_space ws = true -> quiet q (ws ++ s) = quiet q s.
Proof.
  intros H. unfold quiet.
  rewrite (lex_app ws s (boundary_ok_spaces_l ws s H)), (lex_spaces ws H).
  now rewrite quiet_run_app, quiet_run_chars.
Qed.

Lemma quiet_spaces_r (s ws : str) (q : code) :
  forallb is_space ws = true -> quiet q (s ++ ws) = quiet q s.
Proof.
  intros H. unfold quiet.
  rewrite (lex_app s ws (boundary_ok_spaces_r s ws H)), (lex_spaces ws H).
  rewrite quiet_run_app. destruct (quiet_run q (lex s)); [|reflexivity].
  apply quiet_run_chars.
Qed.

Lemma quiet_strip (s : str) (q : code) : quiet q (strip s) = quiet q s.
Proof.
  destruct (strip_split s) as [ws1 [ws2 [H1 [H2 E]]]].
  rewrite E at 2. now rewrite quiet_spaces_l, quiet_spaces_r.
Qed.

(** A cell that can be scanned again on its own: it is trimmed, none of
    its pipes is a separator, and it leaves no code span open. *)
Definition good_cell (c : str) : Prop :=
  trimmed c /\ quiet code_init c = Some code_init.

Lemma boundary_ok_snoc (x : str) (c : ascii) (b : str) :
  boundary_ok (x ++ [c]) b
  = negb (Ascii.eqb "\" c && startswith ["|"] b)
    && negb (Ascii.eqb "`" c && startswith ["`"] b).
Proof. unfold boundary_ok. now rewrite !endswith_snoc. Qed.

Lemma boundary_ok_head (a : str) (c : ascii) (x y : str) :
  boundary_ok a (c :: x) = boundary_ok a (c :: y).
Proof. reflexivity. Qed.

Lemma quiet_snoc (b x : str) (q : code) :
  quiet code_init b = Some q -> boundary_ok b x = true ->
  quiet code_init (b ++ x) = quiet_run q (lex x).
Proof.
  intros Hq Hb. unfold quiet in *.
  now rewrite (lex_app b x Hb), quiet_run_app, Hq.
Qed.

Lemma lex_repeat_ticks (n : nat) : lex (repeat "`" (S n)) = [TTicks (S n)].
Proof.
  change (repeat "`" (S n)) with ("`" :: repeat "`" n).
  rewrite lex_ticks.
  destruct (tick_run_repeat n [] eq_refl) as [H1 H2].
  rewrite app_nil_r in H1, H2. now rewrite H1, H2.
Qed.

Lemma scan_loop_good (s : str) :
  forall st,
    quiet code_init (buf st) = Some (code_of st) ->
    boundary_ok (buf st) s = true ->
    Forall good_cell (cells st) ->
    Forall good_cell (cells (scan_loop st s))
    /\ quiet code_init (buf (scan_loop st s))
       = Some (code_of (scan_loop st s)).
Proof.
  induction s as [|r IH|rest IH|r IH|c r H1 H2 H3 IH] using scan_ind;
    intros st Hq Hb Hc.
  - rewrite scan_loop_equation_1. auto.
  - rewrite scan_loop_escape. apply IH.
    + simpl buf.
      rewrite (quiet_snoc _ ["\"; "|"] _ Hq)
        by (rewrite (boundary_ok_head _ _ _ ("|" :: r)); exact Hb).
      reflexivity.
    + simpl buf.
      replace (buf st ++ ["\"; "|"]) with ((buf st ++ ["\"]) ++ ["|"])
        by now rewrite <- app_assoc.
      rewrite boundary_ok_snoc. reflexivity.
    + exact Hc.
  - rewrite scan_loop_ticks.
    assert (buf (on_ticks st (S (tick_run rest)))
            = buf st ++ repeat "`" (S (tick_run rest))) as Eb.
    { unfold on_ticks. destruct (negb (in_code st)); [reflexivity|].
      destruct (code_tick_len st) as [m|]; [|reflexivity].
      destruct (m =? S (tick_run rest)); reflexivity. }
    assert (cells (on_ticks st (S (tick_run rest))) = cells st) as Ec.
    { unfold on_ticks. destruct (negb (in_code st)); [reflexivity|].
      destruct (code_tick_len st) as [m|]; [|reflexivity].
      destruct (m =? S (tick_run rest)); reflexivity. }
    apply IH.
    + rewrite Eb. rewrite (quiet_snoc _ _ _ Hq).
      * rewrite lex_repeat_ticks, code_of_on_ticks. reflexivity.
      * simpl repeat. rewrite (boundary_ok_head _ _ _ rest). exact Hb.
    + rewrite Eb. simpl repeat. rewrite repeat_cons, app_assoc.
      rewrite boundary_ok_snoc, startswith_skipn_tick_run.
      now rewrite !andb_false_r.
    + rewrite Ec. exact Hc.
  - rewrite scan_loop_pipe. destruct (in_code st) eqn:Hin.
    + apply IH.
      * simpl buf. rewrite (quiet_snoc _ ["|"] _ Hq).
        -- simpl. unfold code_of. simpl. now rewrite Hin.
        -- rewrite (boundary_ok_head _ _ _ r). exact Hb.
      * simpl buf. rewrite boundary_ok_snoc. reflexivity.
      * exact Hc.
    + assert (code_of st = code_init) as Eq.
      { assert (code_wf code_init) as Hw0 by (intros _; reflexivity).
        pose proof (quiet_run_wf _ _ _ Hw0 Hq) as Hwf.
        unfold code_wf, code_of in *. simpl in Hwf.
        unfold code_init. now rewrite Hin, (Hwf Hin). }
      apply IH.
      * simpl. unfold code_of. simpl. fold (code_of st). now rewrite Eq.
      * reflexivity.
      * simpl. apply Forall_app. split; [exact Hc|].
        constructor; [|constructor]. split; [apply trimmed_strip|].
        now rewrite quiet_strip, Hq, Eq.
  - rewrite scan_loop_other by assumption. apply IH.
    + simpl buf. rewrite (quiet_snoc _ [c] _ Hq).
      * rewrite (lex_other c [] H1 H2) by apply andb_false_r. reflexivity.
      * rewrite (boundary_ok_head _ _ _ r). exact Hb.
    + simpl buf. rewrite boundary_ok_snoc.
      rewrite (Ascii.eqb_sym "\" c), (Ascii.eqb_sym "`" c), H3, H1.
      reflexivity.
    + exact Hc.
Qed.

(** The cells of a row: all but the last are good, and the last is
    trimmed and scans, on its own, to the state in which the scan of the
    row ends. *)
Lemma split_row_cells (line : str) :
  exists front last,
    split_row line = front ++ [last]
    /\ Forall good_cell front
    /\ trimmed last
    /\ quiet code_init last
       = Some (code_of (scan_loop scan_init (row_body line))).
Proof.
  destruct (scan_loop_good (row_body line) scan_init) as [H1 H2];
    [reflexivity | reflexivity | constructor |].
  exists (cells (scan_loop scan_init (row_body line))),
         (strip (buf (scan_loop scan_init (row_body line)))).
  repeat split; auto.
  - apply trimmed_strip.
  - now rewrite quiet_strip.
Qed.

(** ** Tokenizing a rendered row *)

Lemma spaces_are_space (k : nat) : forallb is_space (repeat " " k) = true.
Proof. induction k; simpl; auto. Qed.

Lemma row_body_render (parts : list str) :
  row_body (render parts) = " " :: join (lit " | ") parts ++ [" "].
Proof.
  unfold render.
  change (lit "| " ++ join (lit " | ") parts ++ lit " |")
    with ("|" :: (" " :: join (lit " | ") parts ++ [" "; "|"])).
  replace (" " :: join (lit " | ") parts ++ [" "; "|"])
    with ((" " :: join (lit " | ") parts ++ [" "]) ++ ["|"])
    by (simpl; now rewrite <- app_assoc).
  unfold row_body.
  rewrite (strip_nonspace_ends "|" "|") by reflexivity.
  cbn [startswith]. rewrite Ascii.eqb_refl. cbn [andb drop_first tl].
  rewrite (endswith_snoc "|" "|"), Ascii.eqb_refl.
  unfold drop_last. apply removelast_last.
Qed.

Lemma quiet_chunk (c : str) (k : nat) (q q' : code) :
  quiet q c = Some q' ->
  quiet q (" " :: (c ++ repeat " " k) ++ [" "]) = Some q'.
Proof.
  intros H.
  change (" " :: (c ++ repeat " " k) ++ [" "])
    with ([" "] ++ (c ++ repeat " " k) ++ [" "]).
  rewrite quiet_spaces_l by reflexivity.
  rewrite <- app_assoc, quiet_spaces_r; [exact H|].
  rewrite forallb_app, spaces_are_space. reflexivity.
Qed.

Lemma strip_chunk (c : str) (k : nat) :
  trimmed c -> strip (" " :: (c ++ repeat " " k) ++ [" "]) = c.
Proof.
  intros H.
  change (" " :: (c ++ repeat " " k) ++ [" "])
    with ([" "] ++ (c ++ repeat " " k) ++ [" "]).
  rewrite strip_spaces_l by reflexivity.
  rewrite <- app_assoc, strip_spaces_r; [exact H|].
  rewrite forallb_app, spaces_are_space. reflexivity.
Qed.

Lemma padded_cells_cons (c : str) (r : list str) (w : nat) (ws : list nat) :
  padded_cells (c :: r) (w :: ws) = ljust w c :: padded_cells r ws.
Proof. reflexivity. Qed.

Lemma scan_rendered (front : list str) :
  forall (last : str) (widths : list nat) (acc : list str) (q : code),
    length widths = length front + 1 ->
    Forall good_cell front -> trimmed last ->
    quiet code_init last = Some q ->
    exists b,
      scan_loop (mkScan acc [] false None)
        (" " :: join (lit " | ") (padded_cells (front ++ [last]) widths)
             ++ [" "])
      = mkScan (acc ++ front) b (fst q) (snd q)
      /\ strip b = last.
Proof.
  induction front as [|c front IH]; intros last widths acc q Hlen Hf Ht Hq.
  - destruct widths as [|w [|? ?]]; simpl in Hlen; try lia.
    change (join (lit " | ") (padded_cells ([] ++ [last]) [w]))
      with (ljust w last).
    unfold ljust.
    eexists. split.
    + rewrite (scan_loop_quiet _ _ q).
      * cbn [cells buf app]. rewrite app_nil_r. reflexivity.
      * apply quiet_chunk. exact Hq.
    + apply strip_chunk. exact Ht.
  - destruct widths as [|w ws]; simpl in Hlen; [lia|].
    inversion Hf as [|? ? [Hct Hcq] Hf']; subst.
    change ((c :: front) ++ [last]) with (c :: (front ++ [last])).
    rewrite padded_cells_cons.
    destruct (padded_cells (front ++ [last]) ws) as [|p ps] eqn:Ep.
    { exfalso. unfold padded_cells in Ep.
      apply (f_equal (@length _)) in Ep.
      rewrite length_map, length_combine, length_app in Ep. simpl in Ep. lia. }
    change (join (lit " | ") (ljust w c :: p :: ps))
      with (ljust w c ++ lit " | " ++ join (lit " | ") (p :: ps)).
    unfold ljust at 1.
    replace (" " :: ((c ++ repeat " " (w - length c)) ++ lit " | "
                      ++ join (lit " | ") (p :: ps)) ++ [" "])
      with ((" " :: (c ++ repeat " " (w - length c)) ++ [" "])
              ++ "|" :: (" " :: join (lit " | ") (p :: ps) ++ [" "])).
    2:{ unfold lit. simpl. rewrite <- !app_assoc. reflexivity. }
    rewrite scan_loop_app.
    2:{ rewrite app_comm_cons, boundary_ok_snoc. reflexivity. }
    rewrite (scan_loop_quiet
               (" " :: (c ++ repeat " " (w - length c)) ++ [" "])
               _ code_init)
      by (apply (quiet_chunk c (w - length c) code_init code_init Hcq)).
    rewrite scan_loop_pipe. cbn [in_code fst snd code_init].
    unfold emit. cbn [cells buf in_code code_tick_len app].
    rewrite strip_chunk by exact Hct.
    rewrite <- Ep.
    assert (length ws = length front + 1) as Hlen' by lia.
    destruct (IH last ws (acc ++ [c]) q Hlen' Hf' Ht Hq) as [b [E1 E2]].
    exists b. split; [|exact E2].
    rewrite E1. now rewrite <- app_assoc.
Qed.

(** Rendering cells and splitting the line again gives the cells back. *)
Lemma split_row_render (front : list str) (last : str) (widths : list nat)
  (q : code) :
  length widths = length front + 1 ->
  Forall good_cell front -> trimmed last -> quiet code_init last = Some q ->
  split_row (render (padded_cells (front ++ [last]) widths))
  = front ++ [last]
  /\ code_of (scan_loop scan_init
                (row_body (render (padded_cells (front ++ [last]) widths))))
     = q.
Proof.
  intros Hlen Hf Ht Hq. unfold split_row. rewrite row_body_render.
  destruct (scan_rendered front last widths [] q Hlen Hf Ht Hq) as [b [E1 E2]].
  unfold scan_init. rewrite E1. simpl. rewrite E2. split; [reflexivity|].
  unfold code_of. simpl. now destruct q.
Qed.

Lemma good_cell_nil : good_cell [].
Proof. split; reflexivity. Qed.

Lemma Forall_repeat {A} (P : A -> Prop) (a : A) (n : nat) :
  P a -> Forall P (repeat a n).
Proof. intros H. induction n; simpl; constructor; auto. Qed.

Lemma repeat_snoc {A} (a : A) (n : nat) : repeat a (S n) = repeat a n ++ [a].
Proof. simpl. apply repeat_cons. Qed.

(** A row is closed when the scan of its line ends outside code spans. *)
Definition closed_row (line : str) : bool :=
  negb (in_code (scan_loop scan_init (row_body line))).

Lemma closed_row_code (line : str) :
  closed_row line = true ->
  code_of (scan_loop scan_init (row_body line)) = code_init.
Proof.
  intros H. apply negb_true_iff in H.
  destruct (split_row_cells line) as [front [last [_ [_ [_ Hq]]]]].
  assert (code_wf code_init) as Hw0 by (intros _; reflexivity).
  pose proof (quiet_run_wf _ _ _ Hw0 Hq) as Hwf.
  unfold code_wf, code_of in *. simpl in Hwf.
  unfold code_init. now rewrite H, (Hwf H).
Qed.

(** The row [split_row] gives for a line, padded to [n] cells, rendered
    with any widths and split again, is the padded row, if the line is
    closed or needs no padding. *)
Lemma split_row_render_padded (line : str) (n : nat) (widths : list nat) :
  length widths = n -> length (split_row line) <= n ->
  closed_row line = true \/ length (split_row line) = n ->
  split_row (render (padded_cells (pad_row n (split_row line)) widths))
  = pad_row n (split_row line)
  /\ closed_row (render (padded_cells (pad_row n (split_row line)) widths))
     = closed_row line.
Proof.
  intros Hw Hlen Hc.
  destruct (split_row_cells line) as [front [last [E [Hf [Ht Hq]]]]].
  unfold pad_row.
  destruct (n - length (split_row line)) as [|k] eqn:Ek.
  - simpl repeat. rewrite app_nil_r, E.
    rewrite E, length_app in Hlen, Ek. simpl in Hlen, Ek.
    destruct (split_row_render front last widths _ ltac:(lia) Hf Ht Hq)
      as [H1 H2].
    split; [exact H1|]. unfold closed_row, code_of in *.
    injection H2 as H2 _. now rewrite H2.
  - destruct Hc as [Hc|Hc]; [|lia].
    pose proof (closed_row_code line Hc) as Hcode. rewrite Hcode in Hq.
    rewrite repeat_snoc, app_assoc.
    assert (Forall good_cell (split_row line ++ repeat [] k)) as Hgood.
    { apply Forall_app. split.
      - rewrite E. apply Forall_app. split; [exact Hf|].
        constructor; [split; assumption | constructor].
      - apply Forall_repeat. apply good_cell_nil. }
    destruct (split_row_render (split_row line ++ repeat [] k) [] widths
                code_init) as [H1 H2]; auto.
    { rewrite length_app, repeat_length. lia. }
    { reflexivity. }
    split; [exact H1|]. rewrite Hc. unfold closed_row, code_of in *.
    injection H2 as H2 _. apply negb_true_iff. exact H2.
Qed.

(** *** The delimiter row *)

Definition plain_char (c : ascii) : bool :=
  negb (is_space c) && negb (Ascii.eqb c "`") && negb (Ascii.eqb c "|")
  && negb (Ascii.eqb c "\").

Lemma lex_plain (s : str) : forallb plain_char s = true -> lex s = map TChar s.
Proof.
  induction s as [|c s IH]; simpl; intros H; [reflexivity|].
  apply andb_prop in H. destruct H as [Hc Hs]. rewrite (IH Hs).
  unfold plain_char in Hc.
  apply andb_prop in Hc. destruct Hc as [Hc H4].
  apply andb_prop in Hc. destruct Hc as [Hc H3].
  apply andb_prop in Hc. destruct Hc as [_ H2].
  apply negb_true_iff in H2, H3, H4.
  unfold lex_cons. now rewrite H2, H3, H4.
Qed.

Lemma trimmed_plain (s : str) : forallb plain_char s = true -> trimmed s.
Proof.
  intros H. destruct (list_eq_dec ascii_dec s []) as [->|Hne]; [reflexivity|].
  assert (forall c, In c s -> is_space c = false) as Hsp.
  { intros c Hc. rewrite forallb_forall in H. specialize (H c Hc).
    unfold plain_char in H. rewrite !andb_true_iff in H.
    destruct H as [[[H _] _] _]. now apply negb_true_iff in H. }
  destruct s as [|c s]; [congruence|].
  destruct (list_eq_dec ascii_dec s []) as [->|Hne'].
  - unfold trimmed, strip. rewrite lstrip_fix by (apply Hsp; now left).
    apply (rstrip_snoc_fix [] c). apply Hsp. now left.
  - destruct (exists_last Hne') as [m [d ->]].
    apply strip_nonspace_ends; apply Hsp; [now left|].
    right. apply in_or_app. right. now left.
Qed.

Lemma good_cell_plain (s : str) : forallb plain_char s = true -> good_cell s.
Proof.
  intros H. split; [now apply trimmed_plain|].
  unfold quiet. rewrite (lex_plain s H). apply quiet_run_chars.
Qed.

Lemma forallb_tl {A} (f : A -> bool) (l : list A) :
  forallb f l = true -> forallb f (tl l) = true.
Proof.
  destruct l; simpl; [auto|]. intros H. apply andb_prop in H. tauto.
Qed.

Lemma forallb_removelast {A} (f : A -> bool) (l : list A) :
  forallb f l = true -> forallb f (removelast l) = true.
Proof.
  induction l as [|a l IH]; [auto|]. destruct l as [|b l]; [reflexivity|].
  intros H. change (removelast (a :: b :: l)) with (a :: removelast (b :: l)).
  simpl in H. apply andb_prop in H. destruct H as [Ha Hl].
  simpl forallb at 1. rewrite Ha. apply IH. exact Hl.
Qed.

Lemma delimiter_core_plain (l r : bool) (w : nat) :
  forallb plain_char (delimiter_core l r w) = true.
Proof.
  unfold delimiter_core.
  assert (forallb plain_char (repeat "-" w) = true) as H0.
  { induction w; simpl; auto. }
  assert (forallb plain_char
            (if l then ":" :: drop_first (repeat "-" w) else repeat "-" w)
          = true) as H1.
  { destruct l; [|exact H0]. simpl.
    now apply (forallb_tl plain_char (repeat "-" w)). }
  destruct r; [|exact H1].
  rewrite forallb_app. unfold drop_last.
  rewrite (forallb_removelast _ _ H1). reflexivity.
Qed.

Lemma delimiter_core_shape (l r : bool) (k : nat) :
  delimiter_core l r (S (S k))
  = ((if l then ":" else "-") :: repeat "-" k) ++ [if r then ":" else "-"].
Proof.
  unfold delimiter_core, drop_first, drop_last.
  assert ((if l then ":" :: tl (repeat "-" (S (S k))) else repeat "-" (S (S k)))
          = ((if l then ":" else "-") :: repeat "-" k) ++ ["-"]) as ->.
  { change (tl (repeat "-" (S (S k)))) with (repeat "-" (S k)).
    change (repeat "-" (S (S k))) with ("-" :: repeat "-" (S k)).
    rewrite repeat_snoc. destruct l; reflexivity. }
  destruct r; [|reflexivity]. now rewrite removelast_last.
Qed.

Lemma length_delimiter_core (l r : bool) (w : nat) :
  2 <= w -> length (delimiter_core l r w) = w.
Proof.
  intros Hw. destruct w as [|[|k]]; try lia.
  rewrite delimiter_core_shape, length_app. simpl. rewrite repeat_length. lia.
Qed.

Lemma align_of_delimiter_core (l r : bool) (w : nat) :
  2 <= w -> align_of (delimiter_core l r w) = (l, r).
Proof.
  intros Hw. unfold align_of.
  rewrite (trimmed_plain _ (delimiter_core_plain l r w)).
  destruct w as [|[|k]]; try lia.
  rewrite delimiter_core_shape, endswith_snoc.
  destruct l, r; reflexivity.
Qed.

Lemma padded_cells_self (cs : list str) :
  padded_cells cs (map (@length ascii) cs) = cs.
Proof.
  induction cs as [|c cs IH]; [reflexivity|].
  simpl map. rewrite padded_cells_cons, IH. unfold ljust.
  now rewrite Nat.sub_diag, app_nil_r.
Qed.

(** Good cells rendered without padding split into themselves. *)
Lemma split_row_render_good (cs : list str) :
  cs <> [] -> Forall good_cell cs ->
  split_row (render cs) = cs /\ closed_row (render cs) = true.
Proof.
  intros Hne Hg. destruct (exists_last Hne) as [front [last ->]].
  apply Forall_app in Hg. destruct Hg as [Hf Hl].
  inversion Hl as [|? ? [Ht Hq] _]; subst.
  destruct (split_row_render front last
              (map (@length ascii) (front ++ [last])) code_init)
    as [H1 H2]; auto.
  { rewrite length_map, length_app. simpl. lia. }
  rewrite padded_cells_self in H1, H2.
  split; [exact H1|]. unfold closed_row, code_of in *.
  injection H2 as H2 _. apply negb_true_iff. exact H2.
Qed.

Lemma delimiter_cells_good (aligns : list (bool * bool)) (widths : list nat) :
  Forall good_cell (delimiter_cells aligns widths).
Proof.
  unfold delimiter_cells. apply Forall_forall. intros c Hc.
  apply in_map_iff in Hc. destruct Hc as [p [<- _]].
  apply good_cell_plain, delimiter_core_plain.
Qed.

Lemma length_delimiter_cells (aligns : list (bool * bool)) (widths : list nat) :
  length aligns = length widths ->
  length (delimiter_cells aligns widths) = length widths.
Proof.
  intros H. unfold delimiter_cells. rewrite length_map, length_combine. lia.
Qed.

Lemma length_padded_cells (r : list str) (widths : list nat) :
  length r = length widths -> length (padded_cells r widths) = length widths.
Proof.
  intros H. unfold padded_cells. rewrite length_map, length_combine. lia.
Qed.

(** *** Column widths *)

(** The rows of a table without its second row. *)
Definition except_second (rs : list (list str)) : list (list str) :=
  match rs with
  | r0 :: _ :: rest => r0 :: rest
  | _ => rs
  end.

Fixpoint except_row1 (ridx : nat) (rs : list (list str)) : list (list str) :=
  match rs with
  | [] => []
  | r :: rs' =>
      if ridx =? 1 then except_row1 (S ridx) rs'
      else r :: except_row1 (S ridx) rs'
  end.

Lemma except_row1_from2 (rs : list (list str)) (ridx : nat) :
  2 <= ridx -> except_row1 ridx rs = rs.
Proof.
  revert ridx. induction rs as [|r rs IH]; intros ridx H; [reflexivity|].
  simpl. destruct (Nat.eqb_spec ridx 1); [lia|]. rewrite IH by lia. reflexivity.
Qed.

Lemma except_row1_0 (rs : list (list str)) :
  except_row1 0 rs = except_second rs.
Proof.
  destruct rs as [|r0 [|r1 rest]]; try reflexivity.
  simpl. now rewrite except_row1_from2 by lia.
Qed.

Lemma except_row1_map (f : list str -> list str) (rs : list (list str)) :
  forall ridx, except_row1 ridx (map f rs) = map f (except_row1 ridx rs).
Proof.
  induction rs as [|r rs IH]; intros ridx; simpl; [reflexivity|].
  destruct (ridx =? 1); simpl; now rewrite IH.
Qed.

Lemma widths_pure_fold (rs : list (list str)) :
  forall ridx ws,
    widths_pure ridx rs ws
    = fold_left widen_pure (except_row1 ridx rs) ws.
Proof.
  induction rs as [|r rs IH]; intros ridx ws; simpl; [reflexivity|].
  destruct (ridx =? 1); simpl; apply IH.
Qed.

Lemma nth_widen_pure (r : list str) :
  forall ws j, j < length ws ->
    nth j (widen_pure ws r) 0 = Nat.max (nth j ws 0) (length (nth j r [])).
Proof.
  induction r as [|c r IH]; intros ws j Hj.
  - destruct ws; simpl; destruct j; simpl; lia.
  - destruct ws as [|w ws]; simpl in Hj; [lia|].
    destruct j as [|j]; simpl; [reflexivity|]. apply IH. lia.
Qed.

Lemma nth_fold_widen (rs : list (list str)) :
  forall ws j, j < length ws ->
    nth j (fold_left widen_pure rs ws) 0
    = fold_left Nat.max (map (fun r => length (nth j r [])) rs) (nth j ws 0).
Proof.
  induction rs as [|r rs IH]; intros ws j Hj; simpl; [reflexivity|].
  rewrite IH by (rewrite length_widen_pure; exact Hj).
  now rewrite nth_widen_pure.
Qed.

Lemma fold_left_max_list_max (l : list nat) :
  forall a, fold_left Nat.max l a = Nat.max a (list_max l).
Proof.
  induction l as [|x l IH]; intros a; simpl; [lia|]. rewrite IH. lia.
Qed.

Lemma nth_pad_row (n j : nat) (r : list str) :
  nth j (pad_row n r) [] = nth j r [].
Proof.
  unfold pad_row. destruct (Nat.lt_ge_cases j (length r)) as [H|H].
  - now rewrite app_nth1.
  - rewrite app_nth2 by exact H. rewrite (nth_overflow r) by exact H.
    destruct (Nat.lt_ge_cases (j - length r) (n - length r)) as [H'|H'].
    + now rewrite nth_repeat_lt.
    + apply nth_overflow. now rewrite repeat_length.
Qed.

(** The width of column [j]: 3 or the longest cell of the column outside
    the delimiter row, whichever is larger. *)
Lemma nth_table_widths (rs : list (list str)) (j : nat) :
  j < ncols_of rs ->
  nth j (table_widths rs) 0
  = Nat.max 3 (list_max (map (fun r => length (nth j r []))
                             (except_second rs))).
Proof.
  intros Hj. unfold table_widths.
  rewrite (nth_indep _ 0 (Nat.max 0 3))
    by (rewrite length_map, length_widths_pure, repeat_length; exact Hj).
  rewrite (map_nth (fun w => Nat.max w 3)).
  rewrite widths_pure_fold, except_row1_map, except_row1_0.
  rewrite nth_fold_widen by (rewrite repeat_length; exact Hj).
  rewrite nth_repeat_lt by exact Hj.
  rewrite map_map, fold_left_max_list_max.
  rewrite (map_ext (fun r => length (nth j (pad_row (ncols_of rs) r) []))
                   (fun r => length (nth j r [])))
    by (intros r; now rewrite nth_pad_row).
  rewrite Nat.max_0_l. apply Nat.max_comm.
Qed.

Lemma table_widths_ge3 (rs : list (list str)) :
  Forall (fun w => 3 <= w) (table_widths rs).
Proof.
  unfold table_widths. apply Forall_forall. intros w Hw.
  apply in_map_iff in Hw. destruct Hw as [x [<- _]]. lia.
Qed.

Lemma in_except_second (rs : list (list str)) (k : nat) (r : list str) :
  k <> 1 -> nth_error rs k = Some r -> In r (except_second rs).
Proof.
  intros Hk Hr. destruct rs as [|r0 [|r1 rest]].
  - destruct k; discriminate.
  - eapply nth_error_In; eauto.
  - destruct k as [|[|k]]; [| lia |].
    + injection Hr as ->. now left.
    + right. simpl in Hr. eapply nth_error_In; eauto.
Qed.

Lemma list_max_ge (l : list nat) (x : nat) : In x l -> x <= list_max l.
Proof.
  intros H. pose proof (proj1 (list_max_le l (list_max l)) (le_n _)) as Hf.
  rewrite Forall_forall in Hf. now apply Hf.
Qed.

Lemma cell_le_width (rs : list (list str)) (k j : nat) (r : list str) :
  k <> 1 -> nth_error rs k = Some r -> j < ncols_of rs ->
  length (nth j r []) <= nth j (table_widths rs) 0.
Proof.
  intros Hk Hr Hj. rewrite nth_table_widths by exact Hj.
  apply (in_except_second rs k r Hk) in Hr.
  assert (length (nth j r [])
          <= list_max (map (fun r => length (nth j r [])) (except_second rs))).
  { apply list_max_ge. apply in_map_iff. exists r. auto. }
  lia.
Qed.

Lemma nth_error_padded_cells (r : list str) :
  forall (widths : list nat) (j : nat) (p : str),
    nth_error (padded_cells r widths) j = Some p ->
    p = ljust (nth j widths 0) (nth j r []) /\ j < length r.
Proof.
  induction r as [|c r IH]; intros widths j p H.
  - destruct j; discriminate.
  - destruct widths as [|w ws]; [destruct j; discriminate|].
    rewrite padded_cells_cons in H. destruct j as [|j]; simpl in H.
    + injection H as <-. split; [reflexivity | simpl; lia].
    + destruct (IH ws j p H) as [H1 H2]. split; [exact H1 | simpl; lia].
Qed.

Lemma nth_error_delimiter_cells (aligns : list (bool * bool)) :
  forall (widths : list nat) (j : nat) (p : str),
    nth_error (delimiter_cells aligns widths) j = Some p ->
    exists l r, p = delimiter_core l r (nth j widths 0).
Proof.
  induction aligns as [|a aligns IH]; intros widths j p H.
  - destruct j; discriminate.
  - destruct widths as [|w ws]; [destruct j; discriminate|].
    destruct j as [|j]; simpl in H.
    + injection H as <-. eauto.
    + apply (IH ws j p H).
Qed.

Lemma length_ljust (w : nat) (c : str) : length c <= w -> length (ljust w c) = w.
Proof. intros H. unfold ljust. rewrite length_app, repeat_length. lia. Qed.

Lemma length_table_aligns (rs : list (list str)) :
  2 <= length rs -> length (table_aligns rs) = ncols_of rs.
Proof.
  intros H. unfold table_aligns. rewrite length_map.
  pose proof (padded_rows_length rs) as Hp. rewrite Forall_forall in Hp.
  apply Hp. apply nth_In. rewrite length_map. lia.
Qed.

(** ** Columns of an aligned table *)

(** C8, counterexample.  The third row has two cells and leaves a code
    span open; padded to three cells and rendered, it splits again into
    two cells only. *)
Lemma padded_open_span_row_two_cells :
  find_tables [lit "|a|b|c|"; lit "|---|---|---|"; lit "|x|`y"]
  = [mkTable 0 2 [[lit "a"; lit "b"; lit "c"];
                  [lit "---"; lit "---"; lit "---"];
                  [lit "x"; lit "`y"]]]
  /\ max_of (map (@length str) [[lit "a"; lit "b"; lit "c"];
                                [lit "---"; lit "---"; lit "---"];
                                [lit "x"; lit "`y"]]) = Some 3
  /\ align_table (mkTable 0 2 [[lit "a"; lit "b"; lit "c"];
                               [lit "---"; lit "---"; lit "---"];
                               [lit "x"; lit "`y"]])
     = Some [lit "| a   | b   | c   |"; lit "| --- | --- | --- |";
             lit "| x   | `y  |     |"]
  /\ split_row (lit "| x   | `y  |     |") = [lit "x"; lit "`y  |"].
Proof. repeat split; vm_compute; reflexivity. Qed.

(** C8, as amended.  For every detected table that is aligned: [ncols] is
    the maximum cell count over all rows; column [j] has the width
    [max(3, longest cell of column j over all rows except the delimiter
    row)], a missing cell counting as empty; every output row, the
    delimiter row included, is [render] of exactly [ncols] cells, cell [j]
    having exactly the width of column [j]; a row other than the delimiter
    row renders its own cells padded with empty cells to [ncols]; and the
    output row splits again into exactly [ncols] cells when it is the
    delimiter row, when its source row had [ncols] cells, or when its
    source row does not end inside a code span. *)
Theorem aligned_table_columns (lines : list str) (t : Table) (out : list str) :
  In t (find_tables lines) -> align_table t = Some out ->
  exists ncols widths,
    max_of (map (@length str) (rows t)) = Some ncols
    /\ length widths = ncols
    /\ (forall j, j < ncols ->
          nth j widths 0
          = Nat.max 3 (list_max (map (fun r => length (nth j r []))
                                     (except_second (rows t)))))
    /\ forall k line,
         start t + k <= end_ t -> nth_error lines (start t + k) = Some line ->
         exists parts,
           nth_error out k = Some (render parts)
           /\ length parts = ncols
           /\ (forall j p, nth_error parts j = Some p ->
                           length p = nth j widths 0)
           /\ (k <> 1 ->
               parts = padded_cells (pad_row ncols (split_row line)) widths)
           /\ (k = 1 \/ length (split_row line) = ncols
               \/ closed_row line = true ->
               length (split_row (render parts)) = ncols).
Proof.
  intros Hin Ha.
  pose proof (find_tables_ok lines t Hin) as Hok.
  destruct (align_table_some t out Ha) as [H2 _].
  assert (rows t <> []) as Hne
      by (destruct (rows t); simpl in H2; [lia | discriminate]).
  pose proof (table_ncols lines t Hok H2) as Hn.
  exists (ncols_of (rows t)), (table_widths (rows t)).
  split; [now apply max_of_ncols|].
  split; [apply length_table_widths|].
  split; [intros j Hj; now apply nth_table_widths|].
  intros k line Hk Hl.
  destruct (aligned_line_of_row lines t out k line Hin Ha Hk Hl) as [Hr Ho].
  assert (length (split_row line) <= ncols_of (rows t)) as Hle.
  { apply ncols_of_le. eapply nth_error_In; eauto. }
  destruct (Nat.eqb_spec k 1) as [->|Hk1].
  - exists (delimiter_cells (table_aligns (rows t)) (table_widths (rows t))).
    assert (length (delimiter_cells (table_aligns (rows t))
                                    (table_widths (rows t)))
            = ncols_of (rows t)) as Hlen.
    { rewrite length_delimiter_cells; [apply length_table_widths|].
      now rewrite length_table_aligns, length_table_widths. }
    split; [exact Ho|]. split; [exact Hlen|]. split; [|split].
    + intros j p Hp.
      destruct (nth_error_delimiter_cells _ _ _ _ Hp) as [l [r ->]].
      apply length_delimiter_core.
      assert (j < length (table_widths (rows t))) as Hj.
      { rewrite length_table_widths, <- Hlen. apply nth_error_Some. congruence. }
      pose proof (table_widths_ge3 (rows t)) as Hge.
      rewrite Forall_forall in Hge.
      specialize (Hge _ (nth_In _ 0 Hj)). lia.
    + congruence.
    + intros _.
      destruct (split_row_render_good
                  (delimiter_cells (table_aligns (rows t))
                                   (table_widths (rows t)))) as [E _].
      * intros E. rewrite E in Hlen. simpl in Hlen. lia.
      * apply delimiter_cells_good.
      * now rewrite E.
  - exists (padded_cells (pad_row (ncols_of (rows t)) (split_row line))
                         (table_widths (rows t))).
    assert (length (pad_row (ncols_of (rows t)) (split_row line))
            = length (table_widths (rows t))) as Hpl.
    { now rewrite length_pad_row, length_table_widths. }
    split; [exact Ho|].
    split; [rewrite length_padded_cells, length_table_widths; auto|].
    split; [|split].
    + intros j p Hp.
      destruct (nth_error_padded_cells _ _ _ _ Hp) as [-> Hj].
      apply length_ljust. rewrite nth_pad_row.
      apply (cell_le_width (rows t) k j (split_row line) Hk1 Hr).
      rewrite Hpl, length_table_widths in Hj. exact Hj.
    + reflexivity.
    + intros [Hc|Hc]; [contradiction|].
      destruct (split_row_render_padded line (ncols_of (rows t))
                  (table_widths (rows t))) as [E _].
      * apply length_table_widths.
      * exact Hle.
      * tauto.
      * rewrite E. now apply length_pad_row.
Qed.

Lemma aligned_table_columns_witness :
  exists (ncols : nat) (widths : list nat),
    max_of (map (@length str)
                [[lit "a"; lit "bb"]; [lit "---"; lit "---"];
                 [lit "1"; lit "22"]]) = Some ncols
    /\ length widths = ncols.
Proof.
  destruct (aligned_table_columns
              [lit "|a|bb|"; lit "|---|---|"; lit "|1|22|"]
              (mkTable 0 2 [[lit "a"; lit "bb"]; [lit "---"; lit "---"];
                            [lit "1"; lit "22"]])
              [lit "| a   | bb  |"; lit "| --- | --- |"; lit "| 1   | 22  |"])
    as [ncols [widths [H1 [H2 _]]]].
  - vm_compute. left. reflexivity.
  - vm_compute. reflexivity.
  - exists ncols, widths. split; assumption.
Defined.

(** ** Aligning an aligned table *)

Definition replace_second {A} (l : list A) (x : A) : list A :=
  match l with
  | a :: _ :: r => a :: x :: r
  | _ => l
  end.

Lemma pad_row_full (n : nat) (r : list str) : length r = n -> pad_row n r = r.
Proof.
  intros H. unfold pad_row. rewrite H, Nat.sub_diag. apply app_nil_r.
Qed.

Lemma ncols_of_const (rs : list (list str)) (n : nat) :
  rs <> [] -> Forall (fun r => length r = n) rs -> ncols_of rs = n.
Proof.
  intros Hne H. destruct rs as [|r rs]; [congruence|].
  inversion H as [|? ? Hr Hrs]; subst. simpl.
  apply Nat.le_antisymm.
  - apply fold_left_max_lub; [lia|]. apply Forall_map.
    eapply Forall_impl; [|exact Hrs]. simpl. intros; lia.
  - apply fold_left_max_le.
Qed.

Lemma map_pad_row_full (rs : list (list str)) (n : nat) :
  Forall (fun r => length r = n) rs -> map (pad_row n) rs = rs.
Proof.
  induction 1 as [|r rs Hr _ IH]; simpl; [reflexivity|].
  now rewrite pad_row_full, IH.
Qed.

Lemma render_pure_row1 (rs : list (list str)) aligns widths :
  forall ridx, 2 <= ridx ->
    map split_row (render_pure ridx rs aligns widths)
    = map (fun r => split_row (render (padded_cells r widths))) rs.
Proof.
  induction rs as [|r rs IH]; intros ridx H; simpl; [reflexivity|].
  destruct (Nat.eqb_spec ridx 1); [lia|]. now rewrite IH by lia.
Qed.

Lemma render_pure_replace_second (rs : list (list str)) (d : list str)
  aligns widths :
  render_pure 0 (replace_second rs d) aligns widths
  = render_pure 0 rs aligns widths.
Proof. destruct rs as [|r0 [|r1 rest]]; reflexivity. Qed.

Lemma except_second_replace (rs : list (list str)) (d : list str) :
  except_second (replace_second rs d) = except_second rs.
Proof. destruct rs as [|r0 [|r1 rest]]; reflexivity. Qed.

Lemma map_align_of_delimiter_cells (aligns : list (bool * bool)) :
  forall widths,
    length aligns = length widths -> Forall (fun w => 3 <= w) widths ->
    map align_of (delimiter_cells aligns widths) = aligns.
Proof.
  induction aligns as [|[l r] aligns IH]; intros widths Hlen Hw.
  - reflexivity.
  - destruct widths as [|w ws]; [discriminate|].
    inversion Hw; subst. simpl in Hlen. injection Hlen as Hlen.
    unfold delimiter_cells. simpl.
    rewrite align_of_delimiter_core by lia. f_equal.
    apply IH; assumption.
Qed.

(** The rows obtained by splitting the aligned lines of a table: the
    padded rows, with the re-synthesised delimiter cells as second row. *)
Lemma split_aligned_lines (span : list str) :
  2 <= length span ->
  (forall l, In l span ->
     closed_row l = true
     \/ length (split_row l) = ncols_of (map split_row span)) ->
  map split_row (aligned_lines (map split_row span))
  = replace_second
      (map (pad_row (ncols_of (map split_row span))) (map split_row span))
      (delimiter_cells (table_aligns (map split_row span))
                       (table_widths (map split_row span))).
Proof.
  intros H2 Hc.
  set (rs := map split_row span) in *.
  assert (forall l, In l span ->
            split_row (render (padded_cells (pad_row (ncols_of rs) (split_row l))
                                            (table_widths rs)))
            = pad_row (ncols_of rs) (split_row l)) as Hrow.
  { intros l Hl.
    apply split_row_render_padded.
    - apply length_table_widths.
    - apply ncols_of_le. unfold rs. now apply in_map.
    - now apply Hc. }
  unfold aligned_lines.
  destruct span as [|l0 [|l1 span']]; simpl in H2; try lia.
  change (map (pad_row (ncols_of rs)) rs)
    with (pad_row (ncols_of rs) (split_row l0)
          :: pad_row (ncols_of rs) (split_row l1)
          :: map (pad_row (ncols_of rs)) (map split_row span')).
  cbn [map render_pure Nat.eqb replace_second].
  f_equal; [apply Hrow; now left|]. f_equal.
  - destruct (split_row_render_good
                (delimiter_cells (table_aligns rs) (table_widths rs)))
      as [E _]; [| apply delimiter_cells_good | exact E].
    intros E.
    assert (length (delimiter_cells (table_aligns rs) (table_widths rs))
            = ncols_of rs) as Hlen.
    { rewrite length_delimiter_cells; [apply length_table_widths|].
      rewrite length_table_aligns, length_table_widths; [reflexivity|].
      unfold rs. simpl. lia. }
    rewrite E in Hlen. cbn [length] in Hlen.
    assert (1 <= ncols_of rs); [|lia].
    pose proof (split_row_length_pos l0).
    assert (length (split_row l0) <= ncols_of rs); [|lia].
    apply ncols_of_le. unfold rs. now left.
  - rewrite render_pure_row1 by lia.
    rewrite !map_map. apply map_ext_in. intros l Hl.
    apply Hrow. now right; right.
Qed.

Lemma aligned_lines_replace_second (rs : list (list str)) :
  2 <= length rs ->
  aligned_lines
    (replace_second (map (pad_row (ncols_of rs)) rs)
       (delimiter_cells (table_aligns rs) (table_widths rs)))
  = aligned_lines rs.
Proof.
  intros H2.
  set (n := ncols_of rs).
  set (D := delimiter_cells (table_aligns rs) (table_widths rs)).
  set (prs := map (pad_row n) rs).
  assert (length D = n) as HD.
  { unfold D. rewrite length_delimiter_cells; [apply length_table_widths|].
    now rewrite length_table_aligns, length_table_widths. }
  assert (Forall (fun r => length r = n) (replace_second prs D)) as Hall.
  { pose proof (padded_rows_length rs) as Hp. fold n in Hp. fold prs in Hp.
    destruct prs as [|r0 [|r1 rest]]; simpl; auto.
    inversion Hp as [|? ? H0 Hp']; subst. inversion Hp'; subst.
    repeat constructor; auto. }
  assert (replace_second prs D <> []) as Hne.
  { unfold prs. destruct rs as [|r0 [|r1 rest]]; simpl in *; try lia.
    discriminate. }
  assert (nth 1 (replace_second prs D) [] = D) as Hnth.
  { unfold prs. destruct rs as [|r0 [|r1 rest]]; simpl in *; try lia.
    reflexivity. }
  assert (table_widths (replace_second prs D) = table_widths rs) as HW.
  { unfold table_widths. rewrite (ncols_of_const _ n Hne Hall).
    rewrite (map_pad_row_full _ n Hall). fold n. fold prs.
    now rewrite !widths_pure_fold, !except_row1_0, except_second_replace. }
  unfold aligned_lines at 1.
  rewrite HW. unfold table_aligns.
  rewrite (ncols_of_const _ n Hne Hall), (map_pad_row_full _ n Hall), Hnth.
  unfold D at 2. rewrite map_align_of_delimiter_cells.
  - rewrite render_pure_replace_second. reflexivity.
  - now rewrite length_table_aligns, length_table_widths.
  - apply table_widths_ge3.
Qed.

(** Aligning the rows of the aligned lines gives the aligned lines. *)
Lemma aligned_lines_idem (span : list str) :
  2 <= length span ->
  (forall l, In l span ->
     closed_row l = true
     \/ length (split_row l) = ncols_of (map split_row span)) ->
  aligned_lines (map split_row (aligned_lines (map split_row span)))
  = aligned_lines (map split_row span).
Proof.
  intros H2 Hc. rewrite (split_aligned_lines span H2 Hc).
  apply aligned_lines_replace_second. now rewrite length_map.
Qed.

(** ** The aligned document *)

(** The document after the tables [ts] have been applied, from line [i]
    on, [rest] being the lines of the input from [i] on. *)
Fixpoint rewrite_from (i : nat) (rest : list str) (ts : list Table)
  : list str :=
  match ts with
  | [] => rest
  | t :: ts' =>
      firstn (start t - i) rest
      ++ (if 2 <=? length (rows t) then aligned_lines (rows t)
          else firstn (end_ t + 1 - start t) (skipn (start t - i) rest))
      ++ rewrite_from (end_ t + 1) (skipn (end_ t + 1 - i) rest) ts'
  end.

(** The table that is found in the aligned document where [t] was found
    in the input. *)
Definition retok (t : Table) : Table :=
  if 2 <=? length (rows t)
  then mkTable (start t) (end_ t) (map split_row (aligned_lines (rows t)))
  else t.

Abbreviation applied lines ts :=
  (fold_right (fun t l => apply_table l t) lines ts).

Lemma chain_applied (lines : list str) (i : nat) (ts : list Table) :
  chain lines i ts ->
  length (applied lines ts) = length lines
  /\ firstn i (applied lines ts) = firstn i lines.
Proof.
  intros Hc. destruct (process_tables_spec lines i ts Hc false) as [_ H].
  exact H.
Qed.

Lemma skipn_firstn_slice {A} (l : list A) (a b : nat) :
  skipn a (firstn b l) = slice l a b.
Proof. unfold slice. apply skipn_firstn_comm. Qed.

Lemma slice_app_mid {A} (l : list A) (a b c : nat) :
  a <= b -> b <= c -> slice l a b ++ slice l b c = slice l a c.
Proof.
  intros H1 H2. unfold slice.
  replace (c - a) with ((b - a) + (c - b)) by lia.
  rewrite <- (firstn_skipn (b - a) (firstn (b - a + (c - b)) (skipn a l))).
  f_equal.
  - rewrite firstn_firstn. f_equal. lia.
  - rewrite skipn_firstn_comm, skipn_skipn. f_equal; [lia|]. f_equal. lia.
Qed.

Lemma applied_rewrite (lines : list str) (i : nat) (ts : list Table) :
  chain lines i ts ->
  skipn i (applied lines ts) = rewrite_from i (skipn i lines) ts.
Proof.
  induction 1 as [i|i t ts Hi Hok Hc IH]; [reflexivity|].
  destruct (chain_applied lines _ ts Hc) as [Hlen Hpre].
  pose proof (ok_end _ _ Hok) as He. pose proof (ok_bound _ _ Hok) as Hb.
  cbn [fold_right rewrite_from].
  remember (applied lines ts) as L eqn:EL. clear EL.
  replace (skipn (end_ t + 1 - i) (skipn i lines))
    with (skipn (end_ t + 1) lines)
    by (rewrite skipn_skipn; f_equal; lia).
  rewrite <- IH.
  change (firstn (start t - i) (skipn i lines)) with (slice lines i (start t)).
  unfold apply_table.
  destruct (length (rows t) <? 2) eqn:El.
  - apply Nat.ltb_lt in El.
    assert ((2 <=? length (rows t)) = false) as -> by (apply Nat.leb_gt; lia).
    replace (skipn (start t - i) (skipn i lines))
      with (skipn (start t) lines)
      by (rewrite skipn_skipn; f_equal; lia).
    change (firstn (end_ t + 1 - start t) (skipn (start t) lines))
      with (slice lines (start t) (end_ t + 1)).
    rewrite app_assoc, slice_app_mid by lia.
    rewrite <- (firstn_skipn (end_ t + 1) L) at 1.
    rewrite skipn_app, length_firstn, Hpre, skipn_firstn_slice.
    replace (i - Nat.min (end_ t + 1) (length L)) with 0 by lia.
    reflexivity.
  - apply Nat.ltb_ge in El.
    assert ((2 <=? length (rows t)) = true) as -> by now apply Nat.leb_le.
    unfold splice. rewrite Nat.max_r by lia.
    rewrite skipn_app, length_firstn.
    replace (i - Nat.min (start t) (length L)) with 0 by lia.
    simpl skipn at 2.
    rewrite (firstn_le_eq _ _ (start t) (end_ t + 1) ltac:(lia) Hpre).
    now rewrite skipn_firstn_slice.
Qed.

Lemma slice_splice_same {A} (l new : list A) (a b : nat) :
  a <= b -> a <= length l -> length new = b - a ->
  slice (splice l a b new) a b = new.
Proof.
  intros H1 H2 H3. unfold slice, splice.
  rewrite skipn_app, length_firstn.
  replace (a - Nat.min a (length l)) with 0 by lia.
  rewrite skipn_all2 by (rewrite length_firstn; lia).
  simpl. rewrite firstn_app, H3, Nat.sub_diag. simpl.
  rewrite app_nil_r. apply firstn_all2. lia.
Qed.

Lemma skipn_splice_after {A} (l new : list A) (a b k : nat) :
  a <= b -> b <= length l -> length new = b - a -> b <= k ->
  skipn k (splice l a b new) = skipn k l.
Proof.
  intros H1 H2 H3 H4. unfold splice. rewrite Nat.max_r by lia.
  rewrite skipn_app, length_firstn.
  rewrite skipn_all2 by (rewrite length_firstn; lia).
  rewrite skipn_app, H3.
  rewrite skipn_all2 by lia.
  simpl. rewrite skipn_skipn. f_equal. lia.
Qed.

Lemma apply_table_skipn (lines0 lines : list str) (t : Table) (k : nat) :
  table_ok lines0 t -> length lines = length lines0 -> end_ t + 1 <= k ->
  skipn k (apply_table lines t) = skipn k lines.
Proof.
  intros Hok Hlen Hk. unfold apply_table.
  destruct (length (rows t) <? 2); [reflexivity|].
  pose proof (ok_end _ _ Hok). pose proof (ok_bound _ _ Hok).
  apply skipn_splice_after; try lia. rewrite length_aligned_lines. lia.
Qed.

Lemma slice_applied (lines : list str) (i : nat) (ts : list Table) :
  chain lines i ts ->
  forall t, In t ts -> 2 <= length (rows t) ->
    slice (applied lines ts) (start t) (end_ t + 1) = aligned_lines (rows t).
Proof.
  induction 1 as [i|i t0 ts Hi Hok Hc IH]; intros t Hin H2; [contradiction|].
  destruct (chain_applied lines _ ts Hc) as [Hlen Hpre].
  pose proof (ok_end _ _ Hok) as He. pose proof (ok_bound _ _ Hok) as Hb.
  cbn [fold_right]. set (L := applied lines ts) in *.
  destruct Hin as [<-|Hin].
  - unfold apply_table.
    assert ((length (rows t0) <? 2) = false) as -> by (apply Nat.ltb_ge; lia).
    apply slice_splice_same; try lia. rewrite length_aligned_lines. lia.
  - destruct (chain_In _ _ _ _ Hc Hin) as [_ Hst].
    unfold slice. rewrite (apply_table_skipn lines) by (auto; lia).
    now apply IH.
Qed.

Lemma applied_unchanged (lines : list str) (i : nat) (ts : list Table) :
  chain lines i ts -> existsb (table_differs lines) ts = false ->
  applied lines ts = lines.
Proof.
  induction 1 as [i|i t ts Hi Hok Hc IH]; intros Hd; [reflexivity|].
  simpl in Hd. apply orb_false_elim in Hd. destruct Hd as [Hd1 Hd2].
  simpl fold_right. rewrite (IH Hd2). unfold apply_table.
  destruct (length (rows t) <? 2) eqn:El; [reflexivity|].
  apply Nat.ltb_ge in El. unfold table_differs in Hd1.
  assert ((2 <=? length (rows t)) = true) as E by now apply Nat.leb_le.
  rewrite E in Hd1. simpl in Hd1. apply negb_false_iff in Hd1.
  apply lines_eqb_eq in Hd1. rewrite <- Hd1.
  pose proof (ok_end _ _ Hok). apply splice_slice. lia.
Qed.

(** * Further properties of the aligner *)

(** ** The row tokenizer *)

Lemma startswith_contains (c : ascii) (s : str) :
  startswith [c] s = true -> contains c s = true.
Proof.
  destruct s as [|a s]; simpl; [discriminate|].
  rewrite andb_true_r. now intros ->.
Qed.

Lemma contains_rev (c : ascii) (s : str) : contains c (rev s) = contains c s.
Proof.
  induction s as [|a s IH]; [reflexivity|].
  simpl rev. rewrite contains_app, IH. simpl.
  rewrite orb_false_r. apply orb_comm.
Qed.

Lemma endswith_contains (c : ascii) (s : str) :
  endswith [c] s = true -> contains c s = true.
Proof.
  unfold endswith. simpl rev. intros H.
  rewrite <- contains_rev. now apply startswith_contains.
Qed.

(** Every character of the scanned string is a character of the line. *)
Lemma contains_row_body_any (c : ascii) (line : str) :
  is_space c = false ->
  contains c (row_body line) = true -> contains c line = true.
Proof.
  unfold row_body, drop_first, drop_last. intros Hc H.
  rewrite <- (contains_strip c line Hc).
  destruct (startswith ["|"] (strip line));
    match type of H with
    | context [if ?b then _ else _] => destruct b
    end;
    repeat first [ apply contains_removelast in H | apply contains_tl in H ];
    exact H.
Qed.

Lemma row_body_no_pipe (line : str) :
  contains "|" line = false -> row_body line = strip line.
Proof.
  intros H. unfold row_body.
  assert (contains "|" (strip line) = false) as Hs
      by now rewrite contains_strip.
  destruct (startswith ["|"] (strip line)) eqn:E1.
  { apply startswith_contains in E1. congruence. }
  destruct (endswith ["|"] (strip line)) eqn:E2; [|reflexivity].
  apply endswith_contains in E2. congruence.
Qed.


(** Without a pipe, the loop only appends to the buffer. *)
Lemma scan_loop_no_pipe_buf (s : str) :
  forall st, contains "|" s = false -> buf (scan_loop st s) = buf st ++ s.
Proof.
  induction s as [|r IH|rest IH|r IH|c r H1 H2 H3 IH] using scan_ind;
    intros st Hc.
  - rewrite scan_loop_equation_1. now rewrite app_nil_r.
  - discriminate.
  - rewrite scan_loop_ticks, IH.
    + rewrite buf_on_ticks, <- app_assoc. f_equal.
      change (repeat "`" (S (tick_run rest)))
        with ("`" :: repeat "`" (tick_run rest)).
      rewrite <- firstn_tick_run. simpl. f_equal. apply firstn_skipn.
    + rewrite <- (firstn_skipn (tick_run rest) rest) in Hc.
      simpl in Hc. rewrite contains_app in Hc.
      apply orb_false_elim in Hc. apply Hc.
  - discriminate.
  - rewrite scan_loop_other by assumption. rewrite IH.
    + simpl. now rewrite <- app_assoc.
    + simpl in Hc. apply orb_false_elim in Hc. apply Hc.
Qed.

(** X1.  [split_row] never returns an empty list, and no cell it returns
    starts or ends with whitespace: stripping a cell again leaves it as
    it is. *)
Theorem split_row_nonempty_trimmed (line : str) :
  split_row line <> []
  /\ Forall (fun c => strip c = c) (split_row line).
Proof.
  split.
  - pose proof (split_row_length_pos line) as H. intros E.
    rewrite E in H. simpl in H. lia.
  - apply split_row_trimmed.
Qed.

(** X2.  A line without any pipe is one cell: the line stripped. *)
Theorem split_row_without_pipe (line : str) :
  contains "|" line = false -> split_row line = [strip line].
Proof.
  intros H. unfold split_row. rewrite (row_body_no_pipe line H).
  assert (contains "|" (strip line) = false) as Hs
      by now rewrite contains_strip.
  cbn [emit cells].
  rewrite (scan_loop_no_pipe _ _ Hs), (scan_loop_no_pipe_buf _ _ Hs).
  simpl. now rewrite strip_idem.
Qed.

Lemma split_row_without_pipe_witness :
  contains "|" (lit "  plain text ") = false
  /\ split_row (lit "  plain text ") = [strip (lit "  plain text ")].
Proof.
  split; [reflexivity|]. apply split_row_without_pipe. reflexivity.
Defined.

(** Outside code spans and without backticks or backslashes, every pipe
    ends a cell. *)
Lemma scan_loop_count_pipes (s : str) :
  forall st,
    in_code st = false ->
    contains "`" s = false -> contains "\" s = false ->
    length (cells (scan_loop st s))
    = length (cells st) + count_occ ascii_dec s "|".
Proof.
  induction s as [|r IH|rest IH|r IH|c r H1 H2 H3 IH] using scan_ind;
    intros st Hq Ht Hb.
  - rewrite scan_loop_equation_1. simpl. lia.
  - discriminate.
  - discriminate.
  - rewrite scan_loop_pipe, Hq.
    rewrite (IH (emit st) Hq Ht Hb).
    cbn [emit cells count_occ]. rewrite length_app.
    destruct (ascii_dec "|" "|") as [_|Hn]; [simpl; lia | congruence].
  - simpl in Ht, Hb. apply orb_false_elim in Ht, Hb.
    rewrite scan_loop_other by assumption.
    rewrite (IH (push st [c]) Hq (proj2 Ht) (proj2 Hb)).
    cbn [push cells count_occ].
    destruct (ascii_dec c "|") as [->|_]; [discriminate | reflexivity].
Qed.

(** X3.  In a line without backticks and backslashes the cells are the
    pieces between the pipes: the number of cells is one more than the
    number of pipes of the line between its outer pipes. *)
Theorem split_row_cell_count (line : str) :
  contains "`" line = false -> contains "\" line = false ->
  length (split_row line) = S (count_occ ascii_dec (row_body line) "|").
Proof.
  intros Ht Hb. unfold split_row. cbn [emit cells].
  rewrite length_app, scan_loop_count_pipes; simpl; try lia; try reflexivity.
  - destruct (contains "`" (row_body line)) eqn:E; [|reflexivity].
    apply contains_row_body_any in E; [congruence | reflexivity].
  - destruct (contains "\" (row_body line)) eqn:E; [|reflexivity].
    apply contains_row_body_any in E; [congruence | reflexivity].
Qed.

Lemma split_row_cell_count_witness :
  length (split_row (lit "| a | b || c"))
  = S (count_occ ascii_dec (row_body (lit "| a | b || c")) "|").
Proof. apply split_row_cell_count; reflexivity. Defined.

(** ** Rendering a row and splitting it again *)

(** A cell as a table usually has them: no whitespace at its ends, no
    backtick, no pipe, no backslash. *)
Definition simple_cell (c : str) : Prop :=
  strip c = c
  /\ contains "`" c = false /\ contains "|" c = false
  /\ contains "\" c = false.

Lemma lex_chars (s : str) :
  contains "`" s = false -> contains "|" s = false ->
  contains "\" s = false -> lex s = map TChar s.
Proof.
  induction s as [|c s IH]; simpl; intros H1 H2 H3; [reflexivity|].
  apply orb_false_elim in H1, H2, H3.
  destruct H1 as [H1 H1'], H2 as [H2 H2'], H3 as [H3 H3'].
  rewrite (IH H1' H2' H3'). unfold lex_cons.
  rewrite Ascii.eqb_sym in H1, H2, H3. now rewrite H1, H2, H3.
Qed.

Lemma good_cell_simple (c : str) : simple_cell c -> good_cell c.
Proof.
  intros [Ht [H1 [H2 H3]]]. split; [exact Ht|].
  unfold quiet. rewrite (lex_chars c H1 H2 H3). apply quiet_run_chars.
Qed.

(** X4.  Round trip of a row.  Cells without backtick, pipe, backslash
    and outer whitespace, each padded on the right to any width, rendered
    as ["| " + " | ".join(parts) + " |"] and split again, are the cells
    that were rendered. *)
Theorem split_row_render_simple (cs : list str) (widths : list nat) :
  cs <> [] -> length widths = length cs -> Forall simple_cell cs ->
  split_row (render (padded_cells cs widths)) = cs.
Proof.
  intros Hne Hlen Hs.
  destruct (exists_last Hne) as [front [last ->]].
  apply Forall_app in Hs. destruct Hs as [Hf Hl].
  inversion Hl as [|? ? Hl' _]; subst.
  destruct (good_cell_simple last Hl') as [Ht Hq].
  destruct (split_row_render front last widths code_init) as [E _]; auto.
  - rewrite Hlen, length_app. reflexivity.
  - apply Forall_impl with (2 := Hf). apply good_cell_simple.
Qed.

Lemma split_row_render_simple_witness :
  split_row (render (padded_cells [lit "id"; lit "a name"; []] [4; 8; 3]))
  = [lit "id"; lit "a name"; []].
Proof.
  apply split_row_render_simple; [discriminate | reflexivity |].
  repeat constructor.
Defined.

(** ** The re-synthesised delimiter row *)

Lemma strip_dashes (k : nat) : strip (repeat "-" k) = repeat "-" k.
Proof.
  apply trimmed_plain. induction k; simpl; auto.
Qed.

Lemma forallb_dashes (k : nat) :
  forallb (fun ch => Ascii.eqb ch "-") (repeat "-" k) = true.
Proof. induction k; simpl; auto. Qed.

(** X5.  The delimiter cell [align_table] writes for a column of width
    [w >= 3] is accepted by [is_delimiter_cell] exactly when three dashes
    are left between the colons: the colons replace dashes of the core,
    so a column with one colon needs width 4 and a centred column
    width 5. *)
Theorem rendered_delimiter_cell_valid (l r : bool) (w : nat) :
  3 <= w ->
  is_delimiter_cell (delimiter_core l r w)
  = (3 + (if l then 1 else 0) + (if r then 1 else 0) <=? w).
Proof.
  intros Hw. destruct w as [|[|k]]; try lia.
  pose proof (trimmed_plain _ (delimiter_core_plain l r (S (S k)))) as Ht.
  unfold trimmed in Ht. rewrite delimiter_core_shape in *.
  set (a := if l then ":" else "-") in *.
  set (z := if r then ":" else "-") in *.
  rewrite is_delimiter_cell_unfold by (intros E; discriminate E).
  cbv zeta. rewrite Ht.
  assert (startswith [":"] ((a :: repeat "-" k) ++ [z]) = l) as ->
      by (unfold a; destruct l; reflexivity).
  assert (endswith [":"] ((a :: repeat "-" k) ++ [z]) = r) as ->
      by (rewrite endswith_snoc; unfold z; destruct r; reflexivity).
  assert (drop_last ((a :: repeat "-" k) ++ [z]) = a :: repeat "-" k) as ->
      by apply removelast_last.
  assert (drop_first ((a :: repeat "-" k) ++ [z]) = repeat "-" k ++ [z]) as ->
      by reflexivity.
  assert (drop_last (repeat "-" k ++ [z]) = repeat "-" k) as ->
      by apply removelast_last.
  assert (forall m, (3 <=? length (strip (repeat "-" m)))
                    && forallb (fun ch => Ascii.eqb ch "-")
                               (strip (repeat "-" m))
                    = (3 <=? m)) as Hd.
  { intros m. now rewrite strip_dashes, forallb_dashes, repeat_length,
                andb_true_r. }
  destruct l, r; cbn [andb]; subst a z.
  - rewrite Hd. destruct k as [|[|[|k]]]; reflexivity.
  - change (repeat "-" k ++ ["-"]) with (repeat "-" k ++ repeat "-" 1).
    rewrite <- repeat_app, Hd. destruct k as [|[|[|k]]]; reflexivity.
  - change ("-" :: repeat "-" k) with (repeat "-" (S k)).
    rewrite Hd. destruct k as [|[|[|k]]]; reflexivity.
  - change (("-" :: repeat "-" k) ++ ["-"])
      with (repeat "-" (S k) ++ repeat "-" 1).
    rewrite <- repeat_app, Hd. destruct k as [|[|[|k]]]; reflexivity.
Qed.

Lemma rendered_delimiter_cell_valid_witness :
  is_delimiter_cell (delimiter_core true false 3) = false
  /\ is_delimiter_cell (delimiter_core true false 4) = true.
Proof.
  split.
  - rewrite rendered_delimiter_cell_valid by lia. reflexivity.
  - rewrite rendered_delimiter_cell_valid by lia. reflexivity.
Defined.

(** X6.  [align_table] raises (on [max] of no rows, or on [rows[1]])
    exactly when the table has fewer than two rows; otherwise it returns
    one line per row. *)
Theorem align_table_raises_iff (t : Table) :
  (align_table t = None <-> length (rows t) < 2)
  /\ forall out, align_table t = Some out -> length out = length (rows t).
Proof.
  split; [split|].
  - intros H. destruct (le_lt_dec 2 (length (rows t))) as [H2|H2]; [|exact H2].
    rewrite (align_table_eq t H2) in H. discriminate.
  - intros H. destruct (align_table t) as [out|] eqn:E; [|reflexivity].
    apply align_table_some in E. lia.
  - intros out H. apply align_table_some in H. destruct H as [_ ->].
    apply length_aligned_lines.
Qed.

(** X7.  The alignment markers of every column are kept: in the
    delimiter row [align_table] writes, each cell has a leading colon and
    a trailing colon exactly when the cell of the same column of the
    input delimiter row has them. *)
Theorem alignment_markers_kept (lines : list str) (t : Table)
  (out : list str) :
  In t (find_tables lines) -> align_table t = Some out ->
  exists second d,
    nth_error lines (start t + 1) = Some second
    /\ nth_error out 1 = Some d
    /\ forall j c,
         nth_error (split_row second) j = Some c ->
         exists c', nth_error (split_row d) j = Some c'
                    /\ align_of c' = align_of c.
Proof.
  intros Hin Ha.
  pose proof (find_tables_ok lines t Hin) as Hok.
  destruct (align_table_some t out Ha) as [H2 _].
  destruct (table_second_row lines t Hok H2) as [second [Hs [_ Hr]]].
  pose proof (ok_end _ _ Hok) as He.
  destruct (aligned_line_of_row lines t out 1 second Hin Ha) as [_ Ho];
    [lia | exact Hs |].
  cbn [Nat.eqb] in Ho.
  set (D := delimiter_cells (table_aligns (rows t)) (table_widths (rows t)))
    in *.
  assert (length D = ncols_of (rows t)) as HD.
  { unfold D. rewrite length_delimiter_cells; [apply length_table_widths|].
    now rewrite length_table_aligns, length_table_widths. }
  pose proof (table_ncols lines t Hok H2) as Hn.
  destruct (split_row_render_good D) as [E _].
  { intros E. rewrite E in HD. simpl in HD. lia. }
  { apply delimiter_cells_good. }
  exists second, (render D). split; [exact Hs|]. split; [exact Ho|].
  intros j c Hc. rewrite E.
  assert (map align_of D = table_aligns (rows t)) as HA.
  { apply map_align_of_delimiter_cells.
    - now rewrite length_table_aligns, length_table_widths.
    - apply table_widths_ge3. }
  assert (nth_error (table_aligns (rows t)) j = Some (align_of c)) as Hj.
  { unfold table_aligns.
    assert (nth 1 (map (pad_row (ncols_of (rows t))) (rows t)) []
            = pad_row (ncols_of (rows t)) (split_row second)) as ->.
    { apply nth_error_nth. now rewrite nth_error_map, Hr. }
    apply map_nth_error. unfold pad_row.
    rewrite nth_error_app1; [exact Hc|]. apply nth_error_Some. congruence. }
  rewrite <- HA in Hj. rewrite nth_error_map in Hj.
  destruct (nth_error D j) as [c'|]; [|discriminate].
  exists c'. split; [reflexivity|]. simpl in Hj. congruence.
Qed.

Lemma alignment_markers_kept_witness :
  exists second d : str,
    nth_error [lit "|name|n|"; lit "|:----|---:|"; lit "|pear|12|"] 1
    = Some second
    /\ nth_error [lit "| name | n   |"; lit "| :--- | --: |";
                  lit "| pear | 12  |"] 1 = Some d.
Proof.
  destruct (alignment_markers_kept
              [lit "|name|n|"; lit "|:----|---:|"; lit "|pear|12|"]
              (mkTable 0 2 [[lit "name"; lit "n"]; [lit ":----"; lit "---:"];
                            [lit "pear"; lit "12"]])
              [lit "| name | n   |"; lit "| :--- | --: |";
               lit "| pear | 12  |"])
    as [second [d [H1 [H2 _]]]].
  - vm_compute. left. reflexivity.
  - vm_compute. reflexivity.
  - exists second, d. split; assumption.
Defined.

(** ** The pipes line up *)

(** The offsets of the pipes of a rendered row whose parts have the
    lengths [widths], the first pipe at offset [o]: each part is preceded
    by a pipe and a space and followed by a space. *)
Fixpoint pipe_offsets (o : nat) (widths : list nat) : list nat :=
  o :: match widths with
       | [] => []
       | w :: ws => pipe_offsets (o + w + 3) ws
       end.

(** The offset of the last pipe. *)
Definition row_width (widths : list nat) : nat :=
  fold_right (fun w acc => w + 3 + acc) 0 widths.

(** A rendered row, part by part. *)
Fixpoint render_chunks (parts : list str) : str :=
  match parts with
  | [] => ["|"]
  | p :: ps => lit "| " ++ p ++ [" "] ++ render_chunks ps
  end.

Lemma render_chunks_eq (parts : list str) :
  parts <> [] -> render parts = render_chunks parts.
Proof.
  intros Hne. unfold render. destruct parts as [|p ps]; [congruence|]. clear Hne.
  revert p. induction ps as [|q ps IH]; intros p.
  - reflexivity.
  - change (join (lit " | ") (p :: q :: ps))
      with (p ++ lit " | " ++ join (lit " | ") (q :: ps)).
    change (render_chunks (p :: q :: ps))
      with (lit "| " ++ p ++ [" "] ++ render_chunks (q :: ps)).
    rewrite <- (IH q). rewrite <- !app_assoc. reflexivity.
Qed.

Lemma render_chunks_pipes (parts : list str) :
  forall (pre : str) (o : nat),
    In o (pipe_offsets (length pre) (map (@length ascii) parts)) ->
    nth_error (pre ++ render_chunks parts) o = Some "|".
Proof.
  induction parts as [|p ps IH]; intros pre o Ho.
  - simpl in Ho. destruct Ho as [<-|[]].
    rewrite nth_error_app2, Nat.sub_diag by lia. reflexivity.
  - cbn [map pipe_offsets] in Ho. destruct Ho as [<-|Ho].
    + rewrite nth_error_app2, Nat.sub_diag by lia. reflexivity.
    + cbn [render_chunks].
      replace (pre ++ lit "| " ++ p ++ [" "] ++ render_chunks ps)
        with ((pre ++ lit "| " ++ p ++ [" "]) ++ render_chunks ps)
        by now rewrite <- !app_assoc.
      apply IH.
      replace (length (pre ++ lit "| " ++ p ++ [" "]))
        with (length pre + length p + 3); [exact Ho|].
      rewrite !length_app. simpl. lia.
Qed.

Lemma length_render_chunks (parts : list str) :
  length (render_chunks parts) = S (row_width (map (@length ascii) parts)).
Proof.
  induction parts as [|p ps IH]; [reflexivity|].
  cbn [render_chunks map row_width fold_right].
  rewrite !length_app, IH. unfold row_width. simpl. lia.
Qed.

Lemma map_length_delimiter_cells (aligns : list (bool * bool)) :
  forall widths,
    length aligns = length widths -> Forall (fun w => 3 <= w) widths ->
    map (@length ascii) (delimiter_cells aligns widths) = widths.
Proof.
  induction aligns as [|[l r] aligns IH]; intros widths Hlen Hw.
  - destruct widths; [reflexivity | discriminate].
  - destruct widths as [|w ws]; [discriminate|].
    inversion Hw; subst. simpl in Hlen. injection Hlen as Hlen.
    unfold delimiter_cells. simpl.
    rewrite length_delimiter_core by lia. f_equal.
    apply IH; assumption.
Qed.

Lemma map_length_padded_cells (r : list str) :
  forall widths,
    length r = length widths ->
    (forall j, j < length r -> length (nth j r []) <= nth j widths 0) ->
    map (@length ascii) (padded_cells r widths) = widths.
Proof.
  induction r as [|c r IH]; intros widths Hlen Hle.
  - destruct widths; [reflexivity | discriminate].
  - destruct widths as [|w ws]; [discriminate|].
    simpl in Hlen. injection Hlen as Hlen.
    rewrite padded_cells_cons. cbn [map]. f_equal.
    + apply length_ljust. apply (Hle 0). simpl. lia.
    + apply IH; [exact Hlen|]. intros j Hj. apply (Hle (S j)). simpl. lia.
Qed.

(** Every line of an aligned table renders parts that have exactly the
    widths of the columns. *)
Lemma aligned_parts (rs : list (list str)) (l : str) :
  2 <= length rs -> 1 <= ncols_of rs -> In l (aligned_lines rs) ->
  exists parts,
    l = render parts /\ parts <> []
    /\ map (@length ascii) parts = table_widths rs.
Proof.
  intros H2 Hn Hin.
  destruct (In_nth_error _ _ Hin) as [k Hk].
  assert (k < length rs) as Hlt.
  { rewrite <- (length_aligned_lines rs). apply nth_error_Some. congruence. }
  destruct (nth_error rs k) as [r|] eqn:Er;
    [|apply nth_error_None in Er; lia].
  unfold aligned_lines in Hk.
  rewrite (nth_error_render_pure _ _ _ 0 k (pad_row (ncols_of rs) r)) in Hk
    by (rewrite nth_error_map, Er; reflexivity).
  injection Hk as <-. cbn [Nat.add].
  assert (forall parts : list str,
            map (@length ascii) parts = table_widths rs -> parts <> []) as Hne.
  { intros parts E Ep. subst parts. simpl in E.
    pose proof (length_table_widths rs) as Hl. rewrite <- E in Hl.
    simpl in Hl. lia. }
  destruct (Nat.eqb_spec k 1) as [->|Hk1].
  - eexists. split; [reflexivity|].
    assert (map (@length ascii)
                (delimiter_cells (table_aligns rs) (table_widths rs))
            = table_widths rs) as E.
    { apply map_length_delimiter_cells; [|apply table_widths_ge3].
      now rewrite length_table_aligns, length_table_widths. }
    split; [now apply Hne | exact E].
  - eexists. split; [reflexivity|].
    assert (map (@length ascii)
                (padded_cells (pad_row (ncols_of rs) r) (table_widths rs))
            = table_widths rs) as E.
    { assert (length r <= ncols_of rs) as Hr
          by (apply ncols_of_le; eapply nth_error_In; eauto).
      apply map_length_padded_cells.
      - now rewrite length_pad_row, length_table_widths.
      - intros j Hj. rewrite nth_pad_row.
        apply (cell_le_width rs k j r Hk1 Er).
        now rewrite length_pad_row in Hj. }
    split; [now apply Hne | exact E].
Qed.

(** X8.  The pipes of an aligned table line up: there are column widths,
    one per column, such that every line of the output has the same
    length and has a pipe at each of the same offsets, the first at 0 and
    each next one [width + 3] characters after the one before. *)
Theorem aligned_pipes_line_up (lines : list str) (t : Table)
  (out : list str) :
  In t (find_tables lines) -> align_table t = Some out ->
  exists widths,
    max_of (map (@length str) (rows t)) = Some (length widths)
    /\ forall line,
         In line out ->
         length line = S (row_width widths)
         /\ forall o, In o (pipe_offsets 0 widths) ->
                      nth_error line o = Some "|".
Proof.
  intros Hin Ha.
  pose proof (find_tables_ok lines t Hin) as Hok.
  destruct (align_table_some t out Ha) as [H2 ->].
  pose proof (table_ncols lines t Hok H2) as Hn.
  exists (table_widths (rows t)). split.
  - rewrite length_table_widths. apply max_of_ncols.
    destruct (rows t); simpl in H2; [lia | discriminate].
  - intros line Hl.
    destruct (aligned_parts (rows t) line H2) as [parts [-> [Hne E]]];
      [lia | exact Hl |].
    rewrite (render_chunks_eq parts Hne), <- E. split.
    + apply length_render_chunks.
    + intros o Ho. apply (render_chunks_pipes parts [] o Ho).
Qed.

Lemma aligned_pipes_line_up_witness :
  exists widths : list nat,
    max_of (map (@length str)
                [[lit "a"; lit "bb"]; [lit "---"; lit "---"];
                 [lit "1"; lit "22"]]) = Some (length widths).
Proof.
  destruct (aligned_pipes_line_up
              [lit "|a|bb|"; lit "|---|---|"; lit "|1|22|"]
              (mkTable 0 2 [[lit "a"; lit "bb"]; [lit "---"; lit "---"];
                            [lit "1"; lit "22"]])
              [lit "| a   | bb  |"; lit "| --- | --- |"; lit "| 1   | 22  |"])
    as [widths [H1 _]].
  - vm_compute. left. reflexivity.
  - vm_compute. reflexivity.
  - exists widths. exact H1.
Defined.

(** ** Fences and table spans *)

Lemma toggle_fence_other (st : FenceState) (l : str) :
  starts_fence l = false -> toggle_fence st l = st.
Proof.
  unfold starts_fence, toggle_fence. intros H.
  apply orb_false_elim in H. destruct H as [-> ->]. reflexivity.
Qed.



Lemma tildes_not_backticks (s : str) :
  startswith (lit "~~~") s = true -> startswith (lit "```") s = false.
Proof.
  destruct s as [|c s]; [discriminate|]. cbn [lit startswith].
  change (String.list_ascii_of_string "~~~") with ["~"; "~"; "~"].
  change (String.list_ascii_of_string "```") with ["`"; "`"; "`"].
  cbn [startswith]. intros H. apply andb_prop in H. destruct H as [H _].
  apply Ascii.eqb_eq in H. subst c. reflexivity.
Qed.

(** In a fence opened with the marker [m], a line that does not start
    with [m] changes nothing, also when it starts with the other
    marker. *)
Lemma toggle_fence_other_marker (m l : str) :
  m = lit "```" \/ m = lit "~~~" ->
  startswith m (lstrip l) = false ->
  toggle_fence (mkFence true (Some m)) l = mkFence true (Some m).
Proof.
  intros [->| ->] H; unfold toggle_fence; cbn [in_fence negb fence_marker].
  - rewrite H.
    destruct (startswith (lit "~~~") (lstrip l)); reflexivity.
  - rewrite H.
    destruct (startswith (lit "```") (lstrip l)); reflexivity.
Qed.

Lemma toggle_fence_opens_marker (m l : str) :
  m = lit "```" \/ m = lit "~~~" ->
  startswith m (lstrip l) = true ->
  toggle_fence fence_init l = mkFence true (Some m).
Proof.
  intros [->| ->] H; unfold toggle_fence; cbn [in_fence negb fence_init].
  - now rewrite H.
  - now rewrite (tildes_not_backticks _ H), H.
Qed.

Lemma find_tables_loop_in_marker (m : str) (rest : list str) :
  m = lit "```" \/ m = lit "~~~" ->
  Forall (fun l => startswith m (lstrip l) = false) rest ->
  forall i, find_tables_loop i rest (mkFence true (Some m)) = [].
Proof.
  intros Hm. induction 1 as [|l rest Hl Hr IH]; intros i.
  - apply find_tables_loop_equation_1.
  - rewrite find_tables_loop_cons, (toggle_fence_other_marker m l Hm Hl).
    cbn [in_fence]. apply IH.
Qed.

(** X9.  A fence is closed only by its own marker.  When the first line
    opens a fence with three backticks (or three tildes) and no later
    line starts with that marker, everything after it is skipped,
    whatever the lines look like and even if some start with the other
    marker: no table is found and the document is returned as it is,
    with [changed = false]. *)
Theorem unclosed_fence_no_tables (m opener : str) (rest : list str) :
  m = lit "```" \/ m = lit "~~~" ->
  startswith m (lstrip opener) = true ->
  Forall (fun l => startswith m (lstrip l) = false) rest ->
  find_tables (opener :: rest) = []
  /\ align_document (opener :: rest) = Some (opener :: rest, false).
Proof.
  intros Hm Ho Hr.
  assert (find_tables (opener :: rest) = []) as E.
  { unfold find_tables.
    rewrite find_tables_loop_cons, (toggle_fence_opens_marker m opener Hm Ho).
    cbn [in_fence]. now apply find_tables_loop_in_marker. }
  split; [exact E|]. rewrite align_document_spec, E. reflexivity.
Qed.

Lemma unclosed_fence_no_tables_witness :
  find_tables [lit "~~~text"; lit "```"; lit "|a|b|"; lit "|---|---|"] = []
  /\ align_document [lit "~~~text"; lit "```"; lit "|a|b|"; lit "|---|---|"]
     = Some ([lit "~~~text"; lit "```"; lit "|a|b|"; lit "|---|---|"], false).
Proof.
  apply (unclosed_fence_no_tables (lit "~~~")); [now right | reflexivity |].
  repeat constructor.
Defined.

Lemma chain_app_inv (lines : list str) (pre : list Table) :
  forall i t post,
    chain lines i (pre ++ t :: post) ->
    table_ok lines t /\ chain lines (end_ t + 1) post.
Proof.
  induction pre as [|p pre IH]; intros i t post H;
    inversion H as [|? ? ? Hi Hok Hc]; subst.
  - split; assumption.
  - eapply IH. exact Hc.
Qed.

(** X10.  The tables are returned in document order and do not overlap,
    and none extends past the last line: every table lies within the
    document, and of two tables the one that comes later in the list
    starts after the end of the other. *)
Theorem tables_in_document_order (lines : list str) :
  (forall t, In t (find_tables lines) ->
             start t <= end_ t + 1 /\ end_ t + 1 <= length lines)
  /\ forall a b ta tb,
       a < b ->
       nth_error (find_tables lines) a = Some ta ->
       nth_error (find_tables lines) b = Some tb ->
       end_ ta + 1 <= start tb.
Proof.
  split.
  - intros t Hin. pose proof (find_tables_ok lines t Hin) as Hok.
    pose proof (ok_end _ _ Hok). pose proof (ok_bound _ _ Hok). lia.
  - intros a b ta tb Hab Ha Hb.
    pose proof (find_tables_chain lines) as Hc.
    destruct (nth_error_split _ _ Ha) as [pre [post [E Hlen]]].
    rewrite E in Hc, Hb.
    destruct (chain_app_inv _ _ _ _ _ Hc) as [_ Hc1].
    rewrite nth_error_app2 in Hb by lia.
    replace (b - length pre) with (S (b - length pre - 1)) in Hb by lia.
    cbn [nth_error] in Hb. apply nth_error_In in Hb.
    now destruct (chain_In _ _ _ tb Hc1 Hb).
Qed.

Lemma tables_in_document_order_witness :
  end_ (mkTable 0 1 [[lit "a"; lit "b"]; [lit "-----"; lit "---"]]) + 1
  <= start (mkTable 3 4 [[lit "c"; lit "d"]; [lit ":---"; lit "---:"]]).
Proof.
  apply (proj2 (tables_in_document_order
                  [lit "a|b"; lit "-----|---"; []; lit "|c|d|";
                   lit "|:---|---:|"]) 0 1);
    [lia | reflexivity | reflexivity].
Defined.

Lemma absorb_stop (ls : list str) (l : str) :
  nth_error ls (absorb ls) = Some l -> absorbable l = false.
Proof.
  induction ls as [|a ls IH]; simpl; [discriminate|].
  destruct (absorbable a) eqn:E; simpl; [exact IH|].
  intros H. injection H as <-. exact E.
Qed.

Lemma find_tables_loop_maximal (i : nat) (rest : list str) (st : FenceState) :
  forall pre, length pre = i -> (in_fence st = true -> 1 <= i) ->
    forall t l, In t (find_tables_loop i rest st) ->
                nth_error (pre ++ rest) (end_ t + 1) = Some l ->
                absorbable l = false.
Proof.
  apply (find_tables_loop_ind
           (fun i rest st ts =>
              forall pre, length pre = i -> (in_fence st = true -> 1 <= i) ->
                forall t l, In t ts ->
                            nth_error (pre ++ rest) (end_ t + 1) = Some l ->
                            absorbable l = false)); clear i rest st.
  - intros i st pre _ _ t l [].
  - intros i line after st Hf IH pre Hlen Hi t l Hin Hl.
    apply (IH (pre ++ [line])) with (t := t); auto.
    + rewrite length_app. simpl. lia.
    + intros _. lia.
    + now rewrite <- app_assoc.
  - intros i line after st Hf Ht IH pre Hlen Hi t l Hin Hl.
    apply andb_prop in Ht. destruct Ht as [Hp Hd].
    set (n := absorb (line :: after)) in *.
    pose proof (absorb_le (line :: after)) as Hn. fold n in Hn.
    assert (i + n - 1 + 1 = i + n) as Eend.
    { destruct n as [|n'] eqn:En; [|lia].
      pose proof (absorb_zero_closes st line after Hf Hp En) as Hz.
      specialize (Hi Hz). lia. }
    destruct Hin as [<-|Hin].
    + cbn [end_] in Hl. rewrite Eend in Hl.
      rewrite nth_error_app2 in Hl by lia.
      replace (i + n - length pre) with n in Hl by lia.
      apply (absorb_stop (line :: after)). exact Hl.
    + apply (IH (pre ++ firstn n (line :: after))) with (t := t); auto.
      * rewrite length_app, length_firstn. lia.
      * intros H. congruence.
      * now rewrite <- app_assoc, firstn_skipn.
  - intros i line after st Hf Ht IH pre Hlen Hi t l Hin Hl.
    apply (IH (pre ++ [line])) with (t := t); auto.
    + rewrite length_app. simpl. lia.
    + intros _. lia.
    + now rewrite <- app_assoc.
Qed.

(** X11.  What a table spans.  Its rows are the lines from its start to
    its end, tokenised; it has no row (a table recorded at a line that
    closes a fence) or at least two, never one; every line it spans is
    non-blank and contains a pipe; and it extends as far as that goes:
    the line after its end, if there is one, is blank, or has no pipe,
    or starts a fence. *)
Theorem table_span_maximal (lines : list str) (t : Table) :
  In t (find_tables lines) ->
  rows t = map split_row (slice lines (start t) (end_ t + 1))
  /\ length (rows t) <> 1
  /\ (forall l, In l (slice lines (start t) (end_ t + 1)) ->
                strip l <> [] /\ contains "|" l = true)
  /\ forall l, nth_error lines (end_ t + 1) = Some l ->
               strip l = [] \/ contains "|" l = false
               \/ starts_fence l = true.
Proof.
  intros Hin. pose proof (find_tables_ok lines t Hin) as Hok.
  split; [apply (ok_rows _ _ Hok)|]. split; [|split].
  - destruct (ok_shape _ _ Hok) as [E|[H2 _]]; [rewrite E; simpl|]; lia.
  - intros l Hl. pose proof (ok_absorbable _ _ Hok) as Ha.
    rewrite Forall_forall in Ha. specialize (Ha l Hl).
    unfold absorbable in Ha.
    destruct (strip l) eqn:E; [discriminate|]. split; [discriminate|].
    apply andb_prop in Ha. tauto.
  - intros l Hl.
    assert (absorbable l = false) as Ha.
    { apply (find_tables_loop_maximal 0 lines fence_init [] eq_refl)
        with (t := t); [discriminate | exact Hin | exact Hl]. }
    unfold absorbable in Ha. destruct (strip l); [now left|]. right.
    destruct (contains "|" l); [|now left]. right.
    simpl in Ha. now apply negb_false_iff in Ha.
Qed.

Lemma table_span_maximal_witness :
  rows (mkTable 0 1 [[lit "a"; lit "b"]; [lit "---"; lit "---"]])
  = map split_row (slice [lit "|a|b|"; lit "|---|---|"; lit "text"] 0 2).
Proof.
  apply (table_span_maximal [lit "|a|b|"; lit "|---|---|"; lit "text"]
           (mkTable 0 1 [[lit "a"; lit "b"]; [lit "---"; lit "---"]])).
  vm_compute. left. reflexivity.
Defined.

(** ** What [process_file] changes *)

Lemma nth_error_splice_outside {A} (l new : list A) (a b k : nat) :
  a <= b -> b <= length l -> length new = b - a ->
  k < a \/ b <= k ->
  nth_error (splice l a b new) k = nth_error l k.
Proof.
  intros H1 H2 H3 Hk. unfold splice. rewrite Nat.max_r by lia.
  destruct Hk as [Hk|Hk].
  - rewrite nth_error_app1 by (rewrite length_firstn; lia).
    rewrite nth_error_firstn.
    assert ((k <? a) = true) as -> by (apply Nat.ltb_lt; lia). reflexivity.
  - rewrite nth_error_app2 by (rewrite length_firstn; lia).
    rewrite length_firstn, Nat.min_l by lia.
    rewrite nth_error_app2 by lia.
    rewrite nth_error_skipn. f_equal. lia.
Qed.

Lemma applied_outside (lines : list str) (i : nat) (ts : list Table)
  (k : nat) :
  chain lines i ts ->
  (forall t, In t ts -> k < start t \/ end_ t < k) ->
  nth_error (applied lines ts) k = nth_error lines k.
Proof.
  induction 1 as [i|i t ts Hi Hok Hc IH]; intros Hk; [reflexivity|].
  destruct (chain_applied lines _ ts Hc) as [Hlen _].
  pose proof (ok_end _ _ Hok) as He. pose proof (ok_bound _ _ Hok) as Hb.
  cbn [fold_right]. rewrite <- IH by (intros t' Ht'; apply Hk; now right).
  set (L := applied lines ts) in *.
  unfold apply_table.
  destruct (length (rows t) <? 2) eqn:El; [reflexivity|].
  apply nth_error_splice_outside; try lia.
  - rewrite length_aligned_lines. lia.
  - destruct (Hk t (or_introl eq_refl)); lia.
Qed.

(** X12.  Lines outside the tables are not touched: a line whose index
    lies in no table of [find_tables] is the same line in the document
    [align_document] returns. *)
Theorem lines_outside_tables_kept (lines new : list str) (changed : bool)
  (k : nat) :
  align_document lines = Some (new, changed) ->
  (forall t, In t (find_tables lines) -> k < start t \/ end_ t < k) ->
  nth_error new k = nth_error lines k.
Proof.
  intros Ha Hk. rewrite align_document_spec in Ha. injection Ha as <- _.
  apply (applied_outside lines 0); [apply find_tables_chain | exact Hk].
Qed.

Lemma lines_outside_tables_kept_witness :
  nth_error [lit "Title "; lit "| a   | b   |"; lit "| --- | --- |";
             lit "  tail"] 3
  = nth_error [lit "Title "; lit "|a|b|"; lit "|---|---|"; lit "  tail"] 3.
Proof.
  apply (lines_outside_tables_kept _ _ true).
  - vm_compute. reflexivity.
  - intros t Ht. vm_compute in Ht. destruct Ht as [<-|[]]. right. simpl. lia.
Defined.

(** X13.  The flag tells the truth about the document: [align_document]
    reports [changed] exactly when the document it returns is not the
    input, so [process_file] writes a file back exactly when its content
    differs. *)
Theorem changed_iff_document_differs (lines : list str) :
  exists new changed,
    align_document lines = Some (new, changed)
    /\ (changed = true <-> new <> lines)
    /\ (changed = false <-> new = lines).
Proof.
  eexists. eexists. split; [apply align_document_spec|].
  pose proof (find_tables_chain lines) as Hc.
  assert (existsb (table_differs lines) (find_tables lines) = true
          <-> applied lines (find_tables lines) <> lines) as H.
  { split.
    - intros H E. apply existsb_exists in H. destruct H as [t [Hin Hd]].
      unfold table_differs in Hd. apply andb_prop in Hd.
      destruct Hd as [H2 Hd]. apply Nat.leb_le in H2.
      pose proof (slice_applied lines 0 _ Hc t Hin H2) as Hs.
      rewrite E in Hs. apply negb_true_iff in Hd.
      assert (lines_eqb (slice lines (start t) (end_ t + 1))
                        (aligned_lines (rows t)) = true) as Ht
          by now apply lines_eqb_eq.
      congruence.
    - intros Hne.
      destruct (existsb (table_differs lines) (find_tables lines)) eqn:E;
        [reflexivity|].
      exfalso. apply Hne. now apply (applied_unchanged lines 0). }
  split; [exact H|].
  destruct (existsb (table_differs lines) (find_tables lines)).
  - split; [discriminate|]. intros E. exfalso.
    now apply (proj1 H eq_refl).
  - split; [|reflexivity]. intros _.
    destruct (list_eq_dec (list_eq_dec ascii_dec)
                (applied lines (find_tables lines)) lines) as [E|Hne];
      [exact E|].
    apply H in Hne. discriminate.
Qed.

(** ** Aligning twice *)

(** X14.  Aligning keeps the cells.  For a detected table whose rows end
    outside code spans (or already have all columns), a row other than
    the delimiter row, once rendered, splits again into the cells it had,
    followed by empty cells for the columns it lacked. *)
Theorem aligned_cells_kept (lines : list str) (t : Table) (out : list str)
  (ncols k : nat) (line : str) :
  In t (find_tables lines) -> align_table t = Some out ->
  max_of (map (@length str) (rows t)) = Some ncols ->
  start t + k <= end_ t -> k <> 1 ->
  nth_error lines (start t + k) = Some line ->
  closed_row line = true \/ length (split_row line) = ncols ->
  exists o,
    nth_error out k = Some o
    /\ split_row o
       = split_row line ++ repeat [] (ncols - length (split_row line)).
Proof.
  intros Hin Ha Hm Hk Hk1 Hl Hc.
  destruct (align_table_some t out Ha) as [H2 _].
  assert (rows t <> []) as Hne
      by (destruct (rows t); simpl in H2; [lia | discriminate]).
  rewrite (max_of_ncols _ Hne) in Hm. injection Hm as <-.
  destruct (aligned_line_of_row lines t out k line Hin Ha Hk Hl) as [Hr Ho].
  assert ((k =? 1) = false) as E1 by now apply Nat.eqb_neq.
  rewrite E1 in Ho. eexists. split; [exact Ho|].
  destruct (split_row_render_padded line (ncols_of (rows t))
              (table_widths (rows t))) as [E _].
  - apply length_table_widths.
  - apply ncols_of_le. eapply nth_error_In; eauto.
  - exact Hc.
  - exact E.
Qed.

Lemma aligned_cells_kept_witness :
  exists o,
    nth_error [lit "| a   | b     |"; lit "| --- | ----- |";
               lit "| x   | `p|q` |"; lit "| y   |       |"] 3 = Some o
    /\ split_row o = split_row (lit "|y") ++ repeat [] (2 - 1).
Proof.
  apply (aligned_cells_kept
           [lit "|a|b|"; lit "|---|---|"; lit "|x|`p|q`|"; lit "|y"]
           (mkTable 0 3 [[lit "a"; lit "b"]; [lit "---"; lit "---"];
                         [lit "x"; lit "`p|q`"]; [lit "y"]])
           _ 2 3 (lit "|y")).
  - vm_compute. left. reflexivity.
  - vm_compute. reflexivity.
  - reflexivity.
  - simpl. lia.
  - discriminate.
  - reflexivity.
  - left. reflexivity.
Defined.

(** X15.  Aligning a table twice.  For a detected table whose rows end
    outside code spans (or already have all columns), the lines
    [align_table] returns, tokenised again into a table, are aligned to
    themselves. *)
Theorem align_table_idempotent (lines : list str) (t : Table)
  (out : list str) (ncols : nat) :
  In t (find_tables lines) -> align_table t = Some out ->
  max_of (map (@length str) (rows t)) = Some ncols ->
  (forall l, In l (slice lines (start t) (end_ t + 1)) ->
             closed_row l = true \/ length (split_row l) = ncols) ->
  align_table (mkTable (start t) (end_ t) (map split_row out)) = Some out.
Proof.
  intros Hin Ha Hm Hc.
  pose proof (find_tables_ok lines t Hin) as Hok.
  destruct (align_table_some t out Ha) as [H2 ->].
  assert (rows t <> []) as Hne
      by (destruct (rows t); simpl in H2; [lia | discriminate]).
  rewrite (max_of_ncols _ Hne) in Hm. injection Hm as <-.
  rewrite align_table_eq
    by (cbn [rows]; now rewrite length_map, length_aligned_lines).
  cbn [rows]. f_equal.
  rewrite (ok_rows _ _ Hok) in *. rewrite length_map in H2.
  now apply aligned_lines_idem.
Qed.

Lemma align_table_idempotent_witness :
  align_table
    (mkTable 0 2 (map split_row [lit "| a   | bb  |"; lit "| --- | --- |";
                                 lit "| 1   | 22  |"]))
  = Some [lit "| a   | bb  |"; lit "| --- | --- |"; lit "| 1   | 22  |"].
Proof.
  apply (align_table_idempotent
           [lit "|a|bb|"; lit "|---|---|"; lit "|1|22|"]
           (mkTable 0 2 [[lit "a"; lit "bb"]; [lit "---"; lit "---"];
                         [lit "1"; lit "22"]]) _ 2).
  - vm_compute. left. reflexivity.
  - vm_compute. reflexivity.
  - reflexivity.
  - intros l Hl. left. vm_compute in Hl.
    destruct Hl as [<-|[<-|[<-|[]]]]; reflexivity.
Defined.

(** ** Aligning an aligned document *)

Lemma chain_weaken (lines : list str) (i j : nat) (ts : list Table) :
  chain lines j ts -> i <= j -> chain lines i ts.
Proof.
  intros H Hi. inversion H; subst; constructor; auto. lia.
Qed.

(** A line before the first table is not rewritten. *)
Lemma rewrite_from_skip (lines : list str) (i : nat) (ts : list Table)
  (line : str) (after : list str) :
  chain lines (S i) ts ->
  rewrite_from i (line :: after) ts = line :: rewrite_from (S i) after ts.
Proof.
  intros Hc. destruct ts as [|t ts]; [reflexivity|].
  inversion Hc as [|? ? ? Hi Hok Hc']; subst.
  pose proof (ok_end _ _ Hok) as He.
  cbn [rewrite_from].
  replace (start t - i) with (S (start t - S i)) by lia.
  replace (end_ t + 1 - i) with (S (end_ t + 1 - S i)) by lia.
  reflexivity.
Qed.

Lemma slice_skipn {A} (lines : list A) (a b : nat) :
  slice lines a b = firstn (b - a) (skipn a lines).
Proof. reflexivity. Qed.

(** A table with rows starts at an absorbable line. *)
Lemma table_head_absorbable (lines : list str) (t : Table) :
  table_ok lines t -> 2 <= length (rows t) ->
  exists l rest', skipn (start t) lines = l :: rest'
                  /\ absorbable l = true.
Proof.
  intros Hok H2. pose proof (ok_absorbable _ _ Hok) as Ha.
  pose proof (ok_rows _ _ Hok) as Hr. pose proof (ok_end _ _ Hok) as He.
  rewrite slice_skipn in Ha, Hr.
  destruct (skipn (start t) lines) as [|l rest'] eqn:E.
  - rewrite firstn_nil in Hr. rewrite Hr in H2. simpl in H2. lia.
  - exists l, rest'. split; [reflexivity|].
    replace (end_ t + 1 - start t) with (S (length (rows t) - 1)) in Ha by lia.
    simpl in Ha. now inversion Ha.
Qed.

(** Where the input has a line no table can contain, the rewritten
    document has the same line. *)
Lemma rewrite_from_hd (lines : list str) (i : nat) (ts : list Table) :
  chain lines i ts ->
  (forall l, hd_error (skipn i lines) = Some l -> absorbable l = false) ->
  hd_error (rewrite_from i (skipn i lines) ts) = hd_error (skipn i lines).
Proof.
  induction 1 as [i|i t ts Hi Hok Hc IH]; intros Hhd; [reflexivity|].
  pose proof (ok_end _ _ Hok) as He. pose proof (ok_bound _ _ Hok) as Hb.
  cbn [rewrite_from].
  destruct (Nat.eq_dec (start t) i) as [Es|Es].
  - subst i. rewrite Nat.sub_diag. cbn [firstn app].
    destruct (le_lt_dec 2 (length (rows t))) as [H2|H2].
    + destruct (table_head_absorbable lines t Hok H2) as [l [r [E Ha]]].
      rewrite E in Hhd. specialize (Hhd l eq_refl). congruence.
    + assert (length (rows t) = 0) as E0.
      { destruct (ok_shape _ _ Hok) as [E|[H _]]; [now rewrite E | lia]. }
      assert ((2 <=? length (rows t)) = false) as -> by (apply Nat.leb_gt; lia).
      replace (end_ t + 1 - start t) with 0 by lia.
      cbn [firstn skipn app].
      assert (end_ t + 1 = start t) as E1 by lia.
      rewrite E1 in *. apply IH. exact Hhd.
  - destruct (skipn i lines) as [|l rest'] eqn:E.
    + exfalso. assert (length (skipn i lines) = 0) as H0 by now rewrite E.
      rewrite length_skipn in H0. lia.
    + replace (start t - i) with (S (start t - S i)) by lia. reflexivity.
Qed.

Lemma render_absorbable (parts : list str) : absorbable (render parts) = true.
Proof.
  unfold absorbable.
  assert (contains "|" (render parts) = true) as Hp by reflexivity.
  pose proof (contains_strip_nonempty "|" _ eq_refl Hp) as Hne.
  destruct (strip (render parts)); [congruence|].
  rewrite Hp. reflexivity.
Qed.

Lemma render_pure_absorbable (rs : list (list str)) aligns widths :
  forall ridx,
    Forall (fun l => absorbable l = true) (render_pure ridx rs aligns widths).
Proof.
  induction rs as [|r rs IH]; intros ridx; simpl; constructor; auto.
  apply render_absorbable.
Qed.

Lemma absorb_app (a b : list str) :
  Forall (fun l => absorbable l = true) a ->
  (forall l, hd_error b = Some l -> absorbable l = false) ->
  absorb (a ++ b) = length a.
Proof.
  induction 1 as [|x a Hx Ha IH]; intros Hb.
  - destruct b as [|l b]; [reflexivity|]. simpl.
    now rewrite (Hb l eq_refl).
  - simpl. rewrite Hx. f_equal. now apply IH.
Qed.

(** A table that is found again as it is in the aligned document: its
    rows end outside code spans or have all columns, and the delimiter
    row written for it is a delimiter row. *)
Definition stable_table (lines : list str) (t : Table) : Prop :=
  (forall l, In l (slice lines (start t) (end_ t + 1)) ->
             closed_row l = true
             \/ length (split_row l) = ncols_of (rows t))
  /\ next_is_delimiter (tl (aligned_lines (rows t))) = true.

Lemma is_delimiter_row_cells (l : str) :
  contains "|" l = true ->
  is_delimiter_row l
  = (2 <=? length (split_row l)) && forallb is_delimiter_cell (split_row l).
Proof. unfold is_delimiter_row. now intros ->. Qed.

(** A header that is no delimiter row is none once padded and
    rendered. *)
Lemma padded_header_not_delimiter (l : str) (n : nat) (widths : list nat) :
  length widths = n -> 2 <= n -> length (split_row l) <= n ->
  closed_row l = true \/ length (split_row l) = n ->
  contains "|" l = true -> is_delimiter_row l = false ->
  is_delimiter_row (render (padded_cells (pad_row n (split_row l)) widths))
  = false.
Proof.
  intros Hw Hn Hle Hc Hp Hd.
  rewrite is_delimiter_row_cells in Hd by exact Hp.
  rewrite is_delimiter_row_cells by reflexivity.
  destruct (split_row_render_padded l n widths Hw Hle Hc) as [-> _].
  unfold pad_row. rewrite forallb_app.
  apply andb_false_iff in Hd. destruct Hd as [Hd|Hd].
  - apply Nat.leb_gt in Hd.
    destruct (n - length (split_row l)) as [|m] eqn:E; [lia|].
    cbn [repeat forallb is_delimiter_cell andb].
    now rewrite !andb_false_r.
  - rewrite Hd. now rewrite andb_false_r.
Qed.

Lemma aligned_lines_hd (r0 r1 : list str) (rs : list (list str)) :
  exists out',
    aligned_lines (r0 :: r1 :: rs)
    = render (padded_cells (pad_row (ncols_of (r0 :: r1 :: rs)) r0)
                           (table_widths (r0 :: r1 :: rs)))
      :: out'.
Proof. unfold aligned_lines. cbn [map render_pure Nat.eqb]. eauto. Qed.

(** Where the input has no delimiter row, the rewritten document has
    none. *)
Lemma rewrite_from_next_delim (lines : list str) (i : nat)
  (ts : list Table) :
  chain lines i ts ->
  (forall t, In t ts -> 2 <= length (rows t) -> stable_table lines t) ->
  next_is_delimiter (skipn i lines) = false ->
  next_is_delimiter (rewrite_from i (skipn i lines) ts) = false.
Proof.
  induction 1 as [i|i t ts Hi Hok Hc IH]; intros Hst Hd; [exact Hd|].
  pose proof (ok_end _ _ Hok) as He. pose proof (ok_bound _ _ Hok) as Hb.
  cbn [rewrite_from].
  destruct (Nat.eq_dec (start t) i) as [Es|Es].
  - subst i. rewrite Nat.sub_diag. cbn [firstn app].
    destruct (le_lt_dec 2 (length (rows t))) as [H2|H2].
    + assert ((2 <=? length (rows t)) = true) as -> by now apply Nat.leb_le.
      destruct (table_head_absorbable lines t Hok H2) as [l [r [E Ha]]].
      destruct (Hst t (or_introl eq_refl) H2) as [Hcl _].
      pose proof (table_ncols lines t Hok H2) as Hn.
      pose proof (ok_rows _ _ Hok) as Hr. rewrite slice_skipn, E in Hr.
      replace (end_ t + 1 - start t) with (S (S (length (rows t) - 2))) in Hr
        by lia.
      destruct r as [|l1 r]; [rewrite Hr in H2; simpl in H2; lia|].
      cbn [firstn map] in Hr.
      assert (In l (slice lines (start t) (end_ t + 1))) as Hl.
      { rewrite slice_skipn, E.
        replace (end_ t + 1 - start t) with (S (length (rows t) - 1)) by lia.
        now left. }
      assert (In (split_row l) (rows t)) as Hin by (rewrite Hr; now left).
      destruct (aligned_lines_hd (split_row l) (split_row l1)
                  (map split_row (firstn (length (rows t) - 2) r)))
        as [out' Eo].
      rewrite <- Hr in Eo. rewrite Eo. cbn [app next_is_delimiter].
      rewrite E in Hd. cbn [next_is_delimiter] in Hd.
      apply padded_header_not_delimiter; auto.
      * apply length_table_widths.
      * now apply ncols_of_le.
      * unfold absorbable in Ha. destruct (strip l); [discriminate|].
        apply andb_prop in Ha. tauto.
    + assert (length (rows t) = 0) as E0.
      { destruct (ok_shape _ _ Hok) as [E|[H _]]; [now rewrite E | lia]. }
      assert ((2 <=? length (rows t)) = false) as -> by (apply Nat.leb_gt; lia).
      replace (end_ t + 1 - start t) with 0 by lia.
      cbn [firstn skipn app].
      assert (end_ t + 1 = start t) as E1 by lia.
      rewrite E1 in *. apply IH; [|exact Hd].
      intros t' Ht'. apply Hst. now right.
  - destruct (skipn i lines) as [|l rest'] eqn:E.
    + exfalso. assert (length (skipn i lines) = 0) as H0 by now rewrite E.
      rewrite length_skipn in H0. lia.
    + replace (start t - i) with (S (start t - S i)) by lia. exact Hd.
Qed.

Lemma skipn_pre {A} (pre rest : list A) :
  skipn (length pre) (pre ++ rest) = rest.
Proof. rewrite skipn_app, skipn_all, Nat.sub_diag. reflexivity. Qed.

Lemma toggle_fence_reopens (st : FenceState) (l : str) :
  starts_fence l = true -> in_fence st = false ->
  in_fence (toggle_fence st l) = true.
Proof.
  unfold starts_fence, toggle_fence. intros H Hf. rewrite Hf.
  destruct (startswith (lit "```") (lstrip l)); [reflexivity|].
  destruct (startswith (lit "~~~") (lstrip l)); [reflexivity|].
  discriminate H.
Qed.

Lemma absorbable_pipe (l : str) : absorbable l = true -> contains "|" l = true.
Proof.
  unfold absorbable. destruct (strip l); [discriminate|].
  intros H. apply andb_prop in H. tauto.
Qed.

Lemma not_absorbable_fence (l : str) :
  contains "|" l = true -> absorbable l = false -> starts_fence l = true.
Proof.
  intros Hp Ha. unfold absorbable in Ha.
  pose proof (contains_strip_nonempty "|" l eq_refl Hp) as Hne.
  destruct (strip l); [congruence|]. rewrite Hp in Ha. simpl in Ha.
  now apply negb_false_iff in Ha.
Qed.

(** The table recorded at a line that closes a fence, in the aligned
    document: the loop records it again and goes on with the same
    lines. *)
Lemma find_tables_loop_closer (i : nat) (line nxt : str) (after : list str)
  (st : FenceState) :
  in_fence (toggle_fence st line) = false ->
  contains "|" line = true -> is_delimiter_row nxt = true ->
  absorbable line = false ->
  find_tables_loop i (line :: nxt :: after) st
  = mkTable i (i + 0 - 1) []
    :: find_tables_loop (i + 0 - 1 + 1) (line :: nxt :: after)
         (toggle_fence st line).
Proof.
  intros Hf Hp Hd Ha.
  rewrite find_tables_loop_cons at 1. rewrite Hf, Hp.
  cbn [next_is_delimiter andb]. rewrite Hd.
  cbn [absorb]. rewrite Ha. reflexivity.
Qed.

(** After it, the loop skips that line, which opens a fence again, and
    the delimiter row after it. *)
Lemma find_tables_loop_closer_next (i : nat) (line nxt : str)
  (after : list str) (st : FenceState) :
  in_fence st = false -> starts_fence line = true ->
  is_delimiter_row nxt = true ->
  find_tables_loop i (line :: nxt :: after) st
  = find_tables_loop (S (S i)) after (toggle_fence st line).
Proof.
  intros Hf Hs Hd.
  pose proof (toggle_fence_reopens st line Hs Hf) as Ho.
  rewrite find_tables_loop_cons, Ho.
  rewrite find_tables_loop_cons.
  rewrite (toggle_fence_other _ nxt (delimiter_row_not_fence nxt Hd)), Ho.
  reflexivity.
Qed.

(** The loop on the lines written for a table, followed by a line that
    cannot belong to it: the table is found with the same bounds. *)
Lemma find_tables_loop_aligned (i n : nat) (out after : list str)
  (st : FenceState) :
  in_fence st = false ->
  Forall (fun l => absorbable l = true) out ->
  length out = n -> 2 <= n ->
  next_is_delimiter (tl out) = true ->
  (forall l, hd_error after = Some l -> absorbable l = false) ->
  find_tables_loop i (out ++ after) st
  = mkTable i (i + n - 1) (map split_row out)
    :: find_tables_loop (i + n - 1 + 1) after st.
Proof.
  intros Hf Ha Hlen Hn Hd Hs.
  pose proof (absorb_app out after Ha Hs) as Hab.
  destruct out as [|h [|d out']]; simpl in Hlen; try lia.
  inversion Ha as [|? ? Hh _]; subst.
  cbn [tl next_is_delimiter] in Hd.
  change ((h :: d :: out') ++ after) with (h :: (d :: out') ++ after) at 1.
  etransitivity; [apply find_tables_loop_cons|].
  rewrite (toggle_fence_other st h (absorbable_not_fence h Hh)), Hf.
  rewrite (absorbable_pipe h Hh).
  change (next_is_delimiter ((d :: out') ++ after)) with (is_delimiter_row d).
  rewrite Hd. cbn [andb].
  change (h :: (d :: out') ++ after) with ((h :: d :: out') ++ after).
  rewrite Hab.
  rewrite firstn_app, firstn_all, Nat.sub_diag, firstn_O, app_nil_r.
  rewrite skipn_app, skipn_all, Nat.sub_diag. reflexivity.
Qed.

Lemma retok_rows (t : Table) :
  2 <= length (rows t) ->
  retok t = mkTable (start t) (end_ t) (map split_row (aligned_lines (rows t))).
Proof.
  intros H. unfold retok.
  assert ((2 <=? length (rows t)) = true) as -> by now apply Nat.leb_le.
  reflexivity.
Qed.

(** In the aligned document the loop finds, line by line, the tables it
    found in the input, with the rows of their aligned lines. *)
Lemma find_tables_loop_rewritten (i : nat) (rest : list str)
  (st : FenceState) :
  forall pre, length pre = i -> (in_fence st = true -> 1 <= i) ->
    (forall t, In t (find_tables_loop i rest st) -> 2 <= length (rows t) ->
               stable_table (pre ++ rest) t) ->
    find_tables_loop i (rewrite_from i rest (find_tables_loop i rest st)) st
    = map retok (find_tables_loop i rest st).
Proof.
  apply (find_tables_loop_ind
           (fun i rest st ts =>
              forall pre, length pre = i -> (in_fence st = true -> 1 <= i) ->
                (forall t, In t ts -> 2 <= length (rows t) ->
                           stable_table (pre ++ rest) t) ->
                find_tables_loop i (rewrite_from i rest ts) st
                = map retok ts)); clear i rest st.
  - intros i st pre _ _ _. apply find_tables_loop_equation_1.
  - intros i line after st Hf IH pre Hlen Hi Hst.
    assert (chain (pre ++ line :: after) (S i)
              (find_tables_loop (S i) after (toggle_fence st line))) as Hc.
    { replace (pre ++ line :: after) with ((pre ++ [line]) ++ after)
        by now rewrite <- app_assoc.
      apply find_tables_loop_chain; [rewrite length_app; simpl; lia | lia]. }
    rewrite (rewrite_from_skip _ _ _ _ _ Hc).
    rewrite find_tables_loop_cons, Hf.
    apply (IH (pre ++ [line])).
    + rewrite length_app. simpl. lia.
    + lia.
    + now rewrite <- app_assoc.
  - intros i line after st Hf Ht IH pre Hlen Hi Hst.
    apply andb_prop in Ht. destruct Ht as [Hp Hd].
    destruct after as [|nxt after']; [discriminate|].
    cbn [next_is_delimiter] in Hd.
    remember (absorb (line :: nxt :: after')) as n eqn:En.
    pose proof (absorb_le (line :: nxt :: after')) as Hn. rewrite <- En in Hn.
    pose proof (absorb_firstn (line :: nxt :: after')) as Hab.
    rewrite <- En in Hab.
    destruct (absorbable line) eqn:Ea.
    + (* the table has rows *)
      assert (2 <= n) as H2.
      { rewrite En. cbn [absorb].
        rewrite Ea, (delimiter_row_absorbable nxt Hd). lia. }
      rewrite (toggle_fence_other st line (absorbable_not_fence line Ea))
        in *.
      set (rest := line :: nxt :: after') in *.
      set (ts' := find_tables_loop (i + n - 1 + 1) (skipn n rest) st) in *.
      set (t0 := mkTable i (i + n - 1) (map split_row (firstn n rest))).
      assert (length (rows t0) = n) as Hr0.
      { unfold t0. cbn [rows]. rewrite length_map, length_firstn. lia. }
      assert (chain (pre ++ rest) (i + n - 1 + 1) ts') as Hc.
      { replace (pre ++ rest) with ((pre ++ firstn n rest) ++ skipn n rest)
          by now rewrite <- app_assoc, firstn_skipn.
        apply find_tables_loop_chain; [|congruence].
        rewrite length_app, length_firstn. lia. }
      assert (skipn (i + n - 1 + 1) (pre ++ rest) = skipn n rest) as Esk.
      { replace (i + n - 1 + 1) with (n + length pre) by lia.
        rewrite <- skipn_skipn. now rewrite skipn_pre. }
      destruct (Hst t0 (or_introl eq_refl)) as [_ Hdel]; [lia|].
      cbn [rewrite_from]. fold t0.
      assert ((2 <=? length (rows t0)) = true) as -> by (apply Nat.leb_le; lia).
      change (start t0) with i. change (end_ t0) with (i + n - 1).
      rewrite Nat.sub_diag. cbn [firstn app].
      replace (i + n - 1 + 1 - i) with n by lia.
      rewrite (find_tables_loop_aligned i n); auto.
      * cbn [map]. f_equal; [now rewrite retok_rows by lia|].
        apply (IH (pre ++ firstn n rest)).
        -- rewrite length_app, length_firstn. lia.
        -- congruence.
        -- rewrite <- app_assoc, firstn_skipn.
           intros t Ht. apply Hst. now right.
      * unfold aligned_lines. apply render_pure_absorbable.
      * now rewrite length_aligned_lines.
      * intros l Hl. rewrite <- Esk in Hl.
        rewrite (rewrite_from_hd _ _ _ Hc) in Hl.
        -- rewrite Esk in Hl. apply (absorb_stop rest). rewrite <- En.
           rewrite <- Hl. destruct (skipn n rest) eqn:E.
           ++ apply nth_error_None.
              assert (length (skipn n rest) = 0) as H0 by now rewrite E.
              rewrite length_skipn in H0. lia.
           ++ rewrite <- (firstn_skipn n rest) at 1.
              rewrite nth_error_app2 by (rewrite length_firstn; lia).
              rewrite length_firstn, Nat.min_l, Nat.sub_diag, E by lia.
              reflexivity.
        -- intros l' Hl'. rewrite Esk in Hl'.
           apply (absorb_stop rest). rewrite <- En.
           destruct (skipn n rest) eqn:E; [discriminate|].
           rewrite <- (firstn_skipn n rest) at 1.
           rewrite nth_error_app2 by (rewrite length_firstn; lia).
           rewrite length_firstn, Nat.min_l, Nat.sub_diag, E by lia.
           exact Hl'.
    + (* the table recorded at a line that closes a fence *)
      assert (n = 0) as -> by (rewrite En; cbn [absorb]; now rewrite Ea).
      pose proof (absorb_zero_closes st line (nxt :: after') Hf Hp
                    (eq_sym En)) as Hz.
      specialize (Hi Hz).
      pose proof (not_absorbable_fence line Hp Ea) as Hs.
      cbn [skipn firstn map] in *.
      set (rest := line :: nxt :: after') in *.
      set (st1 := toggle_fence st line) in *.
      set (ts' := find_tables_loop (i + 0 - 1 + 1) rest st1) in *.
      assert (chain (pre ++ rest) (S (S i)) ts') as Hc.
      { unfold ts'. replace (i + 0 - 1 + 1) with i by lia. unfold rest.
        rewrite (find_tables_loop_closer_next i line nxt after' st1 Hf Hs Hd).
        replace (pre ++ line :: nxt :: after')
          with ((pre ++ [line; nxt]) ++ after')
          by now rewrite <- app_assoc.
        apply find_tables_loop_chain; [rewrite length_app; simpl; lia | lia]. }
      assert (rewrite_from (i + 0 - 1 + 1) rest ts'
              = line :: nxt :: rewrite_from (S (S i)) after' ts') as ER.
      { replace (i + 0 - 1 + 1) with i by lia. unfold rest.
        rewrite (rewrite_from_skip (pre ++ rest) i)
          by (apply (chain_weaken _ _ _ _ Hc); lia).
        now rewrite (rewrite_from_skip (pre ++ rest) (S i)) by exact Hc. }
      cbn [rewrite_from start end_ rows length Nat.leb].
      rewrite Nat.sub_diag. cbn [firstn app].
      replace (i + 0 - 1 + 1 - i) with 0 by lia. cbn [firstn skipn app].
      cbn [map]. change (retok (mkTable i (i + 0 - 1) []))
        with (mkTable i (i + 0 - 1) []).
      rewrite <- (IH pre); [| lia | congruence
                            | intros t Ht; apply Hst; now right].
      rewrite ER.
      apply find_tables_loop_closer; assumption.
  - intros i line after st Hf Ht IH pre Hlen Hi Hst.
    assert (chain (pre ++ line :: after) (S i)
              (find_tables_loop (S i) after (toggle_fence st line))) as Hc.
    { replace (pre ++ line :: after) with ((pre ++ [line]) ++ after)
        by now rewrite <- app_assoc.
      apply find_tables_loop_chain; [rewrite length_app; simpl; lia | lia]. }
    rewrite (rewrite_from_skip _ _ _ _ _ Hc).
    rewrite find_tables_loop_cons, Hf.
    assert (contains "|" line
            && next_is_delimiter
                 (rewrite_from (S i) after
                    (find_tables_loop (S i) after (toggle_fence st line)))
            = false) as ->.
    { destruct (contains "|" line); [|reflexivity]. cbn [andb] in *.
      pose proof (rewrite_from_next_delim _ _ _ Hc Hst) as H.
      replace (skipn (S i) (pre ++ line :: after)) with after in H.
      - now apply H.
      - replace (pre ++ line :: after) with ((pre ++ [line]) ++ after)
          by now rewrite <- app_assoc.
        replace (S i) with (length (pre ++ [line]))
          by (rewrite length_app; simpl; lia).
        now rewrite skipn_pre. }
    apply (IH (pre ++ [line])).
    + rewrite length_app. simpl. lia.
    + lia.
    + now rewrite <- app_assoc.
Qed.

Lemma find_tables_aligned (lines : list str) :
  (forall t, In t (find_tables lines) -> 2 <= length (rows t) ->
             stable_table lines t) ->
  find_tables (applied lines (find_tables lines))
  = map retok (find_tables lines).
Proof.
  intros Hst.
  pose proof (applied_rewrite lines 0 _ (find_tables_chain lines)) as E.
  cbn [skipn] in E. rewrite E. unfold find_tables.
  apply (find_tables_loop_rewritten 0 lines fence_init []);
    [reflexivity | discriminate | exact Hst].
Qed.

Lemma retok_unchanged (lines : list str) (t : Table) :
  table_ok lines t ->
  (2 <= length (rows t) -> stable_table lines t) ->
  table_differs (applied lines (find_tables lines)) (retok t) = true ->
  In t (find_tables lines) -> False.
Proof.
  intros Hok Hst Hd Hin. unfold table_differs in Hd.
  apply andb_prop in Hd. destruct Hd as [H2' Hd].
  destruct (le_lt_dec 2 (length (rows t))) as [H2|H2].
  - rewrite (retok_rows t H2) in Hd. cbn [rows start end_] in Hd.
    rewrite (slice_applied lines 0 _ (find_tables_chain lines) t Hin H2) in Hd.
    destruct (Hst H2) as [Hc _].
    assert (aligned_lines (map split_row (aligned_lines (rows t)))
            = aligned_lines (rows t)) as E.
    { rewrite (ok_rows _ _ Hok) in *. rewrite length_map in H2.
      now apply aligned_lines_idem. }
    rewrite E in Hd. apply negb_true_iff in Hd.
    assert (lines_eqb (aligned_lines (rows t)) (aligned_lines (rows t)) = true)
      as Ht by now apply lines_eqb_eq.
    congruence.
  - unfold retok in H2'.
    assert ((2 <=? length (rows t)) = false) as E by (apply Nat.leb_gt; lia).
    rewrite E in H2'. congruence.
Qed.

Lemma stable_of_aligned (lines : list str) :
  (forall t out ncols,
     In t (find_tables lines) -> align_table t = Some out ->
     max_of (map (@length str) (rows t)) = Some ncols ->
     (forall l, In l (slice lines (start t) (end_ t + 1)) ->
                closed_row l = true \/ length (split_row l) = ncols)
     /\ exists d, nth_error out 1 = Some d /\ is_delimiter_row d = true) ->
  forall t, In t (find_tables lines) -> 2 <= length (rows t) ->
            stable_table lines t.
Proof.
  intros Hyp t Hin H2.
  assert (rows t <> []) as Hne
      by (destruct (rows t); simpl in H2; [lia | discriminate]).
  destruct (Hyp t _ _ Hin (align_table_eq t H2) (max_of_ncols _ Hne))
    as [Hc [d [Hd1 Hd2]]].
  split; [exact Hc|].
  destruct (aligned_lines (rows t)) as [|h [|d' out']]; try discriminate.
  injection Hd1 as ->. exact Hd2.
Qed.

(** The aligned document is aligned to itself. *)
Lemma aligned_document_fixed (lines : list str) :
  (forall t, In t (find_tables lines) -> 2 <= length (rows t) ->
             stable_table lines t) ->
  align_document (applied lines (find_tables lines))
  = Some (applied lines (find_tables lines), false).
Proof.
  intros Hst.
  pose proof (find_tables_aligned lines Hst) as Ef.
  rewrite align_document_spec, Ef.
  assert (existsb (table_differs (applied lines (find_tables lines)))
                  (map retok (find_tables lines)) = false) as Ed.
  { destruct (existsb _ (map retok (find_tables lines))) eqn:E;
      [|reflexivity].
    exfalso. apply existsb_exists in E. destruct E as [t' [Hin' Hd]].
    apply in_map_iff in Hin'. destruct Hin' as [t [<- Hin]].
    apply (retok_unchanged lines t); auto.
    now apply find_tables_ok. }
  rewrite Ed. f_equal. f_equal.
  apply (applied_unchanged _ 0); [|exact Ed].
  rewrite <- Ef. apply find_tables_chain.
Qed.

Lemma retok_bounds (t : Table) :
  start (retok t) = start t /\ end_ (retok t) = end_ t.
Proof. unfold retok. destruct (2 <=? length (rows t)); auto. Qed.

(** X16.  Aligning an aligned document changes nothing, for the
    documents whose tables can be read back: when every aligned table of
    the document has only rows that end outside code spans or have all
    columns, and the delimiter row written for it is a delimiter row
    again, [align_document] on the document it returned returns that
    document and [changed = false]; and [find_tables] finds in it the
    same tables, one for one in the same order, each with the start and
    the end it had and with the tokenised lines of the returned document
    as rows. *)
Theorem align_document_idempotent (lines new : list str) (changed : bool) :
  align_document lines = Some (new, changed) ->
  (forall t out ncols,
     In t (find_tables lines) -> align_table t = Some out ->
     max_of (map (@length str) (rows t)) = Some ncols ->
     (forall l, In l (slice lines (start t) (end_ t + 1)) ->
                closed_row l = true \/ length (split_row l) = ncols)
     /\ exists d, nth_error out 1 = Some d /\ is_delimiter_row d = true) ->
  align_document new = Some (new, false)
  /\ length (find_tables new) = length (find_tables lines)
  /\ forall k t,
       nth_error (find_tables lines) k = Some t ->
       exists t',
         nth_error (find_tables new) k = Some t'
         /\ start t' = start t /\ end_ t' = end_ t
         /\ rows t' = map split_row (slice new (start t) (end_ t + 1)).
Proof.
  intros Ha Hyp. rewrite align_document_spec in Ha. injection Ha as <- _.
  pose proof (stable_of_aligned lines Hyp) as Hst.
  pose proof (find_tables_aligned lines Hst) as Ef.
  split; [now apply aligned_document_fixed|].
  split; [now rewrite Ef, length_map|].
  intros k t Hk. exists (retok t).
  assert (nth_error (find_tables (applied lines (find_tables lines))) k
          = Some (retok t)) as Hk'
      by (rewrite Ef; now apply map_nth_error).
  destruct (retok_bounds t) as [Es Ee].
  split; [exact Hk'|]. split; [exact Es|]. split; [exact Ee|].
  rewrite <- Es, <- Ee.
  apply ok_rows. apply find_tables_ok. eapply nth_error_In. exact Hk'.
Qed.

Lemma align_document_idempotent_witness :
  align_document [lit "Fruit"; lit "| name  | n   |"; lit "| :---- | --- |";
                  lit "| `a|b` | 1   |"; lit "| pear  |     |"]
  = Some ([lit "Fruit"; lit "| name  | n   |"; lit "| :---- | --- |";
           lit "| `a|b` | 1   |"; lit "| pear  |     |"], false).
Proof.
  apply (align_document_idempotent
           [lit "Fruit"; lit "|name|n|"; lit "|:---|---|";
            lit "|`a|b`|1|"; lit "|pear"] _ true).
  - vm_compute. reflexivity.
  - intros t out ncols Ht Ha Hm.
    vm_compute in Ht. destruct Ht as [<-|[]].
    vm_compute in Ha. injection Ha as <-.
    vm_compute in Hm. injection Hm as <-.
    split.
    + intros l Hl. left. vm_compute in Hl.
      destruct Hl as [<-|[<-|[<-|[<-|[]]]]]; reflexivity.
    + eexists. split; reflexivity.
Defined.

(** ** Idempotence *)

(** C1, counterexample.  The third row leaves a code span open and lacks
    a column.  The aligner pads it with an empty cell; in the aligned
    document the pipe written before that cell lies in the open span, the
    row has a longer second cell, and aligning again widens the column:
    the second run reports a change, at the document and at the table. *)
Lemma open_span_row_realigned :
  align_document [lit "|a|b|c|"; lit "|---|---|---|"; lit "|x|`y"]
  = Some ([lit "| a   | b   | c   |"; lit "| --- | --- | --- |";
           lit "| x   | `y  |     |"], true)
  /\ align_document [lit "| a   | b   | c   |"; lit "| --- | --- | --- |";
                     lit "| x   | `y  |     |"]
     = Some ([lit "| a   | b     | c   |"; lit "| --- | ----- | --- |";
              lit "| x   | `y  | |     |"], true)
  /\ align_table
       (mkTable 0 2 (map split_row [lit "| a   | b   | c   |";
                                    lit "| --- | --- | --- |";
                                    lit "| x   | `y  |     |"]))
     = Some [lit "| a   | b     | c   |"; lit "| --- | ----- | --- |";
             lit "| x   | `y  | |     |"].
Proof. repeat split; vm_compute; reflexivity. Qed.

(** C1, as amended.  Aligning is idempotent for the documents whose
    tables can be read back.  When every aligned table of the document
    has only rows that end outside code spans or have all columns, and
    the delimiter row written for it is a delimiter row again, running
    the document aligner on its own output changes nothing and reports
    [changed = false], and for every detected table the table aligner on
    the lines it rendered, tokenised again, returns the same lines. *)
Theorem aligning_idempotent (lines new : list str) (changed : bool) :
  align_document lines = Some (new, changed) ->
  (forall t out ncols,
     In t (find_tables lines) -> align_table t = Some out ->
     max_of (map (@length str) (rows t)) = Some ncols ->
     (forall l, In l (slice lines (start t) (end_ t + 1)) ->
                closed_row l = true \/ length (split_row l) = ncols)
     /\ exists d, nth_error out 1 = Some d /\ is_delimiter_row d = true) ->
  align_document new = Some (new, false)
  /\ forall t out,
       In t (find_tables lines) -> align_table t = Some out ->
       align_table (mkTable (start t) (end_ t) (map split_row out))
       = Some out.
Proof.
  intros Ha Hyp. rewrite align_document_spec in Ha. injection Ha as <- _.
  split.
  - apply aligned_document_fixed. now apply stable_of_aligned.
  - intros t out Hin Hout.
    pose proof (find_tables_ok lines t Hin) as Hok.
    destruct (align_table_some t out Hout) as [H2 ->].
    destruct (stable_of_aligned lines Hyp t Hin H2) as [Hc _].
    rewrite align_table_eq
      by (cbn [rows]; now rewrite length_map, length_aligned_lines).
    cbn [rows]. f_equal.
    rewrite (ok_rows _ _ Hok) in *. rewrite length_map in H2.
    now apply aligned_lines_idem.
Qed.

Lemma aligning_idempotent_witness :
  align_document [lit "| a   | bb  |"; lit "| --- | --- |"; lit "| 1   | 22  |"]
  = Some ([lit "| a   | bb  |"; lit "| --- | --- |"; lit "| 1   | 22  |"],
          false).
Proof.
  apply (aligning_idempotent
           [lit "|a|bb|"; lit "|---|---|"; lit "|1|22|"] _ true).
  - vm_compute. reflexivity.
  - intros t out ncols Ht Ha Hm.
    vm_compute in Ht. destruct Ht as [<-|[]].
    vm_compute in Ha. injection Ha as <-.
    vm_compute in Hm. injection Hm as <-.
    split.
    + intros l Hl. left. vm_compute in Hl.
      destruct Hl as [<-|[<-|[<-|[]]]]; reflexivity.
    + eexists. split; reflexivity.
Defined.

(** ** More on detection *)

(** X17.  No detected table is skipped by the checks of [process_file]
    on the number of columns and on the delimiter row: in the document
    [align_document] returns, every table of [find_tables] that has rows
    holds the lines [align_table] returns for it. *)
Theorem every_table_aligned (lines new : list str) (changed : bool)
  (t : Table) :
  align_document lines = Some (new, changed) ->
  In t (find_tables lines) -> rows t <> [] ->
  exists out,
    align_table t = Some out
    /\ slice new (start t) (end_ t + 1) = out.
Proof.
  intros Ha Hin Hne. rewrite align_document_spec in Ha. injection Ha as <- _.
  assert (2 <= length (rows t)) as H2.
  { destruct (ok_shape _ _ (find_tables_ok lines t Hin)) as [E|[H _]];
      [contradiction | exact H]. }
  exists (aligned_lines (rows t)). split; [now apply align_table_eq|].
  apply (slice_applied lines 0); auto. apply find_tables_chain.
Qed.

Lemma every_table_aligned_witness :
  exists out,
    align_table (mkTable 1 2 [[lit "a"; lit "b"]; [lit "---"; lit "---"]])
    = Some out
    /\ slice [lit "x"; lit "| a   | b   |"; lit "| --- | --- |"] 1 (2 + 1)
       = out.
Proof.
  apply (every_table_aligned [lit "x"; lit "|a|b|"; lit "|---|---|"] _ true
           (mkTable 1 2 [[lit "a"; lit "b"]; [lit "---"; lit "---"]])).
  - vm_compute. reflexivity.
  - vm_compute. left. reflexivity.
  - discriminate.
Defined.



Lemma strip_outer_spaces (ws1 ws2 s : str) :
  forallb is_space ws1 = true -> forallb is_space ws2 = true ->
  strip (ws1 ++ s ++ ws2) = strip s.
Proof.
  intros H1 H2. rewrite (strip_spaces_l ws1 _ H1).
  now rewrite (strip_spaces_r s ws2 H2).
Qed.

(** X19.  Indentation and trailing whitespace of a line do not matter:
    the line with whitespace added at its ends has the same cells, and is
    a delimiter row exactly when the line is. *)
Theorem split_row_outer_whitespace (ws1 ws2 line : str) :
  forallb is_space ws1 = true -> forallb is_space ws2 = true ->
  split_row (ws1 ++ line ++ ws2) = split_row line
  /\ is_delimiter_row (ws1 ++ line ++ ws2) = is_delimiter_row line.
Proof.
  intros H1 H2.
  assert (split_row (ws1 ++ line ++ ws2) = split_row line) as E.
  { unfold split_row, row_body. now rewrite strip_outer_spaces. }
  split; [exact E|]. unfold is_delimiter_row. rewrite E.
  rewrite <- (contains_strip "|" (ws1 ++ line ++ ws2)) by reflexivity.
  rewrite strip_outer_spaces by assumption.
  now rewrite contains_strip.
Qed.

Lemma split_row_outer_whitespace_witness :
  split_row (lit "    " ++ lit "| a | b |" ++ lit "  ")
  = split_row (lit "| a | b |").
Proof. apply split_row_outer_whitespace; reflexivity. Defined.

Lemma Forall_skipn_all {A} (P : A -> Prop) (n : nat) (l : list A) :
  Forall P l -> Forall P (skipn n l).
Proof.
  intros H. rewrite <- (firstn_skipn n l) in H.
  apply Forall_app in H. tauto.
Qed.

Lemma find_tables_loop_complete (i : nat) (rest : list str)
  (st : FenceState) :
  in_fence st = false -> Forall (fun l => starts_fence l = false) rest ->
  forall k header second,
    nth_error rest k = Some header -> nth_error rest (S k) = Some second ->
    contains "|" header = true -> is_delimiter_row second = true ->
    exists t, In t (find_tables_loop i rest st)
              /\ start t <= i + k /\ i + S k <= end_ t.
Proof.
  apply (find_tables_loop_ind
           (fun i rest st ts =>
              in_fence st = false ->
              Forall (fun l => starts_fence l = false) rest ->
              forall k header second,
                nth_error rest k = Some header ->
                nth_error rest (S k) = Some second ->
                contains "|" header = true ->
                is_delimiter_row second = true ->
                exists t, In t ts /\ start t <= i + k /\ i + S k <= end_ t));
    clear i rest st.
  - intros i st _ _ k header second Hh. destruct k; discriminate.
  - intros i line after st Hf _ Hst Hr. exfalso.
    inversion Hr as [|? ? Hl _]; subst.
    rewrite (toggle_fence_other st line Hl) in Hf. congruence.
  - intros i line after st Hf Ht IH Hst Hr k header second Hh Hs Hp Hd.
    inversion Hr as [|? ? Hl Hr']; subst.
    rewrite (toggle_fence_other st line Hl) in *.
    apply andb_prop in Ht. destruct Ht as [Hpl Hdl].
    destruct after as [|nxt after']; [discriminate|].
    cbn [next_is_delimiter] in Hdl.
    remember (absorb (line :: nxt :: after')) as n eqn:En.
    assert (absorbable line = true) as Hal.
    { unfold absorbable.
      pose proof (contains_strip_nonempty "|" line eq_refl Hpl) as Hne.
      destruct (strip line); [congruence|]. now rewrite Hpl, Hl. }
    assert (2 <= n) as H2.
    { rewrite En. cbn [absorb].
      rewrite Hal, (delimiter_row_absorbable nxt Hdl). lia. }
    destruct (le_lt_dec n k) as [Hk|Hk].
    + destruct (IH Hst (Forall_skipn_all _ n _ Hr) (k - n) header second)
        as [t [Hin [H1 H3]]]; auto.
      * rewrite nth_error_skipn. now replace (n + (k - n)) with k by lia.
      * rewrite nth_error_skipn. now replace (n + S (k - n)) with (S k) by lia.
      * exists t. split; [now right|]. lia.
    + eexists. split; [now left|]. cbn [start end_].
      assert (S k <> n); [|lia].
      intros E. rewrite <- E, En in *.
      pose proof (absorb_stop _ _ Hs) as Hn.
      rewrite (delimiter_row_absorbable second Hd) in Hn. discriminate.
  - intros i line after st Hf Ht IH Hst Hr k header second Hh Hs Hp Hd.
    inversion Hr as [|? ? Hl Hr']; subst.
    rewrite (toggle_fence_other st line Hl) in *.
    destruct k as [|k].
    + exfalso. simpl in Hh, Hs. injection Hh as ->.
      destruct after as [|nxt after']; [discriminate|].
      injection Hs as ->. cbn [next_is_delimiter] in Ht.
      rewrite Hp, Hd in Ht. discriminate.
    + destruct (IH Hst Hr' k header second) as [t [Hin [H1 H3]]]; auto.
      exists t. split; [exact Hin|]. lia.
Qed.

(** X20.  In a document without fence lines every header is found: when
    a line with a pipe is followed by a delimiter row, both lie in one
    table of [find_tables]. *)
Theorem header_delimiter_pair_found (lines : list str) (k : nat)
  (header second : str) :
  Forall (fun l => starts_fence l = false) lines ->
  nth_error lines k = Some header -> nth_error lines (S k) = Some second ->
  contains "|" header = true -> is_delimiter_row second = true ->
  exists t, In t (find_tables lines) /\ start t <= k /\ S k <= end_ t.
Proof.
  intros Hr Hh Hs Hp Hd.
  apply (find_tables_loop_complete 0 lines fence_init eq_refl Hr
           k header second); assumption.
Qed.

Lemma header_delimiter_pair_found_witness :
  exists t,
    In t (find_tables [lit "intro"; lit "a | b"; lit "--- | ---"; lit "1 | 2"])
    /\ start t <= 1 /\ 2 <= end_ t.
Proof.
  apply (header_delimiter_pair_found _ 1 (lit "a | b") (lit "--- | ---"));
    try reflexivity.
  repeat constructor.
Defined.
